(** * libfive simplex tree: leaf evaluation, bottom-up collection, indexing

    A shallow embedding of [libfive/src/render/brep/simplex/simplex_tree.cpp]
    ([SimplexTree<N>], [SimplexLeaf<N>], [SimplexLeafSubspace<N>] and the
    [Unroller] helper).  Shared subspace records live in a heap (a finite map
    from addresses to records); tree nodes and leaves hold addresses, so that
    two leaves that borrow the same subspace alias the same record.

    Floating-point values, QEFs, regions, tapes and the evaluators are kept
    abstract: they are the fields of the [Primitives] class. *)

From Stdlib Require Import ZArith Lia Bool List.
From stdpp Require Import base option list functions gmap.

Set Warnings "-register-all".

(** ** Interval tags and small integer helpers *)

Inductive Interval := EMPTY | FILLED | AMBIGUOUS | UNKNOWN.

#[global] Instance Interval_eq_dec : EqDecision Interval.
Proof. solve_decision. Defined.

Definition Interval_eqb (a b : Interval) : bool :=
  match a, b with
  | EMPTY, EMPTY | FILLED, FILLED | AMBIGUOUS, AMBIGUOUS | UNKNOWN, UNKNOWN => true
  | _, _ => false
  end.

(** Modelled from the spec: [ipow(b, n)], declared in a header outside the
    sources at hand, is the integer power that gives the array sizes
    [2^N] and [3^N]. *)
Definition ipow (b n : nat) : nat := b ^ n.

(** [1 << d] *)
Definition bit (d : nat) : Z := Z.shiftl 1 (Z.of_nat d).

(** C truth value of an integer expression. *)
Definition nz (x : Z) : bool := negb (x =? 0)%Z.

(** Wrap-around of the unsigned types used by the sources. *)
Definition u8 (x : Z) : Z := (x mod 2 ^ 8)%Z.
Definition u32 (x : Z) : Z := (x mod 2 ^ 32)%Z.
Definition u64 (x : Z) : Z := (x mod 2 ^ 64)%Z.

(** ** Subspace and corner indices *)

Module NeighborIndex.

(** Modelled from the spec: [NeighborIndex] is declared in a header that is
    not part of the sources at hand.  A neighbor index is a value in
    [[0, 3^N)] read as one base-3 digit per axis, with LOW = 0,
    FLOATING = 1 and HIGH = 2. *)
Definition digit (i d : nat) : nat := (i / 3 ^ d) mod 3.

(** Modelled from the spec: axis [d] of [i] is floating when its digit is
    FLOATING. *)
Definition axis_floating (i d : nat) : bool := digit i d =? 1.

(** Modelled from the spec: axis [d] of [i] is fixed on the HIGH side when
    its digit is HIGH. *)
Definition axis_high (i d : nat) : bool := digit i d =? 2.

(** The bitmask over the axes [0 .. n-1] on which [p] holds. *)
Fixpoint mask (n : nat) (p : nat → bool) : Z :=
  match n with
  | O => 0%Z
  | S k => Z.lor (mask k p) (if p k then bit k else 0%Z)
  end.

(** Modelled from the spec: [floating()] is the mask of the floating axes
    (over the [N] axes of the cell; an index below [3^N] has no other). *)
Definition floating (N i : nat) : Z := mask N (axis_floating i).

(** Modelled from the spec: [pos()] is the mask of the non-floating axes
    set HIGH. *)
Definition pos (N i : nat) : Z := mask N (axis_high i).

(** Modelled from the spec: [fixed<N>()] is the complement of [floating()]
    over the [N] axes of the cell. *)
Definition fixed (N i : nat) : Z :=
  Z.land (Z.lnot (floating N i)) (Z.ones (Z.of_nat N)).

(** Modelled from the spec: [dimension] is the number of floating axes. *)
Definition dimension (N i : nat) : nat :=
  length (List.filter (axis_floating i) (seq 0 N)).

(** Modelled from the spec: [self.contains(other)] iff every axis fixed in
    [self] is fixed identically in [other]. *)
Definition contains (N self other : nat) : bool :=
  forallb (λ d, axis_floating self d || (digit other d =? digit self d))
          (seq 0 N).

(** Modelled from the spec: [fromPosAndFloating(pos, floating)] is the
    index whose floating axes are those of the mask [floating_] and whose
    other axes are HIGH exactly where [pos_] has its bit set. *)
Fixpoint fromPosAndFloating (N : nat) (pos_ floating_ : Z) : nat :=
  match N with
  | O => 0
  | S k =>
      fromPosAndFloating k pos_ floating_
      + (if Z.testbit floating_ (Z.of_nat k) then 1
         else if Z.testbit pos_ (Z.of_nat k) then 2 else 0) * 3 ^ k
  end.

End NeighborIndex.

Module CornerIndex.

(** Modelled from the spec: a corner index is a bitmask of per-axis
    HIGH/LOW in [[0, 2^N)]; [neighbor()] is the neighbor index with all
    axes fixed on the corner's sides. *)
Definition neighbor (N i : nat) : nat :=
  NeighborIndex.fromPosAndFloating N (Z.of_nat i) 0.

(** Modelled from the spec: corner [i] is on the HIGH side of axis [d] when
    bit [d] of [i] is set. *)
Definition axis_high (i d : nat) : bool := Z.testbit (Z.of_nat i) (Z.of_nat d).

End CornerIndex.

(** ** The index arithmetic of [collectChildren] *)

Section Contribution.

Variable N : nat.

(** One round of the loop that computes [valid] for child corner [child]
    and a subspace with masks [fixed] and [pos]. *)
Definition valid_step (fixed pos child : Z) (valid : bool) (d : nat) : bool :=
  if nz (Z.land fixed (bit d))
  then valid && (nz (Z.land pos (bit d)) || nz (Z.land child (bit d)))
  else valid.

Definition contribution_valid (i j : nat) : bool :=
  let child := Z.of_nat i in
  let fixed := NeighborIndex.fixed N j in
  let pos := NeighborIndex.pos N j in
  fold_left (valid_step fixed pos child) (seq 0 N) true.

(** One round of the loop that maps the child's subspace to the parent's:
    the state is [(floating_out, pos_out)], both [uint8_t].  The corner bit
    that the source tests is [1 << N]. *)
Definition target_step (floating pos child : Z) (acc : Z * Z) (d : nat) : Z * Z :=
  let '(floating_out, pos_out) := acc in
  if nz (Z.land floating (bit d))
     || negb (Z.land pos (bit d) =? Z.land child (bit N))%Z
  then (u8 (Z.lor floating_out (bit d)), pos_out)
  else (floating_out, u8 (Z.lor pos_out (Z.land pos (bit d)))).

Definition contribution_target (i j : nat) : nat :=
  let child := Z.of_nat i in
  let floating := NeighborIndex.floating N j in
  let pos := NeighborIndex.pos N j in
  let '(floating_out, pos_out) :=
    fold_left (target_step floating pos child) (seq 0 N) (0%Z, 0%Z) in
  NeighborIndex.fromPosAndFloating N pos_out floating_out.

(** The mapping in the words of the specification: every floating axis of
    [j] stays floating; a fixed axis of [j] stays fixed, with its position,
    when the child corner's position on that axis agrees with it, and
    becomes floating otherwise. *)
Definition spec_target_digit (i j d : nat) : nat :=
  if NeighborIndex.axis_floating j d then 1
  else if eqb (NeighborIndex.axis_high j d) (CornerIndex.axis_high i d)
       then NeighborIndex.digit j d
       else 1.

Definition spec_contribution_target (i j : nat) : nat :=
  fold_right (λ d acc, acc + spec_target_digit i j d * 3 ^ d) 0 (seq 0 N).

End Contribution.

(** ** Numeric primitives and evaluators

    Everything the tree code takes from Eigen, the QEF class, [Region] and the
    evaluators, as an interface.  [double] and [float] are the C++ types of
    the same names. *)

Class Primitives := {
  double : Type;
  float : Type;
  Vec3f : Type;
  (** [QEF<N>] and [QEF<M>] for the reduced dimensions *)
  QEF : Type;
  QEFsub : Type;
  Region : Type;
  RegionSub : Type;
  Tape : Type;
  IntervalResult : Type;

  dzero : double;
  dmax : double → double → double;
  dlt : double → double → bool;

  (** [QEF<N>()], [operator+=], [insert(pos, normal, value)] *)
  qef_zero : QEF;
  qef_add : QEF → QEF → QEF;
  qef_insert : QEF → list double → list double → float → QEF;
  (** [QEF<M>()] for [M] given, [operator+=], [sub<mask>()], [solveBounded] *)
  qsub_zero : nat → QEFsub;
  qsub_add : QEFsub → QEFsub → QEFsub;
  qef_sub : Z → QEF → QEFsub;
  solveBounded : QEFsub → RegionSub → list double * double;

  (** [region.subspace<mask>()], [upper(i)], [lower(i)], [corner(i)],
      [corner3f(i)] *)
  region_subspace : Z → Region → RegionSub;
  region_upper : Region → nat → double;
  region_lower : Region → nat → double;
  region_corner : Region → nat → list double;
  region_corner3f : Region → nat → Vec3f;
  (** the point [vert.cast<float>(), region.perp.cast<float>()] *)
  region_point3f : Region → list double → Vec3f;

  (** [d.head<N>().cast<double>()] and [d_.array().isFinite().all()] *)
  head_cast : nat → Vec3f → list double;
  all_finite : list double → bool;

  (** interval evaluator: [evalAndPush], [Interval::state], [isSafe] *)
  evalAndPush : Region → Tape → IntervalResult * Tape;
  interval_state : IntervalResult → Interval;
  isSafe : Region → Tape → bool;

  (** array evaluator on one stored point: the column of [derivs] (three
      partial derivatives and the value), [getAmbiguous], [values] *)
  array_derivs : Tape → Vec3f → Vec3f * float;
  array_ambiguous : Tape → Vec3f → bool;
  array_values : Tape → Vec3f → float;

  (** feature evaluator: [features], [isInside] *)
  feature_features : Tape → Vec3f → list Vec3f;
  feature_isInside : Tape → Vec3f → bool;

  (** [out == 0] and [out < 0] on [float] *)
  float_is_zero : float → bool;
  float_is_negative : float → bool;
}.

(** ** Leaves, subspaces, the heap and the object pools *)

Definition ptr := nat.

Section SimplexTree.

Context `{P : Primitives}.

(** Template parameter [N]. *)
Variable N : nat.

(** The per-subspace record.  The struct is declared in a header outside
    the sources at hand; the fields are those set by its constructor and
    by [reset], with the widths the spec gives. *)
Record SimplexLeafSubspace := mkSubspace {
  inside : bool;
  index : Z;              (* uint64_t *)
  vert : list double;     (* N components *)
  qef : QEF;
  refcount : Z;           (* std::atomic<uint32_t> *)
}.

(** [SimplexLeafSubspace<N>::reset] *)
Definition subspace_reset : SimplexLeafSubspace :=
  {| inside := false; index := 0; vert := replicate N dzero;
     qef := qef_zero; refcount := 0 |}.

(** The leaf proper, with the fields that [reset] sets.  [sub] holds the
    addresses of the [3^N] subspace records; [nullptr] is address [0].  The
    [surface] scratch list of the mesher is left out: nothing in this file
    reads it. *)
Record SimplexLeaf := mkLeaf {
  level : Z;              (* unsigned *)
  tape : option Tape;
  sub : list ptr;
}.

Definition nullptr : ptr := 0.

(** [SimplexLeaf<N>::reset] *)
Definition leaf_reset : SimplexLeaf :=
  {| level := 0; tape := None; sub := replicate (ipow 3 N) nullptr |}.

(** Modelled from the spec: [XTree], the base class of [SimplexTree], is
    outside the sources at hand.  A node carries its interval type, an
    optional leaf, its children (none for a node that is not a branch) and
    the fan-in counter [pending]; [done_signals] counts the calls of
    [done()] on the node. *)
Inductive SimplexTree := mkTree {
  type : Interval;
  leaf : option SimplexLeaf;
  children : list SimplexTree;
  pending : Z;
  done_signals : nat;
}.

(** Modelled from the spec: [XTree::isBranch], a node is a branch when it
    has children. *)
Definition isBranch (t : SimplexTree) : bool :=
  match children t with [] => false | _ => true end.

(** Modelled from the spec: [XTree::done] signals that the node is
    complete. *)
Definition done (t : SimplexTree) : SimplexTree :=
  {| type := type t; leaf := leaf t; children := children t;
     pending := pending t; done_signals := S (done_signals t) |}.

Definition set_type (ty : Interval) (t : SimplexTree) : SimplexTree :=
  {| type := ty; leaf := leaf t; children := children t;
     pending := pending t; done_signals := done_signals t |}.

Definition set_leaf (l : option SimplexLeaf) (t : SimplexTree) : SimplexTree :=
  {| type := type t; leaf := l; children := children t;
     pending := pending t; done_signals := done_signals t |}.

Definition set_children (cs : list SimplexTree) (t : SimplexTree) : SimplexTree :=
  {| type := type t; leaf := leaf t; children := cs;
     pending := pending t; done_signals := done_signals t |}.

Definition set_pending (n : Z) (t : SimplexTree) : SimplexTree :=
  {| type := type t; leaf := leaf t; children := children t;
     pending := n; done_signals := done_signals t |}.

(** The heap of subspace records.  An address without an entry holds a
    record in its reset state. *)
Definition Store := gmap ptr SimplexLeafSubspace.

Definition deref (st : Store) (p : ptr) : SimplexLeafSubspace :=
  default subspace_reset (st !! p).

Definition modify (f : SimplexLeafSubspace → SimplexLeafSubspace)
    (p : ptr) (st : Store) : Store :=
  <[p := f (deref st p)]> st.

Definition set_inside (b : bool) (s : SimplexLeafSubspace) :=
  {| inside := b; index := index s; vert := vert s; qef := qef s;
     refcount := refcount s |}.
Definition set_index (n : Z) (s : SimplexLeafSubspace) :=
  {| inside := inside s; index := n; vert := vert s; qef := qef s;
     refcount := refcount s |}.
Definition set_vert (v : list double) (s : SimplexLeafSubspace) :=
  {| inside := inside s; index := index s; vert := v; qef := qef s;
     refcount := refcount s |}.
Definition set_qef (q : QEF) (s : SimplexLeafSubspace) :=
  {| inside := inside s; index := index s; vert := vert s; qef := q;
     refcount := refcount s |}.
Definition set_refcount (r : Z) (s : SimplexLeafSubspace) :=
  {| inside := inside s; index := index s; vert := vert s; qef := qef s;
     refcount := r |}.

(** Modelled from the spec: the object pools are declared outside the
    sources at hand.  [get] reuses a returned object or allocates a new
    one; [put] resets the object and keeps it for reuse.  The chain
    tree pool, leaf pool, subspace pool is one record; leaves and tree
    nodes are values here, so their pools only count what was returned. *)
Record Pool := mkPool {
  free_subs : list ptr;
  next_sub : ptr;
  leaves_returned : nat;
  trees_returned : nat;
}.

(** Everything the tree code mutates apart from the node itself: the heap,
    the pools and the slots of the array evaluator. *)
Record World := mkWorld {
  store : Store;
  pool : Pool;
  slots : nat → Vec3f;
}.

Definition with_store (st : Store) (w : World) : World :=
  {| store := st; pool := pool w; slots := slots w |}.

(** Modelled from the spec: [object_pool.next().next().get(&s)] reuses a
    returned subspace record or allocates a new one. *)
Definition get_sub (w : World) : ptr * World :=
  match free_subs (pool w) with
  | p :: rest =>
      (p, {| store := store w;
             pool := {| free_subs := rest; next_sub := next_sub (pool w);
                        leaves_returned := leaves_returned (pool w);
                        trees_returned := trees_returned (pool w) |};
             slots := slots w |})
  | [] =>
      (next_sub (pool w),
       {| store := store w;
          pool := {| free_subs := []; next_sub := S (next_sub (pool w));
                     leaves_returned := leaves_returned (pool w);
                     trees_returned := trees_returned (pool w) |};
          slots := slots w |})
  end.

(** Modelled from the spec: [put(s)] on the subspace pool resets the record
    and keeps it for reuse. *)
Definition put_sub (p : ptr) (w : World) : World :=
  {| store := <[p := subspace_reset]> (store w);
     pool := {| free_subs := p :: free_subs (pool w);
                next_sub := next_sub (pool w);
                leaves_returned := leaves_returned (pool w);
                trees_returned := trees_returned (pool w) |};
     slots := slots w |}.

(** Modelled from the spec: [put(leaf)] on the leaf pool. *)
Definition put_leaf (w : World) : World :=
  {| store := store w;
     pool := {| free_subs := free_subs (pool w);
                next_sub := next_sub (pool w);
                leaves_returned := S (leaves_returned (pool w));
                trees_returned := trees_returned (pool w) |};
     slots := slots w |}.

(** Modelled from the spec: [put(tree)] on the tree pool. *)
Definition put_tree (w : World) : World :=
  {| store := store w;
     pool := {| free_subs := free_subs (pool w);
                next_sub := next_sub (pool w);
                leaves_returned := leaves_returned (pool w);
                trees_returned := S (trees_returned (pool w)) |};
     slots := slots w |}.

(** [eval->array.set(p, k)] *)
Definition array_set (p : Vec3f) (k : nat) (w : World) : World :=
  {| store := store w; pool := pool w; slots := <[k := p]> (slots w) |}.

(** [SimplexLeaf<N>::releaseTo]: one round of the loop over [sub], then
    the leaf itself goes back to its pool. *)
Definition release_sub (w : World) (s : ptr) : World :=
  let r := u32 (refcount (deref (store w) s) - 1) in
  let w1 := with_store (modify (set_refcount r) s (store w)) w in
  if (r =? 0)%Z then put_sub s w1 else w1.

Definition leaf_releaseTo (l : SimplexLeaf) (w : World) : World :=
  put_leaf (fold_left release_sub (sub l) w).

(** [SimplexTree<N>::releaseTo] *)
Definition tree_releaseTo (t : SimplexTree) (w : World) : World :=
  match leaf t with
  | Some l => put_tree (leaf_releaseTo l w)
  | None => put_tree w
  end.

(** Modelled from the spec: [XTree::releaseChildren] hands every child
    back to the pool and leaves the node without children. *)
Definition releaseChildren (t : SimplexTree) (w : World) : SimplexTree * World :=
  (set_children [] t, fold_left (λ w c, tree_releaseTo c w) (children t) w).

(** ** [SimplexTree<N>::evalInterval]

    Returns the node and the tape handle the caller recurses with. *)
Definition evalInterval (t : SimplexTree) (region : Region) (tp : Tape)
    : SimplexTree * Tape :=
  let o := evalAndPush region tp in
  let t1 := set_type (interval_state (fst o)) t in
  if negb (isSafe region tp) then (set_type AMBIGUOUS t1, tp)
  else
    let t2 :=
      if Interval_eqb (type t1) FILLED || Interval_eqb (type t1) EMPTY
      then done t1 else t1 in
    (t2, snd o).

(** ** [Unroller<BaseDimension, SubspaceIndex_>::operator()] *)

(** The loop that collects the QEFs for subspace [s]. *)
Definition subspace_qef (st : Store) (l : SimplexLeaf) (s : nat) : QEFsub :=
  fold_left
    (λ q i,
       if NeighborIndex.contains N s i
       then qsub_add q (qef_sub (NeighborIndex.floating N s)
                                (qef (deref st (nth i (sub l) nullptr))))
       else q)
    (seq 0 (ipow 3 N))
    (qsub_zero (NeighborIndex.dimension N s)).

(** One round of the loop that unpacks the reduced solution into the
    vertex; the state is [(j, vert)]. *)
Definition unpack_step (region : Region) (floating pos : Z)
    (position : list double) (acc : nat * list double) (i : nat)
    : nat * list double :=
  let '(j, v) := acc in
  if nz (Z.land floating (bit i)) then (S j, <[i := nth j position dzero]> v)
  else if nz (Z.land pos (bit i)) then (j, <[i := region_upper region i]> v)
  else (j, <[i := region_lower region i]> v).

(** The whole unpacking loop, from the vertex [v] as it stands. *)
Definition unpack_vertex (region : Region) (s : nat) (position : list double)
    (v : list double) : list double :=
  snd (fold_left
         (unpack_step region (NeighborIndex.floating N s)
                      (NeighborIndex.pos N s) position)
         (seq 0 N) (0, v)).

(** The body of the [if (!already_solved[SubspaceIndex_])] block: the new
    heap and [sol.error]. *)
Definition solve_subspace (st : Store) (l : SimplexLeaf) (region : Region)
    (s : nat) : Store * double :=
  let floating := NeighborIndex.floating N s in
  let q := subspace_qef st l s in
  let r := region_subspace floating region in
  let sol := solveBounded q r in
  let p := nth s (sub l) nullptr in
  let v := unpack_vertex region s (fst sol) (vert (deref st p)) in
  (modify (set_vert v) p st, snd sol).

(** The projected QEFs of the subspaces selected by [sel], summed in index
    order from the zero QEF of the dimension of [s]. *)
Definition projected_sum (sel : nat → bool) (st : Store) (l : SimplexLeaf)
    (s : nat) : QEFsub :=
  fold_left qsub_add
    (map (λ r, qef_sub (NeighborIndex.floating N s)
                       (qef (deref st (nth r (sub l) nullptr))))
         (List.filter sel (seq 0 (ipow 3 N))))
    (qsub_zero (NeighborIndex.dimension N s)).

(** The sum over the subspaces [r] that [s] contains: [s] itself and the
    subspaces on its boundary. *)
Definition contained_qef_sum (st : Store) (l : SimplexLeaf) (s : nat) : QEFsub :=
  projected_sum (λ r, NeighborIndex.contains N s r) st l s.

(** The sum in the words of the specification: over the subspaces [r] of
    the cell that contain [s]. *)
Definition spec_subspace_qef (st : Store) (l : SimplexLeaf) (s : nat) : QEFsub :=
  projected_sum (λ r, NeighborIndex.contains N r s) st l s.

(** The error of the solve for [s] with the QEFs of the heap [st], or zero
    for a subspace that is already solved. *)
Definition subspace_error (st : Store) (l : SimplexLeaf)
    (already_solved : list bool) (region : Region) (s : nat) : double :=
  if nth s already_solved false then dzero
  else snd (solveBounded (contained_qef_sum st l s)
                         (region_subspace (NeighborIndex.floating N s) region)).

(** [Unroller k] stands for [Unroller<N, k - 1>]: [Unroller 0] is the
    terminating specialisation at [-1]. *)
Fixpoint Unroller (k : nat) (l : SimplexLeaf) (already_solved : list bool)
    (region : Region) (st : Store) : Store * double :=
  match k with
  | O => (st, dzero)
  | S s =>
      let '(st1, error) :=
        if negb (nth s already_solved false)
        then solve_subspace st l region s
        else (st, dzero) in
      let '(st2, rest) := Unroller s l already_solved region st1 in
      (st2, dmax error rest)
  end.

(** ** [SimplexTree<N>::saveVertexSigns] *)

Definition vertex_sign_step (tp : Tape) (region : Region) (l : SimplexLeaf)
    (already_solved : list bool) (w : World) (i : nat) : World :=
  if nth i already_solved false then w
  else
    let s := nth i (sub l) nullptr in
    let p := region_point3f region (vert (deref (store w) s)) in
    let w1 := array_set p 0 w in
    let out := array_values tp (slots w1 0) in
    let inside_ :=
      if float_is_zero out then feature_isInside tp p
      else float_is_negative out in
    with_store (modify (set_inside inside_) s (store w1)) w1.

Definition saveVertexSigns (l : SimplexLeaf) (tp : Tape) (region : Region)
    (already_solved : list bool) (w : World) : World :=
  fold_left (vertex_sign_step tp region l already_solved)
            (seq 0 (ipow 3 N)) w.

(** ** Levels *)

(** [SimplexTree<N>::level]; with assertions compiled out the UNKNOWN case
    falls through to [return 0]. *)
Definition tree_level (t : SimplexTree) : Z :=
  match type t with
  | AMBIGUOUS => match leaf t with Some l => level l | None => 0 end
  | _ => 0
  end.

Definition set_level (n : Z) (l : SimplexLeaf) : SimplexLeaf :=
  {| level := n; tape := tape l; sub := sub l |}.
Definition set_tape (tp : option Tape) (l : SimplexLeaf) : SimplexLeaf :=
  {| level := level l; tape := tp; sub := sub l |}.
Definition set_sub (i : nat) (p : ptr) (l : SimplexLeaf) : SimplexLeaf :=
  {| level := level l; tape := tape l; sub := <[i := p]> (sub l) |}.

(** ** The QEF aggregation of [collectChildren] *)

(** The inner loop body for child [i] (with leaf [cl]) and subspace [j]. *)
Definition aggregate_step (l cl : SimplexLeaf) (i : nat) (st : Store)
    (j : nat) : Store :=
  if negb (contribution_valid N i j) then st
  else
    let target := contribution_target N i j in
    let q := qef (deref st (nth j (sub cl) nullptr)) in
    modify (λ r, set_qef (qef_add (qef r) q) r)
           (nth target (sub l) nullptr) st.

(** The outer loop body for child [i].  A child that is AMBIGUOUS without
    a leaf trips the source's assertion; it contributes nothing here. *)
Definition aggregate_child (cs : list SimplexTree) (l : SimplexLeaf)
    (st : Store) (i : nat) : Store :=
  match cs !! i with
  | Some c =>
      if negb (Interval_eqb (type c) AMBIGUOUS) then st
      else match leaf c with
           | Some cl => fold_left (aggregate_step l cl i) (seq 0 (ipow 3 N)) st
           | None => st
           end
  | None => st
  end.

Definition aggregate (cs : list SimplexTree) (l : SimplexLeaf) (st : Store)
    : Store :=
  fold_left (aggregate_child cs l) (seq 0 (ipow 2 N)) st.

(** The same loop nest read as the list of [+=] it executes, in order:
    [(target, i, j)] adds the QEF of subspace [j] of child [i] to the
    parent's subspace [target]. *)
Definition contributions (cs : list SimplexTree) : list (nat * nat * nat) :=
  flat_map
    (λ i, match cs !! i with
          | Some c =>
              if negb (Interval_eqb (type c) AMBIGUOUS) then []
              else match leaf c with
                   | Some _ =>
                       flat_map
                         (λ j, if negb (contribution_valid N i j) then []
                               else [(contribution_target N i j, i, j)])
                         (seq 0 (ipow 3 N))
                   | None => []
                   end
          | None => []
          end)
    (seq 0 (ipow 2 N)).

(** One [this->leaf->sub[target]->qef += cs[i]->leaf->sub[j]->qef]. *)
Definition add_contribution (cs : list SimplexTree) (l : SimplexLeaf)
    (st : Store) (c : nat * nat * nat) : Store :=
  let '(target, i, j) := c in
  match cs !! i ≫= leaf with
  | Some cl =>
      modify (λ r, set_qef (qef_add (qef r)
                              (qef (deref st (nth j (sub cl) nullptr)))) r)
             (nth target (sub l) nullptr) st
  | None => st
  end.

(** ** [SimplexTree<N>::collectChildren] *)

(** The loop [for (auto& s : this->leaf->sub) get(&s)]. *)
Definition grab_step (acc : SimplexLeaf * World) (i : nat) : SimplexLeaf * World :=
  let '(l, w) := acc in
  let '(p, w1) := get_sub w in
  (set_sub i p l, w1).

Definition collectChildren (t : SimplexTree) (tp : Tape) (max_err : double)
    (region : Region) (w : World) : bool * SimplexTree * World :=
  let p := pending t in
  let t0 := set_pending (p - 1) t in
  if nz p then (false, t0, w)
  else
    let cs := children t0 in
    if existsb isBranch cs then (true, done t0, w)
    else
      let all_empty := forallb (λ c, Interval_eqb (type c) EMPTY) cs in
      let all_full := forallb (λ c, Interval_eqb (type c) FILLED) cs in
      let t1 :=
        set_type (if all_empty then EMPTY
                  else if all_full then FILLED else AMBIGUOUS) t0 in
      if Interval_eqb (type t1) FILLED || Interval_eqb (type t1) EMPTY
      then
        let '(t2, w1) := releaseChildren t1 w in
        (true, done t2, w1)
      else
        let '(l, w1) :=
          fold_left grab_step (seq 0 (ipow 3 N)) (leaf_reset, w) in
        let t2 := set_leaf (Some l) t1 in
        let st2 := aggregate cs l (store w1) in
        let already_solved := replicate (ipow 3 N) false in
        let '(st3, err) :=
          Unroller (ipow 3 N) l already_solved region st2 in
        let w3 := with_store st3 w1 in
        if dlt err max_err && false
        then
          let lv :=
            u32 (fold_left (λ a b, Z.max a (tree_level b)) cs 0%Z + 1) in
          let l' := set_level lv l in
          let w4 := saveVertexSigns l' tp region already_solved w3 in
          let '(t3, w5) := releaseChildren (set_leaf (Some l') t2) w4 in
          (true, done t3, w5)
        else
          (true, done (set_leaf None t2), put_leaf w3).

(** The loop over [this->children]: [body i c] is the loop body for the
    child [c] at position [i]. *)
Definition children_loop {A : Type} (body : nat → SimplexTree → A → A)
    : list SimplexTree → nat → A → A :=
  fix loop (rest : list SimplexTree) (i : nat) (acc : A) {struct rest} : A :=
    match rest with
    | [] => acc
    | c :: rest' => loop rest' (S i) (body i c acc)
    end.

(** ** Neighbor lookups

    [SimplexNeighbors<N>] is declared outside the sources at hand; the
    tree code uses [check], [getIndex] and [push] only.  [getIndex] reads
    the indices that are in the heap when it is called. *)
Section WithNeighbors.

Variable Neighbors : Type.
Variable neighbors_check : Neighbors → nat → option (SimplexLeaf * nat).
Variable neighbors_getIndex : Neighbors → Store → nat → Z.
Variable neighbors_push : Neighbors → nat → list SimplexTree → Neighbors.

(** *** [SimplexTree<N>::evalLeaf] *)

(** The loop that borrows subspaces from the neighbors; the state is the
    leaf, [already_solved] and the world. *)
Definition borrow_step (neighbors : Neighbors)
    (acc : SimplexLeaf * list bool * World) (i : nat)
    : SimplexLeaf * list bool * World :=
  let '(l, solved, w) := acc in
  let '(l1, solved1, w1) :=
    match neighbors_check neighbors i with
    | Some (nl, ni) =>
        (set_sub i (nth ni (sub nl) nullptr) l, <[i := true]> solved, w)
    | None =>
        let '(p, w') := get_sub w in (set_sub i p l, solved, w')
    end in
  let s := nth i (sub l1) nullptr in
  (l1, solved1,
   with_store
     (modify (λ r, set_refcount (u32 (refcount r + 1)) r) s (store w1)) w1).

(** The loop that packs the corners to evaluate; the state is [count],
    [corner_indices] and the world. *)
Definition pack_step (region : Region) (solved : list bool)
    (acc : nat * list nat * World) (i : nat) : nat * list nat * World :=
  let '(count, corner_indices, w) := acc in
  let sub_ := CornerIndex.neighbor N i in
  if negb (nth sub_ solved false)
  then (S count, <[count := i]> corner_indices,
        array_set (region_corner3f region i) count w)
  else acc.

(** The [push] helper: one position, value and normal into the QEF of
    the record at [s]. *)
Definition push_normal (region : Region) (corner : nat) (value : float)
    (s : ptr) (st : Store) (d : Vec3f) : Store :=
  let d_ := head_cast N d in
  let d_ := if negb (all_finite d_) then replicate N dzero else d_ in
  modify (λ r, set_qef (qef_insert (qef r) (region_corner region corner)
                                   d_ value) r) s st.

(** The loop that unpacks the evaluated corners.  [ds] and [ambig] are
    the evaluator's results for the packed slots, read per slot. *)
Definition sample_step (tp : Tape) (region : Region) (l : SimplexLeaf)
    (corner_indices : list nat) (w : World) (i : nat) : World :=
  let c := nth i corner_indices 0 in
  let sub_ := CornerIndex.neighbor N c in
  let s := nth sub_ (sub l) nullptr in
  let ds := array_derivs tp (slots w i) in
  let push := push_normal region c (snd ds) s in
  if array_ambiguous tp (slots w i)
  then with_store
         (fold_left push (feature_features tp (region_corner3f region c))
                    (store w)) w
  else with_store (push (store w) (fst ds)) w.

(** [evalLeaf] up to and including [saveVertexSigns]: the leaf, the
    [already_solved] array and the world at that point. *)
Definition evalLeaf_solve (neighbors : Neighbors) (region : Region)
    (tp : Tape) (w : World) : SimplexLeaf * list bool * World :=
  let l0 := set_level 0 (set_tape (Some tp) leaf_reset) in
  let '(l, already_solved, w1) :=
    fold_left (borrow_step neighbors) (seq 0 (ipow 3 N))
              (l0, replicate (ipow 3 N) false, w) in
  let '(count, corner_indices, w2) :=
    fold_left (pack_step region already_solved) (seq 0 (ipow 2 N))
              (0, replicate (ipow 2 N) 0, w1) in
  let w3 :=
    fold_left (sample_step tp region l corner_indices) (seq 0 count) w2 in
  let st4 :=
    fst (Unroller (ipow 3 N) l already_solved region (store w3)) in
  let w5 := saveVertexSigns l tp region already_solved (with_store st4 w3) in
  (l, already_solved, w5).

(** The two flags computed by the loop over the subspace vertices. *)
Definition inside_flags (st : Store) (l : SimplexLeaf) : bool * bool :=
  fold_left
    (λ '(all_inside, all_outside) i,
       let ins := inside (deref st (nth i (sub l) nullptr)) in
       (all_inside && ins, all_outside && negb ins))
    (seq 0 (ipow 3 N)) (true, true).

Definition evalLeaf (t : SimplexTree) (neighbors : Neighbors)
    (region : Region) (tp : Tape) (w : World) : SimplexTree * World :=
  let '(l, already_solved, w5) := evalLeaf_solve neighbors region tp w in
  let t1 := set_leaf (Some l) t in
  let '(all_inside, all_outside) := inside_flags (store w5) l in
  let t2 :=
    if all_inside then set_type FILLED t1
    else if all_outside then set_type EMPTY t1
    else set_type AMBIGUOUS t1 in
  let '(t3, w6) :=
    if negb (Interval_eqb (type t2) AMBIGUOUS)
    then (set_leaf None t2, leaf_releaseTo l w5)
    else (t2, w5) in
  (done t3, w6).

(** *** [SimplexTree<N>::assignIndices] *)

(** One round of the loop over the subspaces of a leaf; the state is the
    counter [index] and the heap. *)
Definition assign_slot (neighbors : Neighbors) (l : SimplexLeaf)
    (acc : Z * Store) (i : nat) : Z * Store :=
  let '(index_, st) := acc in
  let n := neighbors_getIndex neighbors st i in
  let s := nth i (sub l) nullptr in
  if nz n then (index_, modify (set_index n) s st)
  else (u64 (index_ + 1), modify (set_index index_) s st).

Fixpoint assignIndices_walk (t : SimplexTree) (neighbors : Neighbors)
    (acc : Z * Store) {struct t} : Z * Store :=
  match t with
  | mkTree _ lf cs _ _ =>
      match cs with
      | _ :: _ =>
          children_loop
            (λ i c acc,
               let new_neighbors := neighbors_push neighbors i cs in
               assignIndices_walk c new_neighbors acc)
            cs 0 acc
      | [] =>
          match lf with
          | Some l => fold_left (assign_slot neighbors l) (seq 0 (ipow 3 N)) acc
          | None => acc
          end
      end
  end.

(** The entry point: the counter starts at 1, the neighbors are empty.
    Returns the final counter with the heap. *)
Definition assignIndices (empty : Neighbors) (t : SimplexTree) (st : Store)
    : Z * Store :=
  assignIndices_walk t empty (1%Z, st).

(** The same traversal with any action [f] at the leaves. *)
Fixpoint visit {A : Type} (f : Neighbors → SimplexLeaf → A → A)
    (t : SimplexTree) (neighbors : Neighbors) (acc : A) {struct t} : A :=
  match t with
  | mkTree _ lf cs _ _ =>
      match cs with
      | _ :: _ =>
          children_loop
            (λ i c acc, visit f c (neighbors_push neighbors i cs) acc)
            cs 0 acc
      | [] =>
          match lf with
          | Some l => f neighbors l acc
          | None => acc
          end
      end
  end.

(** The leaves that the traversal reaches, in order, each with the
    neighbors it is reached with. *)
Definition visited (t : SimplexTree) (neighbors : Neighbors)
    : list (Neighbors * SimplexLeaf) :=
  visit (λ nb l acc, acc ++ [(nb, l)]) t neighbors [].

(** [assign_slot] with a record of the values handed out by [index++]. *)
Definition assign_slot_traced (neighbors : Neighbors) (l : SimplexLeaf)
    (acc : Z * Store * list Z) (i : nat) : Z * Store * list Z :=
  let '(index_, st, fresh) := acc in
  let n := neighbors_getIndex neighbors st i in
  let s := nth i (sub l) nullptr in
  if nz n then (index_, modify (set_index n) s st, fresh)
  else (u64 (index_ + 1), modify (set_index index_) s st, fresh ++ [index_]).

(** [assignIndices] with that record: the final counter, the heap and the
    fresh indices in the order they were handed out. *)
Definition assignIndices_traced (empty : Neighbors) (t : SimplexTree)
    (st : Store) : Z * Store * list Z :=
  visit (λ nb l acc,
           fold_left (assign_slot_traced nb l) (seq 0 (ipow 3 N)) acc)
        t empty (1%Z, st, []).

End WithNeighbors.

End SimplexTree.

Arguments borrow_step {P} N {Neighbors}.
Arguments evalLeaf_solve {P} N {Neighbors}.
Arguments evalLeaf {P} N {Neighbors}.
Arguments assign_slot {P} N {Neighbors}.
Arguments assignIndices_walk {P} N {Neighbors}.
Arguments assignIndices {P} N {Neighbors}.
Arguments visit {P} {Neighbors} neighbors_push {A}.
Arguments visited {P} {Neighbors}.
Arguments assign_slot_traced {P} N {Neighbors}.
Arguments assignIndices_traced {P} N {Neighbors}.

(** ** A small instance of the primitives

    Integers stand for the floating-point numbers and for points; a QEF is
    the list of the values inserted into it, so that a sum of QEFs shows
    which QEFs were added and in which order.  Used to run the definitions
    on concrete trees. *)
Module Sample.

Definition sum (l : list Z) : Z := fold_right Z.add 0%Z l.

#[export] Instance prims : Primitives := {|
  double := Z;
  float := Z;
  Vec3f := Z;
  QEF := list Z;
  QEFsub := list Z;
  Region := Z;
  RegionSub := Z;
  Tape := unit;
  IntervalResult := Z;
  dzero := 0%Z;
  dmax := Z.max;
  dlt := Z.ltb;
  qef_zero := [];
  qef_add := λ a b, a ++ b;
  qef_insert := λ q _ _ v, q ++ [v];
  qsub_zero := λ _, [];
  qsub_add := λ a b, a ++ b;
  qef_sub := λ _ q, q;
  solveBounded := λ q r, (map (Z.add r) q, Z.of_nat (length q));
  region_subspace := λ _ r, r;
  region_upper := λ r _, (r + 1)%Z;
  region_lower := λ r _, r;
  region_corner := λ r i, [(r + Z.of_nat i)%Z];
  region_corner3f := λ r i, (r + Z.of_nat i)%Z;
  region_point3f := λ r v, (sum v - r)%Z;
  head_cast := λ n d, replicate n d;
  all_finite := λ _, true;
  evalAndPush := λ r tp, (r, tp);
  interval_state :=
    λ o, if (o <? 0)%Z then FILLED else if (0 <? o)%Z then EMPTY else AMBIGUOUS;
  isSafe := λ r _, (Z.abs r <? 1000)%Z;
  array_derivs := λ _ p, (p, p);
  array_ambiguous := λ _ p, (p =? 0)%Z;
  array_values := λ _ p, p;
  feature_features := λ _ p, [p; (p + 1)%Z];
  feature_isInside := λ _ p, true;
  float_is_zero := λ x, (x =? 0)%Z;
  float_is_negative := λ x, (x <? 0)%Z;
|}.

(** A region. *)
Definition region : Region := 7%Z.

(** A subspace record whose QEF holds the single value [q]. *)
Definition record (q : Z) : SimplexLeafSubspace :=
  {| inside := false; index := 0; vert := [0%Z; 0%Z]; qef := [q];
     refcount := 1 |}.

(** A heap with records at the addresses [1 .. n], the record at address
    [a] holding the QEF [[a]]. *)
Definition heap (n : nat) : Store :=
  list_to_map (map (λ a, (a, record (Z.of_nat a))) (seq 1 n)).

(** A leaf node of the given type over the addresses [first .. first + 8]
    (nine subspaces, [N = 2]). *)
Definition leaf_at (first : nat) : SimplexLeaf :=
  {| level := 0; tape := Some tt; sub := seq first 9 |}.

Definition ambiguous_leaf (first : nat) : SimplexTree :=
  {| type := AMBIGUOUS; leaf := Some (leaf_at first); children := [];
     pending := 3; done_signals := 1 |}.

Definition plain (ty : Interval) : SimplexTree :=
  {| type := ty; leaf := None; children := [];
     pending := 3; done_signals := 1 |}.

(** A branch in two dimensions whose children 0 and 1 are AMBIGUOUS leaves
    and whose children 2 and 3 are EMPTY and FILLED. *)
Definition kids : list SimplexTree :=
  [ambiguous_leaf 1; ambiguous_leaf 10; plain EMPTY; plain FILLED].

Definition branch (pending_ : Z) : SimplexTree :=
  {| type := AMBIGUOUS; leaf := None; children := kids;
     pending := pending_; done_signals := 0 |}.

Definition world : World :=
  {| store := heap 18;
     pool := {| free_subs := []; next_sub := 19; leaves_returned := 0;
                trees_returned := 0 |};
     slots := λ _, 0%Z |}.

(** The parent leaf that [collectChildren] grabs in [world]. *)
Definition parent_leaf : SimplexLeaf :=
  {| level := 0; tape := None; sub := seq 19 9 |}.

End Sample.

(** ** Reading the aggregation as sums *)

Section ContributionSums.

Context `{P : Primitives}.
Variable N : nat.

(** The QEF that the contribution [(target, i, j)] adds, read in [st]. *)
Definition contribution_qef (cs : list SimplexTree) (st : Store)
    (c : nat * nat * nat) : QEF :=
  match cs !! (snd (fst c)) ≫= leaf with
  | Some cl => qef (deref N st (nth (snd c) (sub cl) nullptr))
  | None => qef_zero
  end.

(** The contributions of the list [L] that go to the parent subspace [t]. *)
Definition contributions_to (t : nat) (L : list (nat * nat * nat))
    : list (nat * nat * nat) :=
  List.filter (λ c, fst (fst c) =? t) L.

End ContributionSums.

(** ** Neighbor tables *)

Module SimplexNeighbors.
Section Model.

Context `{P : Primitives}.
Variable N : nat.

(** Modelled from the spec: [SimplexNeighbors<N>], declared outside the
    sources at hand, is an array of [3^N] pointers to the already
    constructed neighbor cells of matching size, one per direction.  A
    direction is read like a neighbor index: LOW or HIGH on an axis is the
    neighbor across that face, FLOATING stays in place; the all-floating
    direction is the cell itself and holds no neighbor. *)
Definition t : Type := list (option SimplexTree).

(** Modelled from the spec: the default-constructed neighbors, all absent. *)
Definition empty : t := replicate (ipow 3 N) None.

(** The index with digit [f d] on axis [d]. *)
Definition of_digits (f : nat → nat) : nat :=
  fold_right (λ d acc, acc + f d * 3 ^ d) 0 (seq 0 N).

(** The corner with bit [f d] on axis [d]. *)
Definition of_bits (f : nat → bool) : nat :=
  fold_right (λ d acc, acc + (if f d then 1 else 0) * 2 ^ d) 0 (seq 0 N).

(** The direction that stays in place on every axis. *)
Definition all_floating : nat := of_digits (λ _, 1).

(** Modelled from the spec: going from child [c] in direction [n] crosses
    the parent's face on axis [d] when [n] points to the side of the axis
    that [c] lies on. *)
Definition crosses (c n d : nat) : bool :=
  negb (NeighborIndex.axis_floating n d)
  && eqb (NeighborIndex.axis_high n d) (CornerIndex.axis_high c d).

(** Modelled from the spec: the direction, seen from the parent, of the
    cell that holds the neighbor of child [c] in direction [n]: the
    parent's neighbor on the axes where the parent's face is crossed, the
    parent itself on the others. *)
Definition push_direction (c n : nat) : nat :=
  of_digits (λ d, if crosses c n d then NeighborIndex.digit n d else 1).

(** Modelled from the spec: the position, in that cell, of the neighbor of
    child [c] in direction [n]: the other side on every axis along which
    [n] moves. *)
Definition push_child (c n : nat) : nat :=
  of_bits (λ d, if NeighborIndex.axis_floating n d
                then CornerIndex.axis_high c d
                else negb (CornerIndex.axis_high c d)).

(** Modelled from the spec: [push(child_index, parent_children)] produces
    the neighbor array for a child by composing the neighbors of the
    parent at fixed axes and the sibling children for floating axes. *)
Definition push (neighbors : t) (c : nat) (cs : list SimplexTree) : t :=
  map (λ n,
         if n =? all_floating then None
         else if push_direction c n =? all_floating
              then cs !! push_child c n
              else mjoin (neighbors !! push_direction c n)
                     ≫= λ nb, children nb !! push_child c n)
      (seq 0 (ipow 3 N)).

(** Modelled from the spec: the neighbor in direction [n] touches subspace
    [i] of this cell when [i] lies on the face of every axis along which
    [n] moves. *)
Definition shares (i n : nat) : bool :=
  negb (n =? all_floating)
  && forallb (λ d, NeighborIndex.axis_floating n d
                   || (NeighborIndex.digit i d =? NeighborIndex.digit n d))
             (seq 0 N).

(** Modelled from the spec: the index under which the neighbor in direction
    [n] holds subspace [i] of this cell. *)
Definition mirror (i n : nat) : nat :=
  of_digits (λ d, if NeighborIndex.axis_floating n d
                  then NeighborIndex.digit i d
                  else 2 - NeighborIndex.digit i d).

(** The leaf of the neighbor in direction [n], when that neighbor exists,
    has a leaf and touches subspace [i]. *)
Definition sharing_leaf (neighbors : t) (i n : nat) : option SimplexLeaf :=
  if shares i n then mjoin (neighbors !! n) ≫= leaf else None.

(** Modelled from the spec: [check(subspace_index)] returns the neighbor
    leaf and the subspace index in that neighbor when the subspace is
    owned by a previously built neighbor of equal size. *)
Definition check (neighbors : t) (i : nat) : option (SimplexLeaf * nat) :=
  fold_left
    (λ acc n,
       match acc with
       | Some _ => acc
       | None => (λ l, (l, mirror i n)) <$> sharing_leaf neighbors i n
       end)
    (seq 0 (ipow 3 N)) None.

(** Modelled from the spec: [getIndex(subspace)] returns the index already
    assigned to a shared subspace, if any, and 0 otherwise. *)
Definition getIndex (neighbors : t) (st : Store) (i : nat) : Z :=
  fold_left
    (λ acc n,
       if nz acc then acc
       else match sharing_leaf neighbors i n with
            | Some l => index (deref N st (nth (mirror i n) (sub l) nullptr))
            | None => 0%Z
            end)
    (seq 0 (ipow 3 N)) 0%Z.

End Model.
End SimplexNeighbors.

Module SampleNeighbors.

(** The neighbors of child 1 of [Sample.kids] under an empty root
    neighborhood: its low-x face touches child 0. *)
Definition of_child_1 : SimplexNeighbors.t :=
  SimplexNeighbors.push 2 (SimplexNeighbors.empty 2) 1 Sample.kids.

End SampleNeighbors.

(** ** Nodes of a tree *)

(** [descendant t u]: the node [u] is [t] or lies below it. *)
Inductive descendant `{P : Primitives} : SimplexTree → SimplexTree → Prop :=
| descendant_self (t : SimplexTree) : descendant t t
| descendant_child (t c u : SimplexTree) :
    In c (children t) → descendant c u → descendant t u.

(** ** A tree built by the functions above

    A root in two dimensions is split once.  Child 0 is evaluated as a leaf,
    then child 1, which borrows the three subspaces of its low-x face from
    child 0; the interval evaluation finds child 2 EMPTY and child 3 FILLED;
    [collectChildren] then runs on the root, which stays a branch. *)
Module SampleBuild.

(** A node as its constructor leaves it, and that node after an interval
    evaluation that could not decide. *)
Definition unbuilt : SimplexTree (P := Sample.prims) :=
  {| type := UNKNOWN; leaf := None; children := [];
     pending := 3; done_signals := 0 |}.

Definition undecided : SimplexTree (P := Sample.prims) :=
  set_type AMBIGUOUS unbuilt.

(** An empty heap and fresh pools. *)
Definition world0 : World (P := Sample.prims) :=
  {| store := ∅;
     pool := {| free_subs := []; next_sub := 1; leaves_returned := 0;
                trees_returned := 0 |};
     slots := slots Sample.world |}.

Definition leaf_region : Region (Primitives := Sample.prims) := (-1)%Z.

Definition step0 : SimplexTree * World :=
  evalLeaf 2 (SimplexNeighbors.check 2) undecided
    (SimplexNeighbors.push 2 (SimplexNeighbors.empty 2) 0
       [unbuilt; unbuilt; unbuilt; unbuilt])
    leaf_region tt world0.

Definition step1 : SimplexTree * World :=
  evalLeaf 2 (SimplexNeighbors.check 2) undecided
    (SimplexNeighbors.push 2 (SimplexNeighbors.empty 2) 1
       [fst step0; unbuilt; unbuilt; unbuilt])
    leaf_region tt (snd step0).

Definition child2 : SimplexTree := fst (evalInterval unbuilt 5%Z tt).
Definition child3 : SimplexTree := fst (evalInterval unbuilt (-5)%Z tt).

Definition root : bool * SimplexTree * World :=
  collectChildren 2
    {| type := AMBIGUOUS; leaf := None;
       children := [fst step0; fst step1; child2; child3];
       pending := 0; done_signals := 0 |}
    tt 0%Z 0%Z (snd step1).

(** The finished tree and its heap. *)
Definition tree : SimplexTree := snd (fst root).
Definition heap : Store := store (snd root).

End SampleBuild.

Module SampleIndices.

(** [assignIndices] with the neighbor tables of [SimplexNeighbors], in two
    dimensions. *)
Definition assign (t : SimplexTree (P := Sample.prims)) (st : Store)
    : Z * Store :=
  assignIndices 2 (SimplexNeighbors.getIndex 2) (SimplexNeighbors.push 2)
                (SimplexNeighbors.empty 2) t st.

(** The heap after one call and after two calls on the built tree. *)
Definition once : Store := snd (assign SampleBuild.tree SampleBuild.heap).
Definition twice : Store := snd (assign SampleBuild.tree once).

End SampleIndices.

(** ** Further members of [SimplexTree<N>] *)

(** [SimplexTree<N>::leafLevel].  [invalid] stands for [LEAF_LEVEL_INVALID],
    a constant declared outside the sources at hand; with assertions compiled
    out the UNKNOWN case falls through to the FILLED and EMPTY case. *)
Definition leafLevel `{P : Primitives} (invalid : Z) (t : SimplexTree) : Z :=
  match type t with
  | AMBIGUOUS => match leaf t with Some l => level l | None => 0%Z end
  | _ => invalid
  end.

(** [SimplexTree<N>::empty]: [fresh] is the node as the default constructor
    of [XTree], which is outside the sources at hand, leaves it. *)
Definition tree_empty `{P : Primitives} (fresh : SimplexTree) : SimplexTree :=
  set_type EMPTY fresh.

(** ** The subspace visits of [assignIndices] *)

Section SlotVisits.

Context `{P : Primitives}.
Variable N : nat.
Variable Neighbors : Type.

(** The rounds of the inner loop of [assignIndices] over the leaves [V], in
    order: the leaf, the neighbors it is reached with, and the subspace. *)
Definition slot_visits (V : list (Neighbors * SimplexLeaf))
    : list (Neighbors * SimplexLeaf * nat) :=
  flat_map (λ x, map (λ i, (x, i)) (seq 0 (ipow 3 N))) V.

(** The record [leaf->sub[i]] that a round writes. *)
Definition visit_record (y : Neighbors * SimplexLeaf * nat) : ptr :=
  nth (snd y) (sub (snd (fst y))) nullptr.

End SlotVisits.

Arguments slot_visits {P} N {Neighbors}.
Arguments visit_record {P} {Neighbors}.

(** ** Shared records seen through the neighbor tables *)

Section SharedRecords.

Context `{P : Primitives}.
Variable N : nat.

(** Every neighbor that touches subspace [i] holds the record [p] for it. *)
Definition shares_only (neighbors : SimplexNeighbors.t) (i : nat) (p : ptr)
    : bool :=
  forallb
    (λ n, match SimplexNeighbors.sharing_leaf N neighbors i n with
          | Some l => nth (SimplexNeighbors.mirror N i n) (sub l) nullptr =? p
          | None => true
          end)
    (seq 0 (ipow 3 N)).

(** Some neighbor that touches subspace [i] holds the record [p] for it. *)
Definition shares_record (neighbors : SimplexNeighbors.t) (i : nat) (p : ptr)
    : bool :=
  existsb
    (λ n, match SimplexNeighbors.sharing_leaf N neighbors i n with
          | Some l => nth (SimplexNeighbors.mirror N i n) (sub l) nullptr =? p
          | None => false
          end)
    (seq 0 (ipow 3 N)).

(** The two checks over a list of visits: the neighbors of a visit hold
    its record and no other for its subspace, and a record that an earlier
    visit wrote is held by a neighbor. *)
Definition sharing_consistent
    (Y : list (SimplexNeighbors.t * SimplexLeaf * nat)) : bool :=
  forallb (λ y, shares_only (fst (fst y)) (snd y) (visit_record y)) Y.

Definition sharing_complete
    (Y : list (SimplexNeighbors.t * SimplexLeaf * nat)) : bool :=
  forallb
    (λ k, match Y !! k with
          | Some y =>
              if existsb (Nat.eqb (visit_record y))
                         (map visit_record (take k Y))
              then shares_record (fst (fst y)) (snd y) (visit_record y)
              else true
          | None => true
          end)
    (seq 0 (length Y)).

End SharedRecords.

(** * Properties *)

Lemma Interval_eqb_true (a b : Interval) : Interval_eqb a b = true ↔ a = b.
Proof. destruct a, b; simpl; split; intros H; congruence. Qed.

Lemma Interval_eqb_false (a b : Interval) : a ≠ b → Interval_eqb a b = false.
Proof. destruct a, b; simpl; intros H; congruence. Qed.

(** ** Bit masks *)

Lemma land_bit (x : Z) (d : nat) :
  Z.land x (bit d) = if Z.testbit x (Z.of_nat d) then bit d else 0%Z.
Proof.
  unfold bit. rewrite Z.shiftl_1_l.
  apply Z.bits_inj'. intros n Hn.
  rewrite Z.land_spec, Z.pow2_bits_eqb by lia.
  destruct (Z.eqb_spec (Z.of_nat d) n) as [<-|Hne].
  - destruct (Z.testbit x (Z.of_nat d)).
    + rewrite Z.pow2_bits_eqb, Z.eqb_refl by lia. reflexivity.
    + rewrite Z.bits_0. reflexivity.
  - rewrite andb_false_r.
    destruct (Z.testbit x (Z.of_nat d)).
    + rewrite Z.pow2_bits_eqb by lia.
      symmetry. apply Z.eqb_neq. exact Hne.
    + rewrite Z.bits_0. reflexivity.
Qed.

Lemma bit_pos (d : nat) : (0 < bit d)%Z.
Proof. unfold bit. rewrite Z.shiftl_1_l. apply Z.pow_pos_nonneg; lia. Qed.

Lemma nz_land_bit (x : Z) (d : nat) :
  nz (Z.land x (bit d)) = Z.testbit x (Z.of_nat d).
Proof.
  rewrite land_bit. unfold nz.
  destruct (Z.testbit x (Z.of_nat d)); [|reflexivity].
  pose proof (bit_pos d). destruct (Z.eqb_spec (bit d) 0); [lia|reflexivity].
Qed.

Lemma testbit_bit (k d : nat) :
  Z.testbit (bit k) (Z.of_nat d) = bool_decide (k = d).
Proof.
  unfold bit. rewrite Z.shiftl_1_l, Z.pow2_bits_eqb by lia.
  destruct (Z.eqb_spec (Z.of_nat k) (Z.of_nat d)); case_bool_decide; auto; lia.
Qed.

Lemma testbit_mask (n : nat) (p : nat → bool) (d : nat) :
  Z.testbit (NeighborIndex.mask n p) (Z.of_nat d) = bool_decide (d < n) && p d.
Proof.
  induction n as [|n IH]; cbn [NeighborIndex.mask].
  - rewrite Z.bits_0, bool_decide_eq_false_2 by lia. reflexivity.
  - rewrite Z.lor_spec, IH.
    destruct (decide (d = n)) as [->|Hne].
    + rewrite (bool_decide_eq_false_2 (n < n)), (bool_decide_eq_true_2 (n < S n)) by lia.
      destruct (p n); [|rewrite Z.bits_0; reflexivity].
      rewrite testbit_bit, bool_decide_eq_true_2 by reflexivity. reflexivity.
    + assert (Hb : Z.testbit (if p n then bit n else 0%Z) (Z.of_nat d) = false).
      { destruct (p n); [|apply Z.bits_0].
        rewrite testbit_bit. apply bool_decide_eq_false_2. congruence. }
      rewrite Hb, orb_false_r.
      destruct (decide (d < n)).
      * rewrite !bool_decide_eq_true_2 by lia. reflexivity.
      * rewrite !bool_decide_eq_false_2 by lia. reflexivity.
Qed.

Lemma testbit_floating (N j d : nat) :
  d < N →
  Z.testbit (NeighborIndex.floating N j) (Z.of_nat d) = NeighborIndex.axis_floating j d.
Proof.
  intros H. unfold NeighborIndex.floating. rewrite testbit_mask.
  case_bool_decide; [reflexivity|lia].
Qed.

Lemma testbit_pos (N j d : nat) :
  d < N →
  Z.testbit (NeighborIndex.pos N j) (Z.of_nat d) = NeighborIndex.axis_high j d.
Proof.
  intros H. unfold NeighborIndex.pos. rewrite testbit_mask.
  case_bool_decide; [reflexivity|lia].
Qed.

Lemma testbit_fixed (N j d : nat) :
  d < N →
  Z.testbit (NeighborIndex.fixed N j) (Z.of_nat d)
  = negb (NeighborIndex.axis_floating j d).
Proof.
  intros H. unfold NeighborIndex.fixed.
  rewrite Z.land_spec, Z.lnot_spec, Z.testbit_ones_nonneg by lia.
  rewrite testbit_floating by exact H.
  replace (Z.of_nat d <? Z.of_nat N)%Z with true by (symmetry; apply Z.ltb_lt; lia).
  apply andb_true_r.
Qed.

(** ** The acceptance test of [collectChildren] *)

Lemma fold_valid_step (fixed pos child : Z) (l : list nat) (b : bool) :
  fold_left (valid_step fixed pos child) l b = true ↔
  b = true ∧
  ∀ d, In d l → Z.testbit fixed (Z.of_nat d) = true →
       Z.testbit pos (Z.of_nat d) = true ∨ Z.testbit child (Z.of_nat d) = true.
Proof.
  revert b. induction l as [|d l IH]; intros b; simpl.
  - split; [intros ->; split; [reflexivity|intros ? []]|intros [-> _]; reflexivity].
  - rewrite IH. unfold valid_step. rewrite !nz_land_bit.
    destruct (Z.testbit fixed (Z.of_nat d)) eqn:Hf.
    + rewrite andb_true_iff, orb_true_iff. split.
      * intros [[-> Hd] Hl]. split; [reflexivity|].
        intros d' [<-|Hin] Hfd; [exact Hd|apply Hl; assumption].
      * intros [-> Hl]. split; [split; [reflexivity|]|].
        -- apply Hl; [left; reflexivity|exact Hf].
        -- intros d' Hin. apply Hl. right. exact Hin.
    + split.
      * intros [-> Hl]. split; [reflexivity|].
        intros d' [<-|Hin] Hfd; [congruence|apply Hl; assumption].
      * intros [-> Hl]. split; [reflexivity|].
        intros d' Hin. apply Hl. right. exact Hin.
Qed.

Lemma contribution_valid_iff (N i j : nat) :
  contribution_valid N i j = true ↔
  ∀ d, d < N → NeighborIndex.axis_floating j d = false →
       NeighborIndex.axis_high j d = true ∨ CornerIndex.axis_high i d = true.
Proof.
  unfold contribution_valid. rewrite fold_valid_step. split.
  - intros [_ H] d Hd Hfl.
    destruct (H d) as [Hp|Hc].
    + apply in_seq. lia.
    + rewrite testbit_fixed, Hfl by exact Hd. reflexivity.
    + left. rewrite <- (testbit_pos N) by exact Hd. exact Hp.
    + right. exact Hc.
  - intros H. split; [reflexivity|].
    intros d Hin Hfx. apply in_seq in Hin.
    assert (Hd : d < N) by lia.
    rewrite testbit_fixed in Hfx by exact Hd.
    destruct (H d Hd) as [Hp|Hc].
    + destruct (NeighborIndex.axis_floating j d); [discriminate|reflexivity].
    + left. rewrite testbit_pos by exact Hd. exact Hp.
    + right. exact Hc.
Qed.

(** ** The aggregation loop and the list of its additions *)

Lemma fold_left_flat_map_ext {A B C : Type} (f : A → B → A) (g : A → C → A)
    (h : B → list C) (l : list B) (a : A) :
  (∀ a b, In b l → f a b = fold_left g (h b) a) →
  fold_left f l a = fold_left g (flat_map h l) a.
Proof.
  revert a. induction l as [|b l IH]; intros a H; simpl; [reflexivity|].
  rewrite fold_left_app, <- H by (left; reflexivity).
  apply IH. intros a' b' Hin. apply H. right. exact Hin.
Qed.

Section AggregateFacts.

Context `{P : Primitives}.
Variable N : nat.

Lemma aggregate_contributions (cs : list SimplexTree) (l : SimplexLeaf)
    (st : Store) :
  aggregate N cs l st
  = fold_left (add_contribution N cs l) (contributions N cs) st.
Proof.
  unfold aggregate, contributions.
  apply fold_left_flat_map_ext. intros a i _.
  unfold aggregate_child.
  destruct (cs !! i) as [c|] eqn:Hc; [|reflexivity].
  destruct (negb (Interval_eqb (type c) AMBIGUOUS)); [reflexivity|].
  destruct (leaf c) as [cl|] eqn:Hl; [|reflexivity].
  apply fold_left_flat_map_ext. intros b j _.
  unfold aggregate_step.
  destruct (negb (contribution_valid N i j)); [reflexivity|].
  simpl. rewrite Hc. simpl. rewrite Hl. reflexivity.
Qed.

Lemma in_contributions (cs : list SimplexTree) (target i j : nat) :
  In (target, i, j) (contributions N cs) ↔
  i < ipow 2 N ∧ j < ipow 3 N ∧
  (∃ c cl, cs !! i = Some c ∧ type c = AMBIGUOUS ∧ leaf c = Some cl) ∧
  contribution_valid N i j = true ∧ target = contribution_target N i j.
Proof.
  unfold contributions. rewrite in_flat_map. split.
  - intros (i' & Hi' & Hin). apply in_seq in Hi'.
    destruct (cs !! i') as [c|] eqn:Hc; [|destruct Hin].
    destruct (Interval_eqb (type c) AMBIGUOUS) eqn:Hty; simpl in Hin;
      [|destruct Hin].
    destruct (leaf c) as [cl|] eqn:Hl; [|destruct Hin].
    apply in_flat_map in Hin. destruct Hin as (j' & Hj' & Hin).
    apply in_seq in Hj'.
    destruct (contribution_valid N i' j') eqn:Hv; simpl in Hin; [|destruct Hin].
    destruct Hin as [Heq|[]]. inversion Heq; subst.
    apply Interval_eqb_true in Hty.
    repeat split; try lia; eauto.
  - intros (Hi & Hj & (c & cl & Hc & Hty & Hl) & Hv & ->).
    exists i. split; [apply in_seq; lia|].
    rewrite Hc, (proj2 (Interval_eqb_true _ _) Hty). simpl. rewrite Hl.
    apply in_flat_map. exists j. split; [apply in_seq; lia|].
    rewrite Hv. simpl. left. reflexivity.
Qed.

End AggregateFacts.

(** ** Heap updates *)

Section HeapFacts.

Context `{P : Primitives}.
Variable N : nat.

Lemma deref_modify (f : SimplexLeafSubspace → SimplexLeafSubspace)
    (p q : ptr) (st : Store) :
  deref N (modify N f p st) q
  = if decide (p = q) then f (deref N st p) else deref N st q.
Proof.
  unfold modify. unfold deref at 1. unfold Store in *.
  destruct (decide (p = q)) as [->|Hne].
  - rewrite lookup_insert_eq. reflexivity.
  - rewrite lookup_insert_ne by exact Hne. reflexivity.
Qed.

Lemma deref_modify_eq f (p : ptr) (st : Store) :
  deref N (modify N f p st) p = f (deref N st p).
Proof. rewrite deref_modify. destruct (decide (p = p)); congruence. Qed.

Lemma deref_modify_ne f (p q : ptr) (st : Store) :
  p ≠ q → deref N (modify N f p st) q = deref N st q.
Proof. intros H. rewrite deref_modify. destruct (decide (p = q)); congruence. Qed.

End HeapFacts.

Lemma fromPosAndFloating_lt (N : nat) (p f : Z) :
  NeighborIndex.fromPosAndFloating N p f < 3 ^ N.
Proof.
  induction N as [|k IH]; simpl; [lia|].
  destruct (Z.testbit f (Z.of_nat k)); [|destruct (Z.testbit p (Z.of_nat k))]; lia.
Qed.

Lemma contribution_target_lt (N i j : nat) : contribution_target N i j < ipow 3 N.
Proof.
  unfold contribution_target.
  destruct (fold_left _ _ _) as [fo po]. apply fromPosAndFloating_lt.
Qed.

Lemma fold_left_ext_in {A B : Type} (f g : A → B → A) (l : list B) (a : A) :
  (∀ a b, In b l → f a b = g a b) → fold_left f l a = fold_left g l a.
Proof.
  revert a. induction l as [|b l IH]; intros a H; simpl; [reflexivity|].
  rewrite H by (left; reflexivity). apply IH.
  intros a' b' Hin. apply H. right. exact Hin.
Qed.

Section AggregateSums.

Context `{P : Primitives}.
Variable N : nat.

(** Folding a list of additions whose sources lie outside the parent's
    subspace records: records outside the parent are untouched, and each
    parent record accumulates the additions aimed at it, in order. *)
Lemma fold_add_contribution (cs : list SimplexTree) (l : SimplexLeaf)
    (L : list (nat * nat * nat)) (st : Store) :
  NoDup (sub l) →
  (∀ target i j, In (target, i, j) L →
     target < length (sub l) ∧
     ∃ cl, cs !! i ≫= leaf = Some cl ∧ nth j (sub cl) nullptr ∉ sub l) →
  (∀ p, p ∉ sub l →
     deref N (fold_left (add_contribution N cs l) L st) p = deref N st p) ∧
  (∀ t, t < length (sub l) →
     qef (deref N (fold_left (add_contribution N cs l) L st)
                (nth t (sub l) nullptr))
     = fold_left qef_add (map (contribution_qef N cs st) (contributions_to t L))
                 (qef (deref N st (nth t (sub l) nullptr)))).
Proof.
  intros Hnd. revert st. induction L as [|[[target i] j] L IH]; intros st HL.
  - simpl. split; reflexivity.
  - assert (HL' : ∀ target i j, In (target, i, j) L →
       target < length (sub l) ∧
       ∃ cl, cs !! i ≫= leaf = Some cl ∧ nth j (sub cl) nullptr ∉ sub l).
    { intros. apply HL. right. assumption. }
    destruct (HL target i j) as [Htl (cl & Hcl & Hsrc)]; [left; reflexivity|].
    destruct (lookup_lt_is_Some_2 _ _ Htl) as [pt Hpt].
    assert (Hnth : nth target (sub l) nullptr = pt)
      by (apply nth_lookup_Some; exact Hpt).
    assert (Hptin : pt ∈ sub l) by (eapply list_elem_of_lookup_2; exact Hpt).
    set (st1 := add_contribution N cs l st (target, i, j)).
    assert (Hout : ∀ p, p ∉ sub l → deref N st1 p = deref N st p).
    { intros p Hp. unfold st1, add_contribution. rewrite Hcl, Hnth.
      apply deref_modify_ne. intros ->. contradiction. }
    destruct (IH st1 HL') as [IHa IHb].
    change (fold_left (add_contribution N cs l) ((target, i, j) :: L) st)
      with (fold_left (add_contribution N cs l) L st1).
    split.
    + intros p Hp. rewrite IHa, Hout by exact Hp. reflexivity.
    + intros t Ht. rewrite IHb by exact Ht.
      assert (Hmap : map (contribution_qef N cs st1) (contributions_to t L)
                     = map (contribution_qef N cs st) (contributions_to t L)).
      { apply map_ext_in. intros [[t' i'] j'] Hin.
        apply filter_In in Hin. destruct Hin as [Hin _].
        unfold contribution_qef. simpl.
        destruct (HL' _ _ _ Hin) as [_ (cl' & Hcl' & Hsrc')].
        rewrite Hcl'. rewrite Hout by exact Hsrc'. reflexivity. }
      rewrite Hmap. unfold contributions_to at 2. simpl.
      destruct (Nat.eqb_spec target t) as [->|Hne]; simpl.
      * f_equal. unfold st1, add_contribution, contribution_qef. simpl.
        rewrite Hcl, deref_modify_eq. reflexivity.
      * f_equal. unfold st1, add_contribution. rewrite Hcl.
        rewrite deref_modify_ne; [reflexivity|].
        rewrite Hnth. intros Heq.
        destruct (lookup_lt_is_Some_2 _ _ Ht) as [pt' Hpt'].
        rewrite (nth_lookup_Some _ _ _ _ Hpt') in Heq. subst pt'.
        apply Hne. eapply NoDup_lookup; eassumption.
Qed.

End AggregateSums.

(** C10: in the aggregation of [collectChildren] a child whose type is not
    AMBIGUOUS is skipped entirely.  Every addition comes from an AMBIGUOUS
    child; when the parent's fresh subspace records are distinct from each
    other and from the children's, each parent subspace QEF ends as its
    starting value plus the contributions aimed at it, all from AMBIGUOUS
    children; and replacing the children that are not AMBIGUOUS by any
    others that are not AMBIGUOUS leaves the result unchanged. *)
Theorem aggregate_ambiguous_children_only `{P : Primitives} (N : nat)
    (cs : list SimplexTree) (l : SimplexLeaf) (st : Store) :
  NoDup (sub l) → length (sub l) = ipow 3 N →
  (∀ i c cl j, cs !! i = Some c → leaf c = Some cl → j < ipow 3 N →
     nth j (sub cl) nullptr ∉ sub l) →
  (∀ target i j, In (target, i, j) (contributions N cs) →
     ∃ c, cs !! i = Some c ∧ type c = AMBIGUOUS)
  ∧ (∀ t, t < ipow 3 N →
       qef (deref N (aggregate N cs l st) (nth t (sub l) nullptr))
       = fold_left qef_add
           (map (contribution_qef N cs st)
                (contributions_to t (contributions N cs)))
           (qef (deref N st (nth t (sub l) nullptr))))
  ∧ (∀ cs',
       (∀ i c, cs !! i = Some c → type c = AMBIGUOUS → cs' !! i = Some c) →
       (∀ i c, cs' !! i = Some c → type c = AMBIGUOUS → cs !! i = Some c) →
       aggregate N cs' l st = aggregate N cs l st).
Proof.
  intros Hnd Hlen Hsep. split; [|split].
  - intros target i j Hin. apply in_contributions in Hin.
    destruct Hin as (_ & _ & (c & cl & Hc & Hty & _) & _). eauto.
  - intros t Ht. rewrite aggregate_contributions.
    apply fold_add_contribution; [exact Hnd| |lia].
    intros target i j Hin. apply in_contributions in Hin.
    destruct Hin as (_ & Hj & (c & cl & Hc & Hty & Hl) & _ & ->).
    split; [rewrite Hlen; apply contribution_target_lt|].
    exists cl. split; [rewrite Hc; exact Hl|]. eapply Hsep; eassumption.
  - intros cs' H1 H2. unfold aggregate. apply fold_left_ext_in.
    intros a i _. unfold aggregate_child.
    destruct (cs' !! i) as [c'|] eqn:Hc'; destruct (cs !! i) as [c|] eqn:Hc.
    + destruct (decide (type c = AMBIGUOUS)) as [Hty|Hty].
      * rewrite (H1 _ _ Hc Hty) in Hc'. inversion Hc'; subst. reflexivity.
      * destruct (decide (type c' = AMBIGUOUS)) as [Hty'|Hty'].
        -- rewrite (H2 _ _ Hc' Hty') in Hc. inversion Hc; subst. contradiction.
        -- rewrite !Interval_eqb_false by assumption. reflexivity.
    + destruct (decide (type c' = AMBIGUOUS)) as [Hty'|Hty'].
      * rewrite (H2 _ _ Hc' Hty') in Hc. discriminate.
      * rewrite Interval_eqb_false by assumption. reflexivity.
    + destruct (decide (type c = AMBIGUOUS)) as [Hty|Hty].
      * rewrite (H1 _ _ Hc Hty) in Hc'. discriminate.
      * rewrite Interval_eqb_false by assumption. reflexivity.
    + reflexivity.
Qed.

Lemma sample_kids_separate (i : nat) (c : SimplexTree) (cl : SimplexLeaf) (j : nat) :
  Sample.kids !! i = Some c → leaf c = Some cl → j < ipow 3 2 →
  nth j (sub cl) nullptr ∉ sub Sample.parent_leaf.
Proof.
  intros Hc Hl Hj. change (ipow 3 2) with 9 in Hj.
  assert (Hcl : cl = Sample.leaf_at 1 ∨ cl = Sample.leaf_at 10).
  { destruct i as [|[|[|[|i]]]]; simpl in Hc; inversion Hc; subst;
      simpl in Hl; inversion Hl; auto. }
  change (sub Sample.parent_leaf) with (seq 19 9). rewrite elem_of_seq.
  destruct Hcl as [-> | ->].
  - change (sub (Sample.leaf_at 1)) with (seq 1 9).
    rewrite seq_nth by exact Hj. lia.
  - change (sub (Sample.leaf_at 10)) with (seq 10 9).
    rewrite seq_nth by exact Hj. lia.
Qed.

Lemma aggregate_ambiguous_children_only_witness :
  (∀ target i j, In (target, i, j) (contributions 2 Sample.kids) →
     ∃ c, Sample.kids !! i = Some c ∧ type c = AMBIGUOUS)
  ∧ (∀ t, t < ipow 3 2 →
       qef (deref 2 (aggregate 2 Sample.kids Sample.parent_leaf (Sample.heap 18))
                  (nth t (sub Sample.parent_leaf) nullptr))
       = fold_left qef_add
           (map (contribution_qef 2 Sample.kids (Sample.heap 18))
                (contributions_to t (contributions 2 Sample.kids)))
           (qef (deref 2 (Sample.heap 18) (nth t (sub Sample.parent_leaf) nullptr))))
  ∧ (∀ cs',
       (∀ i c, Sample.kids !! i = Some c → type c = AMBIGUOUS → cs' !! i = Some c) →
       (∀ i c, cs' !! i = Some c → type c = AMBIGUOUS → Sample.kids !! i = Some c) →
       aggregate 2 cs' Sample.parent_leaf (Sample.heap 18)
       = aggregate 2 Sample.kids Sample.parent_leaf (Sample.heap 18)).
Proof.
  apply (aggregate_ambiguous_children_only 2 Sample.kids Sample.parent_leaf
           (Sample.heap 18)).
  - apply NoDup_seq.
  - reflexivity.
  - exact sample_kids_separate.
Defined.

(** ** The corner bit tested by the subspace mapping *)

Lemma corner_bit_out_of_range (N i : nat) :
  i < ipow 2 N → Z.land (Z.of_nat i) (bit N) = 0%Z.
Proof.
  intros Hi. rewrite land_bit.
  assert (Hlt : (Z.of_nat i < 2 ^ Z.of_nat N)%Z).
  { unfold ipow in Hi. apply Nat2Z.inj_lt in Hi.
    rewrite Nat2Z.inj_pow in Hi. exact Hi. }
  assert (Hb : Z.testbit (Z.of_nat i) (Z.of_nat N) = false).
  { apply Z.testbit_false; [lia|]. rewrite Z.div_small by lia. reflexivity. }
  rewrite Hb. reflexivity.
Qed.

(** With the corner bit always clear, the mapping does not look at the child
    corner at all. *)
Lemma contribution_target_any_corner (N i j : nat) :
  i < ipow 2 N → contribution_target N i j = contribution_target N 0 j.
Proof.
  intros Hi. unfold contribution_target.
  replace (fold_left (target_step N (NeighborIndex.floating N j)
                        (NeighborIndex.pos N j) (Z.of_nat i)) (seq 0 N) (0%Z, 0%Z))
    with (fold_left (target_step N (NeighborIndex.floating N j)
                        (NeighborIndex.pos N j) (Z.of_nat 0)) (seq 0 N) (0%Z, 0%Z));
    [reflexivity|].
  apply fold_left_ext_in. intros [fo po] d _. unfold target_step.
  rewrite (corner_bit_out_of_range N i Hi).
  rewrite (corner_bit_out_of_range N 0)
    by (unfold ipow; pose proof (Nat.pow_nonzero 2 N); lia).
  reflexivity.
Qed.

(** C1: the mapping of an accepted child subspace to the parent subspace, at
    [N = 2], child corner 1 (HIGH on axis 0) and subspace 5 (axis 0 fixed
    HIGH, axis 1 floating).  The contribution is accepted; the corner agrees
    with the subspace on axis 0, so the mapping described keeps the axis
    fixed and yields subspace 5, while the code yields subspace 4 (both axes
    floating): it compares against bit [1 << N] of the corner, which is
    never set. *)
Theorem collect_target_at_agreeing_corner :
  contribution_valid 2 1 5 = true
  ∧ NeighborIndex.axis_floating 5 0 = false
  ∧ NeighborIndex.axis_high 5 0 = CornerIndex.axis_high 1 0
  ∧ spec_contribution_target 2 1 5 = 5
  ∧ contribution_target 2 1 5 = 4
  ∧ NeighborIndex.axis_floating (contribution_target 2 1 5) 0 = true.
Proof. repeat split. Qed.

(** The other direction of the same slip, at child corner 1 and subspace 3
    (axis 0 fixed LOW, axis 1 floating): corner and subspace disagree on
    axis 0, the mapping described relaxes the axis, the code keeps it
    fixed. *)
Lemma collect_target_at_disagreeing_corner :
  contribution_valid 2 1 3 = true
  ∧ NeighborIndex.axis_high 3 0 ≠ CornerIndex.axis_high 1 0
  ∧ spec_contribution_target 2 1 3 = 4
  ∧ contribution_target 2 1 3 = 3.
Proof. repeat split. discriminate. Qed.

(** ** Interval evaluation *)

(** C6: when the interval evaluator reports that it is unsafe, the node's
    type is AMBIGUOUS, [done()] is not called and the caller's tape is
    returned, whatever the interval was.  [done()] is called at most once,
    and exactly when the type the node is left with is FILLED or EMPTY:
    that is, when the evaluator is safe and the state of the interval is
    FILLED or EMPTY. *)
Theorem evalInterval_unsafe_is_ambiguous `{P : Primitives}
    (t : SimplexTree) (region : Region) (tp : Tape) :
  let o := evalAndPush region tp in
  let r := evalInterval t region tp in
  (isSafe region tp = false →
     type (fst r) = AMBIGUOUS ∧ done_signals (fst r) = done_signals t
     ∧ snd r = tp)
  ∧ (done_signals (fst r) = S (done_signals t)
     ∨ done_signals (fst r) = done_signals t)
  ∧ (done_signals (fst r) = S (done_signals t) ↔
     type (fst r) = FILLED ∨ type (fst r) = EMPTY)
  ∧ (done_signals (fst r) = S (done_signals t) ↔
     isSafe region tp = true
     ∧ (interval_state (fst o) = FILLED ∨ interval_state (fst o) = EMPTY)).
Proof.
  intros o r. subst o r. unfold evalInterval.
  destruct (isSafe region tp); simpl.
  - destruct (interval_state (fst (evalAndPush region tp))); simpl;
      repeat split; intros; auto; try discriminate; try lia;
      try (destruct H; discriminate); try (destruct H as [_ [H|H]]; discriminate).
  - repeat split; intros; auto; try discriminate; try lia;
      try (destruct H; discriminate).
Qed.

(** ** Bottom-up collection *)

Section CollectFacts.

Context `{P : Primitives}.
Variable N : nat.

Lemma grab_leaves_returned (l : list nat) (lf : SimplexLeaf) (w : World) :
  leaves_returned (pool (snd (fold_left grab_step l (lf, w))))
  = leaves_returned (pool w).
Proof.
  revert lf w. induction l as [|i l IH]; intros lf w; [reflexivity|].
  simpl. unfold get_sub.
  destruct (free_subs (pool w)); rewrite IH; reflexivity.
Qed.

Lemma existsb_isBranch (cs : list SimplexTree) :
  Forall (λ c, isBranch c = false) cs → existsb isBranch cs = false.
Proof.
  induction 1 as [|c cs Hc _ IH]; [reflexivity|].
  simpl. rewrite Hc, IH. reflexivity.
Qed.

Lemma forallb_type (ty : Interval) (cs : list SimplexTree) :
  forallb (λ c, Interval_eqb (type c) ty) cs = true ↔
  Forall (λ c, type c = ty) cs.
Proof.
  induction cs as [|c cs IH]; simpl.
  - split; [constructor|reflexivity].
  - rewrite andb_true_iff, IH, Forall_cons, Interval_eqb_true. reflexivity.
Qed.

Lemma forallb_type_false (ty : Interval) (cs : list SimplexTree) :
  ¬ Forall (λ c, type c = ty) cs →
  forallb (λ c, Interval_eqb (type c) ty) cs = false.
Proof.
  intros H. destruct (forallb _ cs) eqn:E; [|reflexivity].
  exfalso. apply H. apply forallb_type. exact E.
Qed.

(** The outcome of [collectChildren] on the path that allocates a
    tentative leaf: the leaf is put back and the node keeps its children. *)
Lemma collectChildren_mixed (t : SimplexTree) (tp : Tape) (max_err : double)
    (region : Region) (w : World) :
  pending t = 0%Z →
  Forall (λ c, isBranch c = false) (children t) →
  ¬ Forall (λ c, type c = EMPTY) (children t) →
  ¬ Forall (λ c, type c = FILLED) (children t) →
  ∃ w3,
    collectChildren N t tp max_err region w
    = (true,
       done (set_leaf None (set_type AMBIGUOUS (set_pending (-1) t))),
       put_leaf w3)
    ∧ leaves_returned (pool w3) = leaves_returned (pool w).
Proof.
  intros Hp Hnb Hne Hnf. unfold collectChildren. rewrite Hp.
  cbn [nz Z.eqb negb set_pending children].
  rewrite (existsb_isBranch _ Hnb).
  rewrite (forallb_type_false _ _ Hne), (forallb_type_false _ _ Hnf).
  cbn [set_type type Interval_eqb]. cbn [orb].
  destruct (fold_left grab_step (seq 0 (ipow 3 N)) (leaf_reset N, w))
    as [l w1] eqn:Hgrab.
  destruct (Unroller N (ipow 3 N) l (replicate (ipow 3 N) false) region
              (aggregate N (children t) l (store w1))) as [st3 err] eqn:Hun.
  rewrite andb_false_r.
  exists (with_store st3 w1). split; [reflexivity|].
  pose proof (grab_leaves_returned (seq 0 (ipow 3 N)) (leaf_reset N) w) as Hg.
  rewrite Hgrab in Hg. exact Hg.
Qed.

End CollectFacts.

(** C3: a branch (which holds no leaf) whose [2^N] children are all
    non-branch nodes and are neither all EMPTY nor all FILLED is never
    turned into a collapsed leaf by [collectChildren], whatever [max_err]
    is: the node keeps its children and ends without a leaf.  On the call
    that finds [pending] at zero the tentative leaf goes back to the pool,
    the type is AMBIGUOUS and the node is done; on an earlier call nothing
    but [pending] changes. *)
Theorem collectChildren_never_collapses `{P : Primitives} (N : nat)
    (t : SimplexTree) (tp : Tape) (max_err : double) (region : Region)
    (w : World) :
  leaf t = None →
  length (children t) = ipow 2 N →
  Forall (λ c, isBranch c = false) (children t) →
  ¬ Forall (λ c, type c = EMPTY) (children t) →
  ¬ Forall (λ c, type c = FILLED) (children t) →
  let r := collectChildren N t tp max_err region w in
  let t' := snd (fst r) in
  children t' = children t ∧ isBranch t' = true ∧ leaf t' = None
  ∧ (pending t = 0%Z →
       fst (fst r) = true ∧ type t' = AMBIGUOUS
       ∧ done_signals t' = S (done_signals t)
       ∧ leaves_returned (pool (snd r)) = S (leaves_returned (pool w)))
  ∧ (pending t ≠ 0%Z →
       r = (false, set_pending (pending t - 1) t, w)).
Proof.
  intros Hleaf Hlen Hnb Hne Hnf r t'.
  assert (Hbr : isBranch t = true).
  { unfold isBranch. destruct (children t); [|reflexivity].
    simpl in Hlen. unfold ipow in Hlen.
    pose proof (Nat.pow_nonzero 2 N). lia. }
  destruct (Z.eq_dec (pending t) 0%Z) as [Hp|Hp].
  - destruct (collectChildren_mixed N t tp max_err region w Hp Hnb Hne Hnf)
      as (w3 & Heq & Hret).
    subst t' r. rewrite Heq. simpl.
    repeat split; auto; try contradiction; try (rewrite Hret; reflexivity).
  - assert (Heq : r = (false, set_pending (pending t - 1) t, w)).
    { subst r. unfold collectChildren.
      unfold nz. destruct (Z.eqb_spec (pending t) 0%Z); [contradiction|].
      reflexivity. }
    subst t'. rewrite Heq. simpl.
    repeat split; auto; try contradiction.
Qed.

Lemma collectChildren_never_collapses_witness :
  let r := collectChildren 2 (Sample.branch 0) tt 1000%Z 0%Z Sample.world in
  let t' := snd (fst r) in
  children t' = children (Sample.branch 0) ∧ isBranch t' = true
  ∧ leaf t' = None
  ∧ (pending (Sample.branch 0) = 0%Z →
       fst (fst r) = true ∧ type t' = AMBIGUOUS
       ∧ done_signals t' = S (done_signals (Sample.branch 0))
       ∧ leaves_returned (pool (snd r))
         = S (leaves_returned (pool Sample.world)))
  ∧ (pending (Sample.branch 0) ≠ 0%Z →
       r = (false, set_pending (pending (Sample.branch 0) - 1) (Sample.branch 0),
            Sample.world)).
Proof.
  apply (collectChildren_never_collapses 2 (Sample.branch 0) tt 1000%Z 0%Z
           Sample.world).
  - reflexivity.
  - reflexivity.
  - repeat constructor.
  - intros H. inversion H as [|? ? Hty _]. discriminate Hty.
  - intros H. inversion H as [|? ? Hty _]. discriminate Hty.
Defined.

(** ** Vertex signs *)

Section SignFacts.

Context `{P : Primitives}.
Variable N : nat.

Lemma vertex_sign_step_unsolved (tp : Tape) (region : Region)
    (l : SimplexLeaf) (solved : list bool) (w : World) (i : nat) :
  nth i solved false = false →
  store (vertex_sign_step N tp region l solved w i)
  = modify N
      (set_inside
         (if float_is_zero
               (array_values tp
                  (region_point3f region
                     (vert (deref N (store w) (nth i (sub l) nullptr)))))
          then feature_isInside tp
                 (region_point3f region
                    (vert (deref N (store w) (nth i (sub l) nullptr))))
          else float_is_negative
                 (array_values tp
                    (region_point3f region
                       (vert (deref N (store w) (nth i (sub l) nullptr)))))))
      (nth i (sub l) nullptr) (store w).
Proof.
  intros Hs. unfold vertex_sign_step. rewrite Hs.
  cbn [array_set slots store with_store]. rewrite fn_lookup_insert.
  reflexivity.
Qed.

(** After the loop over the indices [L], every record is either one whose
    flag was computed from its own vertex, or untouched and not the record
    of any unsolved subspace in [L].  Vertices never change. *)
Lemma fold_vertex_sign_step (tp : Tape) (region : Region) (l : SimplexLeaf)
    (solved : list bool) (L : list nat) (w : World) (q : ptr) :
  let w' := fold_left (vertex_sign_step N tp region l solved) L w in
  vert (deref N (store w') q) = vert (deref N (store w) q)
  ∧ (inside (deref N (store w') q)
     = (if float_is_zero
             (array_values tp (region_point3f region (vert (deref N (store w) q))))
        then feature_isInside tp
               (region_point3f region (vert (deref N (store w) q)))
        else float_is_negative
               (array_values tp
                  (region_point3f region (vert (deref N (store w) q)))))
     ∨ (deref N (store w') q = deref N (store w) q
        ∧ ∀ k, In k L → nth k solved false = false →
               nth k (sub l) nullptr ≠ q)).
Proof.
  revert w. induction L as [|k L IH]; intros w; cbn zeta.
  - split; [reflexivity|]. right. split; [reflexivity|]. intros k [].
  - cbn [fold_left].
    destruct (IH (vertex_sign_step N tp region l solved w k)) as [IHv IHi].
    destruct (nth k solved false) eqn:Hs.
    + assert (Hw : vertex_sign_step N tp region l solved w k = w).
      { unfold vertex_sign_step. rewrite Hs. reflexivity. }
      rewrite Hw in IHv, IHi |- *. split; [exact IHv|].
      destruct IHi as [Ht|[Hu Hk]]; [left; exact Ht|].
      right. split; [exact Hu|].
      intros k' [<-|Hin] Hk'; [congruence|apply Hk; assumption].
    + pose proof (vertex_sign_step_unsolved tp region l solved w k Hs) as Hst.
      destruct (decide (nth k (sub l) nullptr = q)) as [Heq|Hne].
      * rewrite Heq in Hst.
        assert (Hvq : vert (deref N (store (vertex_sign_step N tp region l solved w k)) q)
                      = vert (deref N (store w) q)).
        { rewrite Hst, deref_modify_eq. reflexivity. }
        rewrite Hvq in IHv, IHi. split; [exact IHv|].
        destruct IHi as [Ht|[Hu _]]; [left; exact Ht|].
        left. rewrite Hu, Hst, deref_modify_eq. reflexivity.
      * assert (Hdq : deref N (store (vertex_sign_step N tp region l solved w k)) q
                      = deref N (store w) q).
        { rewrite Hst. apply deref_modify_ne. exact Hne. }
        rewrite Hdq in IHv, IHi. split; [exact IHv|].
        destruct IHi as [Ht|[Hu Hk]]; [left; exact Ht|].
        right. split; [exact Hu|].
        intros k' [<-|Hin] Hk'; [exact Hne|apply Hk; assumption].
Qed.

End SignFacts.

(** C7: after [saveVertexSigns], for every subspace [i] that was not
    already solved, the inside flag of its record is decided by the value of
    the function at its vertex (which the loop leaves as it was): when the
    value is exactly zero the flag is the feature evaluator's [isInside]
    answer at that point, otherwise it tells whether the value is negative.
    A record that belongs to no unsolved subspace is left untouched. *)
Theorem saveVertexSigns_sets_inside `{P : Primitives} (N : nat)
    (l : SimplexLeaf) (tp : Tape) (region : Region) (already_solved : list bool)
    (w : World) (i : nat) :
  i < ipow 3 N → nth i already_solved false = false →
  let w' := saveVertexSigns N l tp region already_solved w in
  let s := nth i (sub l) nullptr in
  let p := region_point3f region (vert (deref N (store w') s)) in
  let out := array_values tp p in
  vert (deref N (store w') s) = vert (deref N (store w) s)
  ∧ (float_is_zero out = true →
       inside (deref N (store w') s) = feature_isInside tp p)
  ∧ (float_is_zero out = false →
       inside (deref N (store w') s) = float_is_negative out)
  ∧ (∀ q, (∀ k, k < ipow 3 N → nth k already_solved false = false →
                nth k (sub l) nullptr ≠ q) →
          deref N (store w') q = deref N (store w) q).
Proof.
  intros Hi Hs w' s p out. subst w' s p out. unfold saveVertexSigns.
  split; [|split; [|split]].
  - apply fold_vertex_sign_step.
  - destruct (fold_vertex_sign_step N tp region l already_solved
                (seq 0 (ipow 3 N)) w (nth i (sub l) nullptr)) as [Hv [Ht|[_ Hk]]].
    + cbn zeta in Hv. rewrite Hv, Ht. intros ->. reflexivity.
    + exfalso. apply (Hk i); [apply in_seq; lia|exact Hs|reflexivity].
  - destruct (fold_vertex_sign_step N tp region l already_solved
                (seq 0 (ipow 3 N)) w (nth i (sub l) nullptr)) as [Hv [Ht|[_ Hk]]].
    + cbn zeta in Hv. rewrite Hv, Ht. intros ->. reflexivity.
    + exfalso. apply (Hk i); [apply in_seq; lia|exact Hs|reflexivity].
  - intros q Hq.
    destruct (fold_vertex_sign_step N tp region l already_solved
                (seq 0 (ipow 3 N)) w q) as [Hv [Ht|[Hu _]]]; [|exact Hu].
    clear Ht Hv.
    assert (Hgen : ∀ L w0, (∀ k, In k L → k < ipow 3 N) →
              deref N (store (fold_left (vertex_sign_step N tp region l
                                           already_solved) L w0)) q
              = deref N (store w0) q).
    { induction L as [|k L IH]; intros w0 HL; [reflexivity|].
      cbn [fold_left]. rewrite IH by (intros; apply HL; right; assumption).
      destruct (nth k already_solved false) eqn:Hk.
      - unfold vertex_sign_step. rewrite Hk. reflexivity.
      - rewrite vertex_sign_step_unsolved by exact Hk.
        apply deref_modify_ne. apply Hq; [apply HL; left; reflexivity|exact Hk]. }
    apply Hgen. intros k Hin. apply in_seq in Hin. lia.
Qed.

Lemma saveVertexSigns_sets_inside_witness :
  let w' := saveVertexSigns 2 (Sample.leaf_at 1) tt 0%Z
              (replicate 9 false) Sample.world in
  let s := nth 4 (sub (Sample.leaf_at 1)) nullptr in
  let p := region_point3f (Primitives := Sample.prims) 0%Z (vert (deref 2 (store w') s)) in
  let out := array_values (Primitives := Sample.prims) tt p in
  vert (deref 2 (store w') s) = vert (deref 2 (store Sample.world) s)
  ∧ (float_is_zero out = true →
       inside (deref 2 (store w') s) = feature_isInside (Primitives := Sample.prims) tt p)
  ∧ (float_is_zero out = false →
       inside (deref 2 (store w') s) = float_is_negative out)
  ∧ (∀ q, (∀ k, k < ipow 3 2 → nth k (replicate 9 false) false = false →
                nth k (sub (Sample.leaf_at 1)) nullptr ≠ q) →
          deref 2 (store w') q = deref 2 (store Sample.world) q).
Proof.
  apply (saveVertexSigns_sets_inside 2 (Sample.leaf_at 1) tt 0%Z
           (replicate 9 false) Sample.world 4).
  - vm_compute. lia.
  - reflexivity.
Defined.

(** ** Leaf classification *)

Section ClassifyFacts.

Context `{P : Primitives}.
Variable N : nat.

Lemma fold_inside_flags (st : Store) (l : SimplexLeaf) (L : list nat)
    (a o : bool) :
  let r :=
    fold_left
      (λ '(all_inside, all_outside) i,
         let ins := inside (deref N st (nth i (sub l) nullptr)) in
         (all_inside && ins, all_outside && negb ins))
      L (a, o) in
  (fst r = true ↔
     a = true ∧ ∀ i, In i L → inside (deref N st (nth i (sub l) nullptr)) = true)
  ∧ (snd r = true ↔
     o = true ∧ ∀ i, In i L → inside (deref N st (nth i (sub l) nullptr)) = false).
Proof.
  revert a o. induction L as [|k L IH]; intros a o; cbn zeta.
  - simpl. split; (split; [intros ->; split; [reflexivity|intros ? []]|]);
      intros [-> _]; reflexivity.
  - cbn [fold_left]. destruct (IH (a && inside (deref N st (nth k (sub l) nullptr)))
                                 (o && negb (inside (deref N st (nth k (sub l) nullptr)))))
      as [IHa IHo].
    cbn zeta in IHa, IHo. rewrite IHa, IHo. clear IHa IHo.
    rewrite !andb_true_iff, negb_true_iff. split; split.
    + intros [[-> Hk] HL]. split; [reflexivity|].
      intros i [<-|Hin]; [exact Hk|apply HL; exact Hin].
    + intros [-> HL]. split; [split; [reflexivity|]|].
      * apply HL. left. reflexivity.
      * intros i Hin. apply HL. right. exact Hin.
    + intros [[-> Hk] HL]. split; [reflexivity|].
      intros i [<-|Hin]; [exact Hk|apply HL; exact Hin].
    + intros [-> HL]. split; [split; [reflexivity|]|].
      * apply HL. left. reflexivity.
      * intros i Hin. apply HL. right. exact Hin.
Qed.

Lemma inside_flags_spec (st : Store) (l : SimplexLeaf) :
  (fst (inside_flags N st l) = true ↔
     ∀ i, i < ipow 3 N → inside (deref N st (nth i (sub l) nullptr)) = true)
  ∧ (snd (inside_flags N st l) = true ↔
     ∀ i, i < ipow 3 N → inside (deref N st (nth i (sub l) nullptr)) = false).
Proof.
  destruct (fold_inside_flags st l (seq 0 (ipow 3 N)) true true) as [Ha Ho].
  cbn zeta in Ha, Ho. unfold inside_flags. rewrite Ha, Ho. split; split.
  - intros [_ H] i Hi. apply H. apply in_seq. lia.
  - intros H. split; [reflexivity|]. intros i Hin. apply H.
    apply in_seq in Hin. lia.
  - intros [_ H] i Hi. apply H. apply in_seq. lia.
  - intros H. split; [reflexivity|]. intros i Hin. apply H.
    apply in_seq in Hin. lia.
Qed.

(** [collectChildren] never leaves a leaf on a node that entered
    without one. *)
Lemma collectChildren_leaf_None (t : SimplexTree) (tp : Tape)
    (max_err : double) (region : Region) (w : World) :
  leaf t = None →
  leaf (snd (fst (collectChildren N t tp max_err region w))) = None.
Proof.
  intros Hl. unfold collectChildren.
  destruct (nz (pending t)); [exact Hl|].
  destruct (existsb isBranch _); [exact Hl|].
  destruct (_ || _); [exact Hl|].
  destruct (fold_left grab_step _ _) as [l w1].
  destruct (Unroller _ _ _ _ _ _) as [st3 err].
  rewrite andb_false_r. reflexivity.
Qed.

(** The early exit of [collectChildren] for uniform children. *)
Lemma collectChildren_uniform (t : SimplexTree) (tp : Tape)
    (max_err : double) (region : Region) (w : World) :
  pending t = 0%Z →
  Forall (λ c, isBranch c = false) (children t) →
  Forall (λ c, type c = EMPTY) (children t)
  ∨ Forall (λ c, type c = FILLED) (children t) →
  let t' := snd (fst (collectChildren N t tp max_err region w)) in
  children t' = [] ∧ (type t' = EMPTY ∨ type t' = FILLED) ∧ leaf t' = leaf t.
Proof.
  intros Hp Hnb Hu. unfold collectChildren. rewrite Hp.
  cbn [nz Z.eqb negb set_pending children].
  rewrite (existsb_isBranch _ Hnb).
  destruct (forallb (λ c, Interval_eqb (type c) EMPTY) (children t)) eqn:He.
  - simpl. auto.
  - destruct Hu as [Hu|Hu].
    + apply forallb_type in Hu. congruence.
    + apply forallb_type in Hu. rewrite Hu. simpl. auto.
Qed.

End ClassifyFacts.

(** ** The subspace vertex solve *)

Lemma fold_left_filter_map {A B : Type} (f : A → B → A) (sel : nat → bool)
    (g : nat → B) (L : list nat) (a : A) :
  fold_left (λ q i, if sel i then f q (g i) else q) L a
  = fold_left f (map g (List.filter sel L)) a.
Proof.
  revert a. induction L as [|i L IH]; intros a; simpl; [reflexivity|].
  destruct (sel i); simpl; apply IH.
Qed.

Lemma fold_right_ext_in {A B : Type} (f g : B → A → A) (l : list B) (a : A) :
  (∀ b a, In b l → f b a = g b a) → fold_right f a l = fold_right g a l.
Proof.
  induction l as [|b l IH]; intros H; simpl; [reflexivity|].
  rewrite IH by (intros; apply H; right; assumption).
  apply H. left. reflexivity.
Qed.

Section UnrollerFacts.

Context `{P : Primitives}.
Variable N : nat.

Lemma subspace_qef_contained (st : Store) (l : SimplexLeaf) (s : nat) :
  subspace_qef N st l s = contained_qef_sum N st l s.
Proof.
  unfold subspace_qef, contained_qef_sum, projected_sum.
  apply (fold_left_filter_map qsub_add (λ r, NeighborIndex.contains N s r)
           (λ r, qef_sub (NeighborIndex.floating N s)
                         (qef (deref N st (nth r (sub l) nullptr))))).
Qed.

Lemma projected_sum_ext (sel : nat → bool) (a b : Store) (l : SimplexLeaf)
    (s : nat) :
  (∀ p, qef (deref N a p) = qef (deref N b p)) →
  projected_sum N sel a l s = projected_sum N sel b l s.
Proof.
  intros H. unfold projected_sum. f_equal.
  apply map_ext. intros r. rewrite H. reflexivity.
Qed.

Lemma subspace_error_ext (a b : Store) (l : SimplexLeaf) (solved : list bool)
    (region : Region) (s : nat) :
  (∀ p, qef (deref N a p) = qef (deref N b p)) →
  subspace_error N a l solved region s = subspace_error N b l solved region s.
Proof.
  intros H. unfold subspace_error, contained_qef_sum.
  rewrite (projected_sum_ext _ a b l s H). reflexivity.
Qed.

Lemma solve_subspace_qef (st : Store) (l : SimplexLeaf) (region : Region)
    (s : nat) (p : ptr) :
  qef (deref N (fst (solve_subspace N st l region s)) p) = qef (deref N st p).
Proof.
  unfold solve_subspace. cbn [fst]. rewrite deref_modify.
  destruct (decide (nth s (sub l) nullptr = p)) as [<-|]; reflexivity.
Qed.

(** What a run of the unroller over the subspaces below [k] does: QEFs are
    never touched; a record that belongs to no unsolved subspace below [k]
    is left alone; the error is the maximum, taken from the highest subspace
    down, of the errors of the solves; and the vertex of an unsolved
    subspace whose record no other unsolved subspace shares is the unpacked
    minimizer of the sum of the QEFs it contains. *)
Lemma Unroller_spec (k : nat) (l : SimplexLeaf) (solved : list bool)
    (region : Region) (st : Store) :
  let r := Unroller N k l solved region st in
  (∀ p, qef (deref N (fst r) p) = qef (deref N st p))
  ∧ (∀ p, (∀ s, s < k → nth s solved false = false →
                nth s (sub l) nullptr ≠ p) →
          deref N (fst r) p = deref N st p)
  ∧ snd r = fold_right (λ s acc, dmax (subspace_error N st l solved region s) acc)
                       dzero (rev (seq 0 k))
  ∧ (∀ s, s < k → nth s solved false = false →
          (∀ s', s' < k → s' ≠ s → nth s' solved false = false →
                 nth s' (sub l) nullptr ≠ nth s (sub l) nullptr) →
          vert (deref N (fst r) (nth s (sub l) nullptr))
          = unpack_vertex N region s
              (fst (solveBounded (contained_qef_sum N st l s)
                      (region_subspace (NeighborIndex.floating N s) region)))
              (vert (deref N st (nth s (sub l) nullptr)))).
Proof.
  revert st. induction k as [|k IH]; intros st; cbn zeta.
  - simpl. repeat split; intros; try reflexivity; lia.
  - cbn [Unroller]. rewrite seq_S, rev_app_distr. cbn [rev app fold_right].
    change (0 + k) with k.
    destruct (nth k solved false) eqn:Hk; cbn [negb].
    + (* already solved: nothing happens at [k] *)
      destruct (IH st) as (IHq & IHu & IHe & IHv).
      destruct (Unroller N k l solved region st) as [st2 rest].
      cbn [fst snd] in *.
      split; [exact IHq|]. split; [|split].
      * intros p Hp. apply IHu. intros s Hs. apply Hp. lia.
      * assert (He : subspace_error N st l solved region k = dzero)
          by (unfold subspace_error; rewrite Hk; reflexivity).
        rewrite He, IHe. reflexivity.
      * intros s Hs Hu Hal.
        assert (s ≠ k) by congruence.
        apply IHv; [lia|exact Hu|]. intros s' Hs'. apply Hal. lia.
    + (* solved here *)
      pose proof (solve_subspace_qef st l region k) as Hq1.
      destruct (solve_subspace N st l region k) as [st1 error] eqn:Hsolve.
      cbn [fst] in Hq1.
      destruct (IH st1) as (IHq & IHu & IHe & IHv).
      destruct (Unroller N k l solved region st1) as [st2 rest].
      cbn [fst snd] in *.
      assert (Hst1 : st1 = modify N
                (set_vert (unpack_vertex N region k
                   (fst (solveBounded (subspace_qef N st l k)
                           (region_subspace (NeighborIndex.floating N k) region)))
                   (vert (deref N st (nth k (sub l) nullptr)))))
                (nth k (sub l) nullptr) st
              ∧ error = snd (solveBounded (subspace_qef N st l k)
                           (region_subspace (NeighborIndex.floating N k) region))).
      { unfold solve_subspace in Hsolve. inversion Hsolve. split; reflexivity. }
      destruct Hst1 as [Hst1 Herr].
      split; [|split; [|split]].
      * intros p. rewrite IHq. apply Hq1.
      * intros p Hp. rewrite IHu by (intros s Hs; apply Hp; lia).
        rewrite Hst1. apply deref_modify_ne. apply Hp; [lia|exact Hk].
      * assert (He : subspace_error N st l solved region k = error).
        { unfold subspace_error. rewrite Hk, <- subspace_qef_contained.
          symmetry. exact Herr. }
        rewrite He, IHe. f_equal.
        apply fold_right_ext_in. intros s acc _.
        rewrite (subspace_error_ext st1 st l solved region s Hq1). reflexivity.
      * intros s Hs Hu Hal.
        destruct (decide (s = k)) as [->|Hne].
        -- rewrite IHu.
           ++ rewrite Hst1, deref_modify_eq. cbn [vert set_vert].
              rewrite subspace_qef_contained. reflexivity.
           ++ intros s' Hs' Hu'. apply Hal; [lia|lia|exact Hu'].
        -- rewrite IHv; [|lia|exact Hu|intros s' Hs'; apply Hal; lia].
           unfold contained_qef_sum.
           rewrite (projected_sum_ext _ st1 st l s Hq1).
           rewrite Hst1, deref_modify_ne; [reflexivity|].
           apply Hal; [lia|congruence|exact Hk].
Qed.

End UnrollerFacts.

(** C2, as amended: in the per-leaf subspace vertex solve, for every
    subspace [s] that is not already solved, the QEF that is minimized is
    the sum, over the subspaces [r] of the same cell that [s] contains
    ([s.contains(r)]: [s] itself and the lower-dimensional subspaces on its
    boundary), of [r]'s QEF projected to the floating axes of [s]; the
    minimization is [solveBounded] over the region restricted to the
    floating axes of [s].  The vertex of [s] after the run is the unpacked
    minimizer (when no other unsolved subspace shares its record), and the
    error returned is the maximum of the errors of these solves. *)
Theorem unroller_minimizes_contained_sum `{P : Primitives} (N : nat)
    (l : SimplexLeaf) (already_solved : list bool) (region : Region)
    (st : Store) (s : nat) :
  s < ipow 3 N → nth s already_solved false = false →
  (∀ s', s' < ipow 3 N → s' ≠ s → nth s' already_solved false = false →
         nth s' (sub l) nullptr ≠ nth s (sub l) nullptr) →
  let q := projected_sum N (λ r, NeighborIndex.contains N s r) st l s in
  let sol := solveBounded q (region_subspace (NeighborIndex.floating N s) region) in
  let r := Unroller N (ipow 3 N) l already_solved region st in
  subspace_qef N st l s = q
  ∧ (∀ p, qef (deref N (fst r) p) = qef (deref N st p))
  ∧ vert (deref N (fst r) (nth s (sub l) nullptr))
    = unpack_vertex N region s (fst sol) (vert (deref N st (nth s (sub l) nullptr)))
  ∧ subspace_error N st l already_solved region s = snd sol
  ∧ snd r = fold_right
              (λ s' acc, dmax (subspace_error N st l already_solved region s') acc)
              dzero (rev (seq 0 (ipow 3 N))).
Proof.
  intros Hs Hu Hal q sol r.
  destruct (Unroller_spec N (ipow 3 N) l already_solved region st)
    as (Hq & _ & He & Hv).
  fold r in Hq, He, Hv.
  split; [apply subspace_qef_contained|].
  split; [exact Hq|].
  split; [apply Hv; assumption|].
  split; [|exact He].
  unfold subspace_error. rewrite Hu. reflexivity.
Qed.

Lemma unroller_minimizes_contained_sum_witness :
  let l := Sample.leaf_at 1 in
  let st := Sample.heap 18 in
  let solved := replicate 9 false in
  let q := projected_sum 2 (λ r, NeighborIndex.contains 2 3 r) st l 3 in
  let sol := solveBounded (Primitives := Sample.prims) q
               (region_subspace (NeighborIndex.floating 2 3) Sample.region) in
  let r := Unroller 2 (ipow 3 2) l solved Sample.region st in
  subspace_qef 2 st l 3 = q
  ∧ (∀ p, qef (deref 2 (fst r) p) = qef (deref 2 st p))
  ∧ vert (deref 2 (fst r) (nth 3 (sub l) nullptr))
    = unpack_vertex 2 Sample.region 3 (fst sol) (vert (deref 2 st (nth 3 (sub l) nullptr)))
  ∧ subspace_error 2 st l solved Sample.region 3 = snd sol
  ∧ snd r = fold_right
              (λ s' acc, dmax (subspace_error 2 st l solved Sample.region s') acc)
              dzero (rev (seq 0 (ipow 3 2))).
Proof.
  apply (unroller_minimizes_contained_sum 2 (Sample.leaf_at 1)
           (replicate 9 false) Sample.region (Sample.heap 18) 3).
  - vm_compute. lia.
  - reflexivity.
  - intros s' Hs' Hne _. change (ipow 3 2) with 9 in Hs'.
    change (sub (Sample.leaf_at 1)) with (seq 1 9).
    rewrite !seq_nth by lia. lia.
Defined.

(** C2 as stated fails: the sum that the claim describes, over the
    subspaces containing [s], is not the one the code minimizes: for the corner 0 of a two-dimensional
    leaf the code takes the corner's QEF alone, while the corner is
    contained in itself, two edges and the body. *)
Lemma unroller_sum_not_over_containing_subspaces :
  subspace_qef 2 (Sample.heap 18) (Sample.leaf_at 1) 0 = [1%Z]
  ∧ spec_subspace_qef 2 (Sample.heap 18) (Sample.leaf_at 1) 0
    = [1%Z; 2%Z; 4%Z; 5%Z]
  ∧ subspace_qef 2 (Sample.heap 18) (Sample.leaf_at 1) 0
    ≠ spec_subspace_qef 2 (Sample.heap 18) (Sample.leaf_at 1) 0
  ∧ snd (solve_subspace 2 (Sample.heap 18) (Sample.leaf_at 1) Sample.region 0)
    ≠ snd (solveBounded (Primitives := Sample.prims)
             (spec_subspace_qef 2 (Sample.heap 18) (Sample.leaf_at 1) 0)
             (region_subspace (NeighborIndex.floating 2 0) Sample.region)).
Proof.
  split; [reflexivity|]. split; [reflexivity|].
  split; [discriminate|]. discriminate.
Qed.

(** ** The traversal of [assignIndices] *)

Lemma SimplexTree_nested_ind `{P : Primitives} (Q : SimplexTree → Prop) :
  (∀ ty lf cs p d, Forall Q cs → Q (mkTree ty lf cs p d)) → ∀ t, Q t.
Proof.
  intros H. fix IH 1. intros [ty lf cs p d]. apply H.
  induction cs as [|c cs IHcs]; constructor; [apply IH|exact IHcs].
Qed.

Lemma children_loop_ext `{P : Primitives} {A : Type}
    (f g : nat → SimplexTree → A → A) (rest : list SimplexTree) (i : nat)
    (acc : A) :
  Forall (λ c, ∀ i acc, f i c acc = g i c acc) rest →
  children_loop f rest i acc = children_loop g rest i acc.
Proof.
  intros H. revert i acc. induction H as [|c rest Hc _ IH]; intros i acc.
  - reflexivity.
  - simpl. rewrite Hc. apply IH.
Qed.

Section WalkFacts.

Context `{P : Primitives}.
Variable N : nat.
Variable Neighbors : Type.
Variable getIndex : Neighbors → Store → nat → Z.
Variable push : Neighbors → nat → list SimplexTree → Neighbors.

Lemma assignIndices_walk_visit (t : SimplexTree) (nb : Neighbors)
    (acc : Z * Store) :
  assignIndices_walk N getIndex push t nb acc
  = visit push
      (λ nb l acc, fold_left (assign_slot N getIndex nb l) (seq 0 (ipow 3 N)) acc)
      t nb acc.
Proof.
  revert nb acc. induction t as [ty lf cs p d IH] using SimplexTree_nested_ind.
  intros nb acc. destruct cs as [|c cs]; [reflexivity|].
  cbn [assignIndices_walk visit].
  apply children_loop_ext.
  eapply Forall_impl; [exact IH|]. intros c' Hc' i acc'. apply Hc'.
Qed.

Lemma children_loop_visited {A : Type}
    (body : nat → SimplexTree → list A → list A)
    (rest : list SimplexTree) (i : nat) (pre : list A) :
  Forall (λ c, ∀ i pre, body i c pre = pre ++ body i c []) rest →
  children_loop body rest i pre = pre ++ children_loop body rest i [].
Proof.
  intros H. revert i pre. induction H as [|c rest Hc _ IH]; intros i pre.
  - simpl. rewrite app_nil_r. reflexivity.
  - simpl. rewrite IH, (IH _ (body i c [])), Hc, app_assoc. reflexivity.
Qed.

Lemma visit_prefix (t : SimplexTree) (nb : Neighbors)
    (pre : list (Neighbors * SimplexLeaf)) :
  visit push (λ nb l acc, acc ++ [(nb, l)]) t nb pre = pre ++ visited push t nb.
Proof.
  revert nb pre. induction t as [ty lf cs p d IH] using SimplexTree_nested_ind.
  intros nb pre. unfold visited. destruct cs as [|c cs].
  - simpl. destruct lf; [reflexivity|]. rewrite app_nil_r. reflexivity.
  - cbn [visit]. apply children_loop_visited.
    eapply Forall_impl; [exact IH|]. intros c' Hc' i pre'. apply Hc'.
Qed.

Lemma children_loop_fold {A : Type} (f : Neighbors → SimplexLeaf → A → A)
    (mk : nat → Neighbors) (rest : list SimplexTree) (i : nat) (a : A) :
  Forall (λ c, ∀ nb a,
            visit push f c nb a
            = fold_left (λ a x, f (fst x) (snd x) a) (visited push c nb) a) rest →
  children_loop (λ i c a, visit push f c (mk i) a) rest i a
  = fold_left (λ a x, f (fst x) (snd x) a)
      (children_loop
         (λ i c acc, visit push (λ nb l acc, acc ++ [(nb, l)]) c (mk i) acc)
         rest i [])
      a.
Proof.
  intros H. revert i a. induction H as [|c rest Hc Hrest IH]; intros i a.
  - reflexivity.
  - cbn [children_loop].
    rewrite (children_loop_visited
               (λ i c acc, visit push (λ nb l acc, acc ++ [(nb, l)]) c (mk i) acc)).
    + rewrite fold_left_app, IH, Hc. reflexivity.
    + clear. induction rest as [|c' rest IH]; constructor; [|exact IH].
      intros i pre. rewrite (visit_prefix c' (mk i) pre).
      unfold visited. reflexivity.
Qed.

(** The traversal is a fold over the visited leaves. *)
Lemma visit_fold {A : Type} (f : Neighbors → SimplexLeaf → A → A)
    (t : SimplexTree) (nb : Neighbors) (a : A) :
  visit push f t nb a
  = fold_left (λ a x, f (fst x) (snd x) a) (visited push t nb) a.
Proof.
  revert nb a. induction t as [ty lf cs p d IH] using SimplexTree_nested_ind.
  intros nb a. unfold visited. destruct cs as [|c cs].
  - simpl. destruct lf; reflexivity.
  - cbn [visit].
    apply (children_loop_fold f (λ i, push nb i (c :: cs)) (c :: cs) 0 a).
    exact IH.
Qed.

End WalkFacts.

(** ** Index assignment *)

Lemma u64_small (x : Z) : (0 ≤ x < 2 ^ 64)%Z → u64 x = x.
Proof. intros H. unfold u64. apply Z.mod_small. exact H. Qed.

Section IndexFacts.

Context `{P : Primitives}.
Variable N : nat.
Variable Neighbors : Type.
Variable getIndex : Neighbors → Store → nat → Z.

Lemma nz_true (x : Z) : nz x = true ↔ x ≠ 0%Z.
Proof.
  unfold nz. destruct (Z.eqb_spec x 0); simpl; split; intros; congruence.
Qed.

(** One subspace: the counter moves by at most one, the record of the
    subspace ends with a nonzero index, and no index becomes zero. *)
Lemma assign_slot_bounds (nb : Neighbors) (l : SimplexLeaf) (c : Z)
    (st : Store) (i : nat) :
  (1 ≤ c)%Z → (c + 1 < 2 ^ 64)%Z →
  let r := assign_slot N getIndex nb l (c, st) i in
  (c ≤ fst r ≤ c + 1)%Z
  ∧ (∀ p, index (deref N st p) ≠ 0%Z → index (deref N (snd r) p) ≠ 0%Z)
  ∧ index (deref N (snd r) (nth i (sub l) nullptr)) ≠ 0%Z.
Proof.
  intros Hc Hb. cbn zeta. unfold assign_slot.
  destruct (nz (getIndex nb st i)) eqn:Hn; cbn [fst snd].
  - apply nz_true in Hn. split; [lia|]. split.
    + intros p Hp. rewrite deref_modify. destruct (decide _); [exact Hn|exact Hp].
    + rewrite deref_modify_eq. exact Hn.
  - rewrite u64_small by lia. split; [lia|]. split.
    + intros p Hp. rewrite deref_modify.
      destruct (decide _); [cbn; lia|exact Hp].
    + rewrite deref_modify_eq. cbn. lia.
Qed.

Lemma assign_slots_bounds (nb : Neighbors) (l : SimplexLeaf) (L : list nat)
    (c : Z) (st : Store) :
  (1 ≤ c)%Z → (c + Z.of_nat (length L) < 2 ^ 64)%Z →
  let r := fold_left (assign_slot N getIndex nb l) L (c, st) in
  (c ≤ fst r ≤ c + Z.of_nat (length L))%Z
  ∧ (∀ p, index (deref N st p) ≠ 0%Z → index (deref N (snd r) p) ≠ 0%Z)
  ∧ (∀ i, In i L → index (deref N (snd r) (nth i (sub l) nullptr)) ≠ 0%Z).
Proof.
  revert c st. induction L as [|i L IH]; intros c st Hc Hb; cbn zeta.
  - simpl. split; [lia|]. split; [auto|]. intros i [].
  - cbn [fold_left]. cbn [length] in Hb |- *.
    destruct (assign_slot_bounds nb l c st i Hc ltac:(lia)) as (Hc1 & Hp1 & Hi1).
    destruct (assign_slot N getIndex nb l (c, st) i) as [c1 st1].
    cbn [fst snd] in *.
    destruct (IH c1 st1 ltac:(lia) ltac:(lia)) as (Hc2 & Hp2 & Hi2).
    split; [lia|]. split.
    + intros p Hp. apply Hp2, Hp1, Hp.
    + intros k [<-|Hin]; [apply Hp2, Hi1|apply Hi2, Hin].
Qed.

Lemma assign_leaves_bounds (V : list (Neighbors * SimplexLeaf)) (c : Z)
    (st : Store) :
  (1 ≤ c)%Z → (c + Z.of_nat (ipow 3 N * length V) < 2 ^ 64)%Z →
  let r :=
    fold_left
      (λ a x, fold_left (assign_slot N getIndex (fst x) (snd x))
                        (seq 0 (ipow 3 N)) a)
      V (c, st) in
  (c ≤ fst r ≤ c + Z.of_nat (ipow 3 N * length V))%Z
  ∧ (∀ p, index (deref N st p) ≠ 0%Z → index (deref N (snd r) p) ≠ 0%Z)
  ∧ (∀ x i, In x V → i < ipow 3 N →
            index (deref N (snd r) (nth i (sub (snd x)) nullptr)) ≠ 0%Z).
Proof.
  revert c st. induction V as [|[nb l] V IH]; intros c st Hc Hb; cbn zeta.
  - simpl. split; [lia|]. split; [auto|]. intros x i [].
  - cbn [fold_left fst snd]. cbn [length] in Hb |- *.
    destruct (assign_slots_bounds nb l (seq 0 (ipow 3 N)) c st Hc)
      as (Hc1 & Hp1 & Hi1); [rewrite length_seq; lia|].
    rewrite length_seq in Hc1.
    destruct (fold_left (assign_slot N getIndex nb l) (seq 0 (ipow 3 N)) (c, st))
      as [c1 st1].
    cbn [fst snd] in *.
    destruct (IH c1 st1 ltac:(lia) ltac:(lia)) as (Hc2 & Hp2 & Hi2).
    split; [lia|]. split.
    + intros p Hp. apply Hp2, Hp1, Hp.
    + intros x i [<-|Hin] Hi.
      * apply Hp2, Hi1. apply in_seq. lia.
      * apply Hi2; assumption.
Qed.

Lemma assign_slot_traced_step (nb : Neighbors) (l : SimplexLeaf) (c : Z)
    (st : Store) (fr : list Z) (i : nat) :
  assign_slot_traced N getIndex nb l (c, st, fr) i
  = (assign_slot N getIndex nb l (c, st) i,
     if nz (getIndex nb st i) then fr else fr ++ [c])
  ∧ fst (assign_slot N getIndex nb l (c, st) i)
    = (if nz (getIndex nb st i) then c else u64 (c + 1)).
Proof.
  unfold assign_slot_traced, assign_slot.
  destruct (nz (getIndex nb st i)); split; reflexivity.
Qed.

(** The traced loop and the plain loop do the same thing; the trace grows
    by the counter values passed over. *)
Lemma assign_slots_traced (nb : Neighbors) (l : SimplexLeaf) (L : list nat)
    (c : Z) (st : Store) (fr : list Z) :
  (1 ≤ c)%Z → (c + Z.of_nat (length L) < 2 ^ 64)%Z →
  let t := fold_left (assign_slot_traced N getIndex nb l) L (c, st, fr) in
  fst t = fold_left (assign_slot N getIndex nb l) L (c, st)
  ∧ snd t = fr ++ seqZ c (fst (fst t) - c).
Proof.
  revert c st fr. induction L as [|i L IH]; intros c st fr Hc Hb; cbn zeta.
  - simpl. rewrite Z.sub_diag, seqZ_nil, app_nil_r by lia. split; reflexivity.
  - cbn [fold_left]. cbn [length] in Hb |- *.
    destruct (assign_slot_traced_step nb l c st fr i) as [Hst Hc1].
    rewrite Hst. clear Hst.
    destruct (assign_slot N getIndex nb l (c, st) i) as [c1 st1].
    cbn [fst] in Hc1.
    destruct (nz (getIndex nb st i)).
    + subst c1. apply IH; lia.
    + rewrite u64_small in Hc1 by lia. subst c1.
      destruct (IH (c + 1)%Z st1 (fr ++ [c]) ltac:(lia) ltac:(lia)) as [He Hf].
      split; [exact He|]. rewrite Hf, He.
      destruct (assign_slots_bounds nb l L (c + 1)%Z st1 ltac:(lia) ltac:(lia))
        as (Hb1 & _ & _).
      set (c' := fst (fold_left (assign_slot N getIndex nb l) L ((c + 1)%Z, st1)))
        in *.
      rewrite <- app_assoc. f_equal.
      rewrite (seqZ_cons c (c' - c)) by lia. cbn [app]. f_equal.
      f_equal; lia.
Qed.

Lemma assign_leaves_traced (V : list (Neighbors * SimplexLeaf)) (c : Z)
    (st : Store) (fr : list Z) :
  (1 ≤ c)%Z → (c + Z.of_nat (ipow 3 N * length V) < 2 ^ 64)%Z →
  let t :=
    fold_left
      (λ a x, fold_left (assign_slot_traced N getIndex (fst x) (snd x))
                        (seq 0 (ipow 3 N)) a)
      V (c, st, fr) in
  fst t
  = fold_left
      (λ a x, fold_left (assign_slot N getIndex (fst x) (snd x))
                        (seq 0 (ipow 3 N)) a)
      V (c, st)
  ∧ snd t = fr ++ seqZ c (fst (fst t) - c).
Proof.
  revert c st fr. induction V as [|[nb l] V IH]; intros c st fr Hc Hb; cbn zeta.
  - simpl. rewrite Z.sub_diag, seqZ_nil, app_nil_r by lia. split; reflexivity.
  - cbn [fold_left fst snd]. cbn [length] in Hb |- *.
    destruct (assign_slots_traced nb l (seq 0 (ipow 3 N)) c st fr Hc)
      as [He1 Hf1]; [rewrite length_seq; lia|].
    destruct (assign_slots_bounds nb l (seq 0 (ipow 3 N)) c st Hc)
      as (Hc1 & _ & _); [rewrite length_seq; lia|].
    rewrite length_seq in Hc1. rewrite <- He1 in Hc1.
    destruct (fold_left (assign_slot_traced N getIndex nb l) (seq 0 (ipow 3 N))
                (c, st, fr)) as [[c1 st1] fr1].
    cbn [fst snd] in *. rewrite <- He1.
    destruct (IH c1 st1 fr1 ltac:(lia) ltac:(lia)) as [He2 Hf2].
    split; [exact He2|].
    destruct (assign_leaves_bounds V c1 st1 ltac:(lia) ltac:(lia)) as (Hc2 & _ & _).
    rewrite <- He2 in Hc2.
    set (c2 := fst (fst (fold_left _ V (c1, st1, fr1)))) in *.
    rewrite Hf2, Hf1, <- app_assoc. f_equal.
    replace (c2 - c)%Z with ((c1 - c) + (c2 - c1))%Z by lia.
    rewrite seqZ_app by lia. f_equal. f_equal. lia.
Qed.

End IndexFacts.

Section ReachFacts.

Context `{P : Primitives}.
Variable Neighbors : Type.
Variable push : Neighbors → nat → list SimplexTree → Neighbors.

Lemma children_loop_In (mk : nat → Neighbors) (rest : list SimplexTree)
    (i : nat) (pre : list (Neighbors * SimplexLeaf)) (c : SimplexTree)
    (x : Neighbors * SimplexLeaf) :
  In c rest →
  (∀ nb, ∃ nb', In (nb', snd x) (visited push c nb)) →
  ∃ nb', In (nb', snd x)
           (children_loop
              (λ i c acc, visit push (λ nb l acc, acc ++ [(nb, l)]) c (mk i) acc)
              rest i pre).
Proof.
  intros Hin Hx. revert i pre. induction rest as [|c' rest IH]; intros i pre.
  - destruct Hin.
  - cbn [children_loop]. rewrite visit_prefix.
    rewrite (children_loop_visited
               (λ i c acc, visit push (λ nb l acc, acc ++ [(nb, l)]) c (mk i) acc)).
    + destruct Hin as [->|Hin].
      * destruct (Hx (mk i)) as [nb' Hnb']. exists nb'.
        apply in_or_app. left. apply in_or_app. right. exact Hnb'.
      * destruct (IH Hin (S i) []) as [nb' Hnb']. exists nb'.
        apply in_or_app. right. exact Hnb'.
    + clear. induction rest as [|c'' rest IH]; constructor; [|exact IH].
      intros j pre. rewrite (visit_prefix _ push c'' (mk j) pre).
      unfold visited. reflexivity.
Qed.

(** Every node without children below [t] that holds a leaf is visited. *)
Lemma descendant_visited (t u : SimplexTree) (l : SimplexLeaf) :
  descendant t u → children u = [] → leaf u = Some l →
  ∀ nb, ∃ nb', In (nb', l) (visited push t nb).
Proof.
  intros Hd Hu Hl. induction Hd as [t|t c u Hin Hd IH]; intros nb.
  - destruct t as [ty lf cs p d]. simpl in Hu, Hl. subst cs lf.
    exists nb. unfold visited. simpl. left. reflexivity.
  - destruct t as [ty lf cs p d]. simpl in Hin.
    destruct cs as [|c0 cs]; [destruct Hin|].
    unfold visited. cbn [visit].
    apply (children_loop_In (λ i, push nb i (c0 :: cs)) (c0 :: cs) 0 [] c
             (nb, l) Hin).
    intros nb0. apply IH; assumption.
Qed.

End ReachFacts.

(** ** Calling [assignIndices] twice *)

Section TwiceFacts.

Context `{P : Primitives}.
Variable N : nat.
Variable Neighbors : Type.
Variable getIndex : Neighbors → Store → nat → Z.

Lemma set_index_agree (c : Z) (x y : SimplexLeafSubspace) :
  set_index 0 x = set_index 0 y → set_index c x = set_index c y.
Proof.
  destruct x, y. unfold set_index. simpl. intros H. inversion H. reflexivity.
Qed.

Lemma set_index_idem (c d : Z) (x : SimplexLeafSubspace) :
  set_index c (set_index d x) = set_index c x.
Proof. destruct x. reflexivity. Qed.

Lemma assign_slot_quiet (nb : Neighbors) (l : SimplexLeaf) (c : Z)
    (st : Store) (i : nat) :
  getIndex nb st i = 0%Z →
  assign_slot N getIndex nb l (c, st) i
  = (u64 (c + 1), modify N (set_index c) (nth i (sub l) nullptr) st).
Proof. intros H. unfold assign_slot. rewrite H. reflexivity. Qed.

(** The walk writes index fields only. *)
Lemma assign_slots_only_index (nb : Neighbors) (l : SimplexLeaf)
    (L : list nat) (c : Z) (st : Store) (p : ptr) :
  set_index 0 (deref N (snd (fold_left (assign_slot N getIndex nb l) L (c, st))) p)
  = set_index 0 (deref N st p).
Proof.
  revert c st. induction L as [|i L IH]; intros c st; [reflexivity|].
  cbn [fold_left].
  assert (Hstep : ∃ c1 v, assign_slot N getIndex nb l (c, st) i
                          = (c1, modify N (set_index v) (nth i (sub l) nullptr) st)).
  { unfold assign_slot. destruct (nz (getIndex nb st i)); eauto. }
  destruct Hstep as (c1 & v & ->).
  rewrite IH, deref_modify.
  destruct (decide _) as [->|]; [apply set_index_idem|reflexivity].
Qed.

Lemma assign_leaves_only_index (V : list (Neighbors * SimplexLeaf)) (c : Z)
    (st : Store) (p : ptr) :
  set_index 0
    (deref N
       (snd (fold_left
               (λ a x, fold_left (assign_slot N getIndex (fst x) (snd x))
                                 (seq 0 (ipow 3 N)) a)
               V (c, st))) p)
  = set_index 0 (deref N st p).
Proof.
  revert c st. induction V as [|[nb l] V IH]; intros c st; [reflexivity|].
  cbn [fold_left fst snd].
  destruct (fold_left (assign_slot N getIndex nb l) (seq 0 (ipow 3 N)) (c, st))
    as [c1 st1] eqn:E.
  rewrite IH.
  pose proof (assign_slots_only_index nb l (seq 0 (ipow 3 N)) c st p) as H.
  rewrite E in H. exact H.
Qed.

(** Two runs of the loop from heaps that agree up to the indices, when no
    neighbor reports an index: the counters stay equal, the heaps keep
    agreeing up to the indices, and every record is either equal in the two
    results or untouched in both. *)
Lemma quiet_slots_sim (nb : Neighbors) (l : SimplexLeaf) (L : list nat)
    (c : Z) (a b : Store) :
  (∀ s i, In i L → getIndex nb s i = 0%Z) →
  (∀ p, set_index 0 (deref N a p) = set_index 0 (deref N b p)) →
  let ra := fold_left (assign_slot N getIndex nb l) L (c, a) in
  let rb := fold_left (assign_slot N getIndex nb l) L (c, b) in
  fst ra = fst rb
  ∧ (∀ p, deref N (snd ra) p = deref N (snd rb) p
          ∨ (deref N (snd ra) p = deref N a p
             ∧ deref N (snd rb) p = deref N b p)).
Proof.
  revert c a b. induction L as [|i L IH]; intros c a b Hq Hag; cbn zeta.
  - simpl. split; [reflexivity|]. intros p. right. split; reflexivity.
  - cbn [fold_left].
    rewrite !assign_slot_quiet by (apply Hq; left; reflexivity).
    set (s := nth i (sub l) nullptr).
    assert (Hag1 : ∀ p, set_index 0 (deref N (modify N (set_index c) s a) p)
                        = set_index 0 (deref N (modify N (set_index c) s b) p)).
    { intros p. rewrite !deref_modify. destruct (decide _); [|apply Hag].
      rewrite !set_index_idem. apply Hag. }
    destruct (IH (u64 (c + 1)) _ _ ltac:(intros; apply Hq; right; assumption) Hag1)
      as [Hc Hp].
    split; [exact Hc|]. intros p.
    destruct (Hp p) as [He|[Ha Hb]]; [left; exact He|].
    rewrite Ha, Hb, !deref_modify.
    destruct (decide (s = p)) as [->|].
    + left. apply set_index_agree, Hag.
    + right. split; reflexivity.
Qed.

Lemma quiet_leaves_sim (V : list (Neighbors * SimplexLeaf)) (c : Z)
    (a b : Store) :
  (∀ x s i, In x V → i < ipow 3 N → getIndex (fst x) s i = 0%Z) →
  (∀ p, set_index 0 (deref N a p) = set_index 0 (deref N b p)) →
  let run := fold_left
               (λ a x, fold_left (assign_slot N getIndex (fst x) (snd x))
                                 (seq 0 (ipow 3 N)) a) V in
  fst (run (c, a)) = fst (run (c, b))
  ∧ (∀ p, deref N (snd (run (c, a))) p = deref N (snd (run (c, b))) p
          ∨ (deref N (snd (run (c, a))) p = deref N a p
             ∧ deref N (snd (run (c, b))) p = deref N b p)).
Proof.
  revert c a b. induction V as [|[nb l] V IH]; intros c a b Hq Hag; cbn zeta.
  - simpl. split; [reflexivity|]. intros p. right. split; reflexivity.
  - cbn [fold_left fst snd].
    destruct (quiet_slots_sim nb l (seq 0 (ipow 3 N)) c a b) as [Hc1 Hp1].
    { intros s i Hin. apply (Hq (nb, l)); [left; reflexivity|].
      apply in_seq in Hin. lia. }
    { exact Hag. }
    pose proof (assign_slots_only_index nb l (seq 0 (ipow 3 N)) c a) as Ha1.
    pose proof (assign_slots_only_index nb l (seq 0 (ipow 3 N)) c b) as Hb1.
    destruct (fold_left (assign_slot N getIndex nb l) (seq 0 (ipow 3 N)) (c, a))
      as [ca a1].
    destruct (fold_left (assign_slot N getIndex nb l) (seq 0 (ipow 3 N)) (c, b))
      as [cb b1].
    cbn [fst snd] in *. subst cb.
    destruct (IH ca a1 b1) as [Hc2 Hp2].
    { intros x s i Hin. apply Hq. right. exact Hin. }
    { intros p. rewrite Ha1, Hb1. apply Hag. }
    split; [exact Hc2|]. intros p.
    destruct (Hp2 p) as [He|[Ha Hb]]; [left; exact He|].
    rewrite Ha, Hb. exact (Hp1 p).
Qed.

End TwiceFacts.

(** C9, as amended: a second call of [assignIndices] assigns to every
    subspace exactly the index of the first call on every tree in which no
    neighbor reports an index for a subspace of a visited leaf (as in a tree
    that is a single leaf, whose neighbors are all absent).  The final
    counters agree as well. *)
Theorem assignIndices_twice_without_neighbors `{P : Primitives} (N : nat)
    (Neighbors : Type) (getIndex : Neighbors → Store → nat → Z)
    (push : Neighbors → nat → list SimplexTree → Neighbors)
    (empty : Neighbors) (t : SimplexTree) (st : Store) :
  (∀ x s i, In x (visited push t empty) → i < ipow 3 N →
            getIndex (fst x) s i = 0%Z) →
  let first := assignIndices N getIndex push empty t st in
  let second := assignIndices N getIndex push empty t (snd first) in
  fst second = fst first
  ∧ ∀ p, deref N (snd second) p = deref N (snd first) p.
Proof.
  intros Hq first second.
  assert (Hrun : ∀ s, assignIndices N getIndex push empty t s
            = fold_left
                (λ a x, fold_left (assign_slot N getIndex (fst x) (snd x))
                                  (seq 0 (ipow 3 N)) a)
                (visited push t empty) (1%Z, s)).
  { intros s. unfold assignIndices. rewrite assignIndices_walk_visit.
    apply (visit_fold Neighbors push
             (λ nb l acc,
                fold_left (assign_slot N getIndex nb l) (seq 0 (ipow 3 N)) acc)). }
  destruct (quiet_leaves_sim N Neighbors getIndex (visited push t empty) 1%Z
              st (snd first) Hq) as [Hc Hp].
  { intros p. subst first. rewrite Hrun.
    symmetry. apply assign_leaves_only_index. }
  cbn zeta in Hc, Hp. rewrite <- !Hrun in Hc, Hp.
  fold first in Hc, Hp. fold second in Hc, Hp.
  split; [symmetry; exact Hc|]. intros p.
  destruct (Hp p) as [He|[_ Hb]]; [symmetry; exact He|exact Hb].
Qed.

Lemma assignIndices_twice_without_neighbors_witness :
  let first := SampleIndices.assign (Sample.ambiguous_leaf 1) (Sample.heap 9) in
  let second := SampleIndices.assign (Sample.ambiguous_leaf 1) (snd first) in
  fst second = fst first
  ∧ ∀ p, deref 2 (snd second) p = deref 2 (snd first) p.
Proof.
  apply (assignIndices_twice_without_neighbors 2 SimplexNeighbors.t
           (SimplexNeighbors.getIndex 2) (SimplexNeighbors.push 2)
           (SimplexNeighbors.empty 2) (Sample.ambiguous_leaf 1) (Sample.heap 9)).
  intros x s i Hin Hi.
  vm_compute in Hin. destruct Hin as [<-|[]]. cbn [fst].
  do 9 (destruct i as [|i]; [reflexivity|]).
  exfalso. unfold ipow in Hi. simpl in Hi. lia.
Defined.

(** The tree built in [SampleBuild]: a branch whose children 0 and 1 are
    AMBIGUOUS leaves sharing the records 3, 6 and 9, and whose children 2
    and 3 are EMPTY and FILLED without a leaf. *)
Lemma sample_build_shape :
  fst (fst SampleBuild.root) = true
  ∧ type SampleBuild.tree = AMBIGUOUS
  ∧ leaf SampleBuild.tree = None
  ∧ map (λ c, (type c, sub <$> leaf c)) (children SampleBuild.tree)
    = [(AMBIGUOUS, Some [1; 2; 3; 4; 5; 6; 7; 8; 9]);
       (AMBIGUOUS, Some [3; 10; 11; 6; 12; 13; 9; 14; 15]);
       (EMPTY, None); (FILLED, None)].
Proof. vm_compute. repeat split. Qed.

(** C9 as stated fails on the tree [SampleBuild.tree] (two adjacent
    AMBIGUOUS leaves that share a face, built by [evalLeaf] and
    [collectChildren]): the records at the addresses 1 to 15 receive the
    indices 1 to 15 on the first call, but subspace 3 of child 0, at address
    4, holds index 4 after the first call and index 3 after the second,
    which is also the index of the record at address 3.  On the second call
    the counter restarts at 1 while the neighbor already reports the index
    of the shared corner, so the counter is not advanced past it. *)
Lemma assignIndices_twice_differs :
  map (λ p, index (deref 2 SampleIndices.once p)) (seq 1 15)
  = map Z.of_nat (seq 1 15)
  ∧ index (deref 2 SampleIndices.once 4) = 4%Z
  ∧ index (deref 2 SampleIndices.twice 4) = 3%Z
  ∧ index (deref 2 SampleIndices.twice 3) = 3%Z
  ∧ index (deref 2 SampleIndices.twice 4) ≠ index (deref 2 SampleIndices.once 4).
Proof.
  split; [vm_compute; reflexivity|].
  split; [vm_compute; reflexivity|]. split; [vm_compute; reflexivity|].
  split; [vm_compute; reflexivity|]. vm_compute. discriminate.
Qed.

(** * Further properties of the same functions *)

(** ** The digits of the parent subspace *)

Lemma digit_fromPosAndFloating (N : nat) (p f : Z) (d : nat) :
  d < N →
  NeighborIndex.digit (NeighborIndex.fromPosAndFloating N p f) d
  = if Z.testbit f (Z.of_nat d) then 1
    else if Z.testbit p (Z.of_nat d) then 2 else 0.
Proof.
  induction N as [|n IH]; intros Hd; [lia|].
  cbn [NeighborIndex.fromPosAndFloating].
  set (x := NeighborIndex.fromPosAndFloating n p f) in *.
  assert (Hx : x < 3 ^ n) by apply fromPosAndFloating_lt.
  set (c := if Z.testbit f (Z.of_nat n) then 1
            else if Z.testbit p (Z.of_nat n) then 2 else 0).
  assert (Hc : c < 3) by (subst c; repeat case_match; lia).
  assert (H3 : ∀ k, 3 ^ k ≠ 0) by (intros k; apply Nat.pow_nonzero; lia).
  unfold NeighborIndex.digit in *.
  destruct (decide (d = n)) as [->|Hne].
  - rewrite Nat.div_add by apply H3.
    rewrite Nat.div_small by exact Hx.
    cbn [Nat.add]. rewrite Nat.mod_small by exact Hc. reflexivity.
  - assert (Hlt : d < n) by lia.
    replace (c * 3 ^ n) with (c * 3 ^ (n - d - 1) * 3 * 3 ^ d).
    + rewrite Nat.div_add by apply H3.
      rewrite Nat.Div0.mod_add. apply IH, Hlt.
    + replace n with ((n - d - 1) + 1 + d) at 2 by lia.
      rewrite !Nat.pow_add_r. cbn [Nat.pow]. lia.
Qed.

Lemma u8_high_bits_clear (x : Z) :
  (∀ k, (8 ≤ k)%Z → Z.testbit x k = false) → u8 x = x.
Proof.
  intros H. apply Z.bits_inj'. intros k Hk. unfold u8.
  destruct (Z.lt_ge_cases k 8) as [Hlt|Hge].
  - apply Z.mod_pow2_bits_low. lia.
  - rewrite Z.mod_pow2_bits_high by lia. symmetry. apply H, Hge.
Qed.

Lemma u8_mask (n : nat) (p : nat → bool) :
  n ≤ 8 → u8 (NeighborIndex.mask n p) = NeighborIndex.mask n p.
Proof.
  intros Hn. apply u8_high_bits_clear. intros k Hk.
  replace k with (Z.of_nat (Z.to_nat k)) by lia.
  rewrite testbit_mask. rewrite bool_decide_eq_false_2 by lia. reflexivity.
Qed.

Lemma mask_high_bits (n : nat) (p : nat → bool) (k : Z) :
  (Z.of_nat n ≤ k)%Z → Z.testbit (NeighborIndex.mask n p) k = false.
Proof.
  intros Hk. replace k with (Z.of_nat (Z.to_nat k)) by lia.
  rewrite testbit_mask. rewrite bool_decide_eq_false_2 by lia. reflexivity.
Qed.

Lemma bit_high_bits (n : nat) (k : Z) :
  (Z.of_nat n < k)%Z → Z.testbit (bit n) k = false.
Proof.
  intros Hk. replace k with (Z.of_nat (Z.to_nat k)) by lia.
  rewrite testbit_bit. apply bool_decide_eq_false_2. lia.
Qed.

Lemma fold_target_step_low (N : nat) (fl ps : Z) (n : nat) :
  n ≤ 8 →
  fold_left (target_step N fl ps 0) (seq 0 n) (0%Z, 0%Z)
  = (NeighborIndex.mask n
       (λ d, Z.testbit fl (Z.of_nat d) || Z.testbit ps (Z.of_nat d)), 0%Z).
Proof.
  induction n as [|n IH]; intros Hn; [reflexivity|].
  rewrite seq_S, fold_left_app, IH by lia.
  change (0 + n) with n. cbn [fold_left target_step].
  rewrite Z.land_0_l.
  change (negb (Z.land ps (bit n) =? 0)%Z) with (nz (Z.land ps (bit n))).
  rewrite !nz_land_bit.
  cbn [NeighborIndex.mask].
  destruct (Z.testbit fl (Z.of_nat n) || Z.testbit ps (Z.of_nat n)) eqn:Hc.
  - f_equal. apply u8_high_bits_clear. intros k Hk.
    rewrite Z.lor_spec, mask_high_bits, bit_high_bits by lia. reflexivity.
  - apply orb_false_elim in Hc as [_ Hp].
    rewrite land_bit, Hp, !Z.lor_0_r. reflexivity.
Qed.

Lemma contribution_target_digit (N i j d : nat) :
  N ≤ 8 → i < ipow 2 N → d < N →
  NeighborIndex.digit (contribution_target N i j) d
  = if NeighborIndex.digit j d =? 0 then 0 else 1.
Proof.
  intros HN Hi Hd. rewrite contribution_target_any_corner by exact Hi.
  unfold contribution_target. change (Z.of_nat 0) with 0%Z.
  rewrite fold_target_step_low by exact HN.
  rewrite digit_fromPosAndFloating by exact Hd.
  rewrite testbit_mask, bool_decide_eq_true_2 by exact Hd.
  rewrite testbit_floating, testbit_pos by exact Hd.
  unfold NeighborIndex.axis_floating, NeighborIndex.axis_high.
  assert (Hm : NeighborIndex.digit j d < 3)
    by (unfold NeighborIndex.digit; apply Nat.mod_upper_bound; lia).
  rewrite Z.bits_0.
  destruct (NeighborIndex.digit j d) as [|[|[|?]]]; cbn; try reflexivity; lia.
Qed.

(** X1: in [collectChildren], for a child corner [i < 2^N] the parent
    subspace that receives subspace [j] of the child has, on every axis,
    the digit LOW where [j] is LOW and FLOATING where [j] is FLOATING or
    HIGH.  The parent subspaces with an axis fixed HIGH are never the
    target of a contribution. *)
Theorem contribution_target_never_high (N i j d : nat) :
  N ≤ 8 → i < ipow 2 N → d < N →
  NeighborIndex.digit (contribution_target N i j) d
  = (if NeighborIndex.digit j d =? 0 then 0 else 1)
  ∧ NeighborIndex.axis_high (contribution_target N i j) d = false
  ∧ NeighborIndex.axis_floating (contribution_target N i j) d
    = negb (NeighborIndex.digit j d =? 0).
Proof.
  intros HN Hi Hd.
  pose proof (contribution_target_digit N i j d HN Hi Hd) as H.
  unfold NeighborIndex.axis_high, NeighborIndex.axis_floating.
  rewrite H. destruct (NeighborIndex.digit j d =? 0); repeat split.
Qed.

Lemma contribution_target_never_high_witness :
  NeighborIndex.digit (contribution_target 2 1 5) 0
  = (if NeighborIndex.digit 5 0 =? 0 then 0 else 1)
  ∧ NeighborIndex.axis_high (contribution_target 2 1 5) 0 = false
  ∧ NeighborIndex.axis_floating (contribution_target 2 1 5) 0
    = negb (NeighborIndex.digit 5 0 =? 0).
Proof.
  apply (contribution_target_never_high 2 1 5 0);
    [lia | vm_compute; lia | lia].
Defined.

(** ** What the vertex solver writes *)

Lemma nth_insert {A : Type} (l : list A) (i j : nat) (x d : A) :
  nth j (<[i:=x]> l) d = if decide (i = j ∧ i < length l) then x else nth j l d.
Proof. rewrite !nth_lookup, list_lookup_insert. case_decide; reflexivity. Qed.

Lemma dimension_S (n s : nat) :
  NeighborIndex.dimension (S n) s
  = NeighborIndex.dimension n s
    + (if NeighborIndex.axis_floating s n then 1 else 0).
Proof.
  unfold NeighborIndex.dimension.
  rewrite seq_S, List.filter_app, length_app. cbn [List.filter Nat.add].
  destruct (NeighborIndex.axis_floating s n); reflexivity.
Qed.

Section UnpackFacts.

Context `{P : Primitives}.
Variable N : nat.

Lemma fold_unpack_step (region : Region) (s : nat) (position v : list double)
    (n : nat) :
  n ≤ N →
  let r :=
    fold_left
      (unpack_step region (NeighborIndex.floating N s) (NeighborIndex.pos N s)
                   position)
      (seq 0 n) (0, v) in
  fst r = NeighborIndex.dimension n s
  ∧ length (snd r) = length v
  ∧ ∀ i, i < length v →
      nth i (snd r) dzero
      = if bool_decide (i < n)
        then (if NeighborIndex.axis_floating s i
              then nth (NeighborIndex.dimension i s) position dzero
              else if NeighborIndex.axis_high s i then region_upper region i
                   else region_lower region i)
        else nth i v dzero.
Proof.
  induction n as [|n IH]; intros Hn r.
  - subst r. cbn. repeat split. 
  - subst r. rewrite seq_S, fold_left_app. change (0 + n) with n.
    destruct IH as (Hj & Hlen & Hnth); [lia|].
    destruct (fold_left _ (seq 0 n) (0, v)) as [j vn] eqn:E.
    cbn [fst snd] in Hj, Hlen, Hnth.
    cbn [fold_left unpack_step]. rewrite !nz_land_bit.
    rewrite testbit_floating, testbit_pos by lia.
    rewrite dimension_S.
    assert (Hcase : ∀ x i, i < length v →
      nth i (<[n:=x]> vn) dzero
      = if bool_decide (i < S n)
        then (if decide (i = n) then x
              else if NeighborIndex.axis_floating s i
                   then nth (NeighborIndex.dimension i s) position dzero
                   else if NeighborIndex.axis_high s i then region_upper region i
                        else region_lower region i)
        else nth i v dzero).
    { intros x i Hi. rewrite nth_insert, Hnth by exact Hi.
      destruct (decide (i = n)) as [->|Hne].
      - rewrite decide_True by (split; [reflexivity|lia]).
        rewrite bool_decide_eq_true_2 by lia. reflexivity.
      - rewrite decide_False by (intros [He _]; congruence).
        destruct (decide (i < n)).
        + rewrite !bool_decide_eq_true_2 by lia. reflexivity.
        + rewrite !bool_decide_eq_false_2 by lia. reflexivity. }
    destruct (NeighborIndex.axis_floating s n) eqn:Hf;
      [|destruct (NeighborIndex.axis_high s n) eqn:Hh];
      cbn [fst snd]; rewrite length_insert;
      (split; [lia|]); (split; [exact Hlen|]);
      intros i Hi; rewrite Hcase by exact Hi;
      destruct (bool_decide (i < S n)); try reflexivity;
      destruct (decide (i = n)) as [->|Hne]; try reflexivity;
      rewrite ?Hf, ?Hh, ?Hj; reflexivity.
Qed.

Lemma Unroller_only_vert (k : nat) (l : SimplexLeaf) (solved : list bool)
    (region : Region) (st : Store) (p : ptr) :
  set_vert [] (deref N (fst (Unroller N k l solved region st)) p)
  = set_vert [] (deref N st p).
Proof.
  revert st. induction k as [|s IH]; intros st; [reflexivity|].
  cbn [Unroller].
  destruct (nth s solved false); cbn [negb].
  - specialize (IH st). destruct (Unroller N s l solved region st). exact IH.
  - unfold solve_subspace.
    match goal with
    | |- context [Unroller N s l solved region ?st1] => specialize (IH st1)
    end.
    destruct (Unroller N s l solved region _) as [st2 rest].
    cbn [fst] in IH |- *. rewrite IH, deref_modify.
    case_decide; [subst|]; reflexivity.
Qed.

Lemma Unroller_all_solved (k : nat) (l : SimplexLeaf) (solved : list bool)
    (region : Region) (st : Store) :
  (∀ s, s < k → nth s solved false = true) →
  fst (Unroller N k l solved region st) = st.
Proof.
  induction k as [|s IH]; intros H; [reflexivity|].
  cbn [Unroller]. rewrite (H s) by lia. cbn [negb].
  specialize (IH ltac:(intros; apply H; lia)).
  destruct (Unroller N s l solved region st). exact IH.
Qed.

End UnpackFacts.

(** X2: [Unroller] changes nothing in the heap but vertices, and those only
    in the records of the subspaces that are not already solved, so the
    data borrowed from a neighbor stays as it is; with every subspace already
    solved the heap is left untouched. *)
Theorem unroller_writes_only_unsolved_vertices `{P : Primitives} (N : nat)
    (l : SimplexLeaf) (already_solved : list bool) (region : Region)
    (st : Store) :
  let r := Unroller N (ipow 3 N) l already_solved region st in
  (∀ p, set_vert [] (deref N (fst r) p) = set_vert [] (deref N st p))
  ∧ (∀ p, (∀ s, s < ipow 3 N → nth s already_solved false = false →
                nth s (sub l) nullptr ≠ p) →
          deref N (fst r) p = deref N st p)
  ∧ ((∀ s, s < ipow 3 N → nth s already_solved false = true) → fst r = st).
Proof.
  intros r. split; [|split].
  - intros p. apply Unroller_only_vert.
  - intros p Hp.
    apply (Unroller_spec N (ipow 3 N) l already_solved region st), Hp.
  - apply Unroller_all_solved.
Qed.

(** X3: after [Unroller], the vertex of a subspace that was not already
    solved (and whose record no other unsolved subspace shares) lies on the
    region's upper bound on every axis fixed HIGH, on its lower bound on
    every axis fixed LOW, and takes the components of the bounded QEF
    solution, in order, on the floating axes.  The counter [j] of the
    unpacking loop ends at the dimension of the subspace, as the source
    asserts. *)
Theorem unroller_vertex_coordinates `{P : Primitives} (N : nat)
    (l : SimplexLeaf) (already_solved : list bool) (region : Region)
    (st : Store) (s i : nat) :
  s < ipow 3 N → nth s already_solved false = false →
  (∀ s', s' < ipow 3 N → s' ≠ s → nth s' already_solved false = false →
         nth s' (sub l) nullptr ≠ nth s (sub l) nullptr) →
  length (vert (deref N st (nth s (sub l) nullptr))) = N →
  i < N →
  let sol :=
    fst (solveBounded (contained_qef_sum N st l s)
           (region_subspace (NeighborIndex.floating N s) region)) in
  let st' := fst (Unroller N (ipow 3 N) l already_solved region st) in
  let v := vert (deref N st' (nth s (sub l) nullptr)) in
  length v = N
  ∧ nth i v dzero
    = (if NeighborIndex.axis_floating s i
       then nth (NeighborIndex.dimension i s) sol dzero
       else if NeighborIndex.axis_high s i then region_upper region i
            else region_lower region i)
  ∧ fst (fold_left
           (unpack_step region (NeighborIndex.floating N s)
                        (NeighborIndex.pos N s) sol)
           (seq 0 N) (0, vert (deref N st (nth s (sub l) nullptr))))
    = NeighborIndex.dimension N s.
Proof.
  intros Hs Hu Hsep Hlen Hi. cbv zeta.
  destruct (Unroller_spec N (ipow 3 N) l already_solved region st)
    as (_ & _ & _ & Hv).
  specialize (Hv s Hs Hu Hsep).
  destruct (fold_unpack_step N region s
              (fst (solveBounded (contained_qef_sum N st l s)
                      (region_subspace (NeighborIndex.floating N s) region)))
              (vert (deref N st (nth s (sub l) nullptr))) N (le_n N))
    as (Hj & Hl & Hn).
  rewrite Hv. unfold unpack_vertex.
  split; [rewrite Hl; exact Hlen|]. split; [|exact Hj].
  rewrite Hn by lia. rewrite bool_decide_eq_true_2 by exact Hi. reflexivity.
Qed.

Lemma unroller_vertex_coordinates_witness :
  let l := Sample.leaf_at 1 in
  let st := Sample.heap 18 in
  let solved := replicate 9 false in
  let sol :=
    fst (solveBounded (Primitives := Sample.prims) (contained_qef_sum 2 st l 3)
           (region_subspace (NeighborIndex.floating 2 3) Sample.region)) in
  let st' := fst (Unroller 2 (ipow 3 2) l solved Sample.region st) in
  let v := vert (deref 2 st' (nth 3 (sub l) nullptr)) in
  length v = 2
  ∧ nth 1 v dzero
    = (if NeighborIndex.axis_floating 3 1
       then nth (NeighborIndex.dimension 1 3) sol dzero
       else if NeighborIndex.axis_high 3 1 then region_upper Sample.region 1
            else region_lower Sample.region 1)
  ∧ fst (fold_left
           (unpack_step Sample.region (NeighborIndex.floating 2 3)
                        (NeighborIndex.pos 2 3) sol)
           (seq 0 2) (0, vert (deref 2 st (nth 3 (sub l) nullptr))))
    = NeighborIndex.dimension 2 3.
Proof.
  apply (unroller_vertex_coordinates 2 (Sample.leaf_at 1) (replicate 9 false)
           Sample.region (Sample.heap 18) 3 1).
  - vm_compute. lia.
  - reflexivity.
  - intros s' Hs' Hne _. vm_compute in Hs'.
    destruct s' as [|[|[|[|[|[|[|[|[|?]]]]]]]]]; vm_compute; try lia; congruence.
  - reflexivity.
  - lia.
Defined.

(** ** What [saveVertexSigns] writes *)

Section SignFrame.

Context `{P : Primitives}.
Variable N : nat.

Lemma vertex_sign_step_frame (tp : Tape) (region : Region) (l : SimplexLeaf)
    (solved : list bool) (w : World) (i : nat) :
  let w' := vertex_sign_step N tp region l solved w i in
  (∀ p, set_inside false (deref N (store w') p)
        = set_inside false (deref N (store w) p))
  ∧ pool w' = pool w
  ∧ (∀ k, k ≠ 0 → slots w' k = slots w k).
Proof.
  unfold vertex_sign_step. destruct (nth i solved false); cbn zeta.
  - repeat split.
  - cbn [with_store array_set store pool slots]. split; [|split].
    + intros p. rewrite deref_modify. case_decide; [subst|]; reflexivity.
    + reflexivity.
    + intros k Hk. rewrite fn_lookup_insert_ne by congruence. reflexivity.
Qed.

Lemma fold_vertex_sign_step_frame (tp : Tape) (region : Region)
    (l : SimplexLeaf) (solved : list bool) (L : list nat) (w : World) :
  let w' := fold_left (vertex_sign_step N tp region l solved) L w in
  (∀ p, set_inside false (deref N (store w') p)
        = set_inside false (deref N (store w) p))
  ∧ pool w' = pool w
  ∧ (∀ k, k ≠ 0 → slots w' k = slots w k)
  ∧ ((∀ i, In i L → nth i solved false = true) → w' = w).
Proof.
  revert w. induction L as [|i L IH]; intros w; cbn [fold_left].
  - repeat split.
  - destruct (IH (vertex_sign_step N tp region l solved w i))
      as (Hs & Hp & Hk & Hid).
    destruct (vertex_sign_step_frame tp region l solved w i)
      as (Hs1 & Hp1 & Hk1).
    split; [|split; [|split]].
    + intros p. rewrite Hs. apply Hs1.
    + rewrite Hp. exact Hp1.
    + intros k Hne. rewrite Hk by exact Hne. apply Hk1, Hne.
    + intros Hall. rewrite Hid by (intros j Hj; apply Hall; right; exact Hj).
      unfold vertex_sign_step. rewrite (Hall i) by (left; reflexivity).
      reflexivity.
Qed.

End SignFrame.

(** X4: [saveVertexSigns] writes nothing but the inside flags of heap
    records and slot 0 of the array evaluator: indices, vertices, QEFs,
    reference counts, the pools and the other evaluator slots stay as they
    are.  When every subspace is already solved it changes nothing at all. *)
Theorem saveVertexSigns_writes_only_inside `{P : Primitives} (N : nat)
    (l : SimplexLeaf) (tp : Tape) (region : Region) (already_solved : list bool)
    (w : World) :
  let w' := saveVertexSigns N l tp region already_solved w in
  (∀ p, set_inside false (deref N (store w') p)
        = set_inside false (deref N (store w) p))
  ∧ pool w' = pool w
  ∧ (∀ k, k ≠ 0 → slots w' k = slots w k)
  ∧ ((∀ i, i < ipow 3 N → nth i already_solved false = true) → w' = w).
Proof.
  intros w'. subst w'. unfold saveVertexSigns.
  destruct (fold_vertex_sign_step_frame N tp region l already_solved
              (seq 0 (ipow 3 N)) w) as (Hs & Hp & Hk & Hid).
  repeat split; try assumption.
  intros Hall. apply Hid. intros i Hi. apply Hall.
  apply in_seq in Hi. lia.
Qed.

(** ** Reference counts *)

Lemma u32_small (x : Z) : (0 ≤ x < 2 ^ 32)%Z → u32 x = x.
Proof. intros H. unfold u32. apply Z.mod_small. exact H. Qed.

Section ReleaseFacts.

Context `{P : Primitives}.
Variable N : nat.

Lemma deref_insert (st : Store) (p q : ptr) (x : SimplexLeafSubspace) :
  deref N (<[p := x]> st) q = if decide (p = q) then x else deref N st q.
Proof.
  unfold deref. unfold Store in *. case_decide.
  - subst. rewrite lookup_insert_eq. reflexivity.
  - rewrite lookup_insert_ne by assumption. reflexivity.
Qed.

Lemma set_refcount_id (x : SimplexLeafSubspace) :
  set_refcount (refcount x) x = x.
Proof. destruct x. reflexivity. Qed.

(** One round of the loop of [releaseTo] on a record that is counted. *)
Lemma release_sub_step (w : World) (s : ptr) :
  (1 ≤ refcount (deref N (store w) s) < 2 ^ 32)%Z →
  let w1 := release_sub N w s in
  let rc := refcount (deref N (store w) s) in
  (∀ p, p ≠ s → deref N (store w1) p = deref N (store w) p)
  ∧ refcount (deref N (store w1) s) = (rc - 1)%Z
  ∧ (rc = 1%Z →
       deref N (store w1) s = subspace_reset N
       ∧ free_subs (pool w1) = s :: free_subs (pool w))
  ∧ (rc ≠ 1%Z →
       deref N (store w1) s = set_refcount (rc - 1) (deref N (store w) s)
       ∧ free_subs (pool w1) = free_subs (pool w))
  ∧ next_sub (pool w1) = next_sub (pool w)
  ∧ leaves_returned (pool w1) = leaves_returned (pool w)
  ∧ trees_returned (pool w1) = trees_returned (pool w)
  ∧ slots w1 = slots w.
Proof.
  intros Hrc w1 rc. subst w1. unfold release_sub.
  fold rc. rewrite u32_small by (subst rc; lia).
  destruct (rc - 1 =? 0)%Z eqn:E.
  - apply Z.eqb_eq in E.
    cbn [put_sub with_store store pool slots free_subs next_sub
         leaves_returned trees_returned].
    repeat split.
    + intros p Hp. rewrite deref_insert, decide_False by congruence.
      apply deref_modify_ne. congruence.
    + rewrite deref_insert, decide_True by reflexivity. cbn. lia.
    + rewrite deref_insert, decide_True by reflexivity. reflexivity.
    + lia.
    + lia.
  - apply Z.eqb_neq in E.
    cbn [with_store store pool slots].
    repeat split.
    + intros p Hp. apply deref_modify_ne. congruence.
    + rewrite deref_modify_eq. reflexivity.
    + lia.
    + lia.
    + rewrite deref_modify_eq. reflexivity.
Qed.

Lemma fold_release_sub (L : list ptr) (w : World) :
  (∀ p, In p L →
     (Z.of_nat (count_occ Nat.eq_dec L p)
      ≤ refcount (deref N (store w) p) < 2 ^ 32)%Z) →
  let w' := fold_left (release_sub N) L w in
  let held p := Z.of_nat (count_occ Nat.eq_dec L p) in
  let last p := In p L ∧ refcount (deref N (store w) p) = held p in
  (∀ p, refcount (deref N (store w') p)
        = (refcount (deref N (store w) p) - held p)%Z)
  ∧ (∀ p, last p →
          deref N (store w') p = subspace_reset N
          ∧ In p (free_subs (pool w')))
  ∧ (∀ p, ¬ last p →
          deref N (store w') p
          = set_refcount (refcount (deref N (store w) p) - held p)
                         (deref N (store w) p)
          ∧ (In p (free_subs (pool w')) ↔ In p (free_subs (pool w))))
  ∧ next_sub (pool w') = next_sub (pool w)
  ∧ leaves_returned (pool w') = leaves_returned (pool w)
  ∧ trees_returned (pool w') = trees_returned (pool w)
  ∧ slots w' = slots w.
Proof.
  revert w. induction L as [|s L IH]; intros w H; cbn zeta.
  - cbn [fold_left count_occ]. change (Z.of_nat 0) with 0%Z.
    split; [intros p; lia|]. split; [intros p [[] _]|].
    split; [|repeat split].
    intros p _. rewrite Z.sub_0_r, set_refcount_id. split; reflexivity.
  - cbn [fold_left].
    assert (Hs : (1 ≤ refcount (deref N (store w) s) < 2 ^ 32)%Z).
    { specialize (H s (or_introl eq_refl)).
      rewrite count_occ_cons_eq in H by reflexivity. lia. }
    destruct (release_sub_step w s Hs)
      as (Hne & Hrc & Hone & Hmore & Hn1 & Hl1 & Ht1 & Hsl1).
    set (w1 := release_sub N w s) in *.
    assert (Hcnt : ∀ p, p ≠ s →
              count_occ Nat.eq_dec (s :: L) p = count_occ Nat.eq_dec L p).
    { intros p Hp. apply count_occ_cons_neq. congruence. }
    assert (Hcs : count_occ Nat.eq_dec (s :: L) s
                  = S (count_occ Nat.eq_dec L s)).
    { apply count_occ_cons_eq. reflexivity. }
    assert (H1 : ∀ p, In p L →
              (Z.of_nat (count_occ Nat.eq_dec L p)
               ≤ refcount (deref N (store w1) p) < 2 ^ 32)%Z).
    { intros p Hp. destruct (decide (p = s)) as [->|Hps].
      - specialize (H s (or_introl eq_refl)). rewrite Hcs in H. lia.
      - rewrite Hne by exact Hps. specialize (H p (or_intror Hp)).
        rewrite Hcnt in H by exact Hps. exact H. }
    destruct (IH w1 H1) as (Ia & Ib & Ic & In_ & Il & It & Isl).
    assert (HinL : ∀ p, In p L ↔ 0 < count_occ Nat.eq_dec L p).
    { intros p. rewrite (count_occ_In Nat.eq_dec). lia. }
    split; [|split; [|split]].
    + intros p. rewrite Ia. destruct (decide (p = s)) as [->|Hps].
      * rewrite Hrc, Hcs. lia.
      * rewrite Hne, Hcnt by exact Hps. reflexivity.
    + intros p [Hin Hlast]. destruct (decide (p = s)) as [->|Hps].
      * rewrite Hcs in Hlast.
        destruct (decide (refcount (deref N (store w) s) = 1%Z)) as [H1'|H1'].
        -- destruct (Hone H1') as [Hreset Hfree].
           assert (Hz : count_occ Nat.eq_dec L s = 0) by lia.
           destruct (Ic s) as [Hd Hf].
           { intros [Hin' _]. apply HinL in Hin'. lia. }
           rewrite Hd, Hreset, Hz. split.
           ++ cbn. reflexivity.
           ++ apply Hf. rewrite Hfree. left. reflexivity.
        -- apply Ib. split.
           ++ apply HinL. lia.
           ++ rewrite Hrc. lia.
      * destruct Hin as [Heq|Hin]; [congruence|].
        apply Ib. split; [exact Hin|].
        rewrite Hne by exact Hps. rewrite Hlast, Hcnt by exact Hps.
        reflexivity.
    + intros p Hnl. destruct (decide (p = s)) as [->|Hps].
      * assert (Hgt : refcount (deref N (store w) s) ≠ 1%Z
                      ∧ refcount (deref N (store w) s)
                        ≠ Z.of_nat (S (count_occ Nat.eq_dec L s))).
        { specialize (H s (or_introl eq_refl)). rewrite Hcs in H.
          assert (Hn : refcount (deref N (store w) s)
                       ≠ Z.of_nat (S (count_occ Nat.eq_dec L s))).
          { intros He. apply Hnl. split; [left; reflexivity|].
            rewrite Hcs. exact He. }
          split; [|exact Hn]. lia. }
        destruct Hgt as [Hn1' Hn2].
        destruct (Hmore Hn1') as [Hd1 Hf1].
        destruct (Ic s) as [Hd Hf].
        { intros [_ He]. rewrite Hrc in He. lia. }
        rewrite Hd, Hf, Hf1, Hrc, Hd1, Hcs. split; [|reflexivity].
        unfold set_refcount. cbn [inside index vert qef refcount].
        f_equal. lia.
      * destruct (Ic p) as [Hd Hf].
        { intros [Hin He]. apply Hnl. split; [right; exact Hin|].
          rewrite Hne in He by exact Hps. rewrite He, Hcnt by exact Hps.
          reflexivity. }
        rewrite Hd, Hf, Hne, Hcnt by exact Hps. split; [reflexivity|].
        destruct (decide (refcount (deref N (store w) s) = 1%Z)) as [H1'|H1'].
        -- destruct (Hone H1') as [_ ->]. cbn [In]. split; [|tauto].
           intros [He|Hi]; [congruence|exact Hi].
        -- destruct (Hmore H1') as [_ ->]. reflexivity.
    + rewrite In_, Il, It, Isl. repeat split; assumption.
Qed.

End ReleaseFacts.

(** X5: [SimplexLeaf::releaseTo] takes from every subspace record one
    reference per slot of the leaf that holds it.  A record whose count
    thereby reaches zero is reset and handed to the subspace pool; any other
    record keeps its data and stays out of the pool.  The leaf itself goes
    back to the leaf pool. *)
Theorem leaf_releaseTo_counts_references `{P : Primitives} (N : nat)
    (l : SimplexLeaf) (w : World) :
  (∀ p, In p (sub l) →
     (Z.of_nat (count_occ Nat.eq_dec (sub l) p)
      ≤ refcount (deref N (store w) p) < 2 ^ 32)%Z) →
  let w' := leaf_releaseTo N l w in
  let held p := Z.of_nat (count_occ Nat.eq_dec (sub l) p) in
  let last p := In p (sub l) ∧ refcount (deref N (store w) p) = held p in
  (∀ p, refcount (deref N (store w') p)
        = (refcount (deref N (store w) p) - held p)%Z)
  ∧ (∀ p, last p →
          deref N (store w') p = subspace_reset N
          ∧ In p (free_subs (pool w')))
  ∧ (∀ p, ¬ last p →
          deref N (store w') p
          = set_refcount (refcount (deref N (store w) p) - held p)
                         (deref N (store w) p)
          ∧ (In p (free_subs (pool w')) ↔ In p (free_subs (pool w))))
  ∧ next_sub (pool w') = next_sub (pool w)
  ∧ leaves_returned (pool w') = S (leaves_returned (pool w))
  ∧ trees_returned (pool w') = trees_returned (pool w)
  ∧ slots w' = slots w.
Proof.
  intros H. cbv zeta. unfold leaf_releaseTo.
  destruct (fold_release_sub N (sub l) w H)
    as (Ha & Hb & Hc & Hn & Hl & Ht & Hs).
  cbn [put_leaf store pool slots free_subs next_sub leaves_returned
       trees_returned].
  repeat split; try assumption; try (apply Hb; assumption);
    try (apply Hc; assumption); try (f_equal; assumption).
Qed.

Lemma leaf_releaseTo_counts_references_witness :
  let l := Sample.leaf_at 1 in
  let w := Sample.world in
  let w' := leaf_releaseTo 2 l w in
  let held p := Z.of_nat (count_occ Nat.eq_dec (sub l) p) in
  let last p := In p (sub l) ∧ refcount (deref 2 (store w) p) = held p in
  (∀ p, refcount (deref 2 (store w') p)
        = (refcount (deref 2 (store w) p) - held p)%Z)
  ∧ (∀ p, last p →
          deref 2 (store w') p = subspace_reset 2
          ∧ In p (free_subs (pool w')))
  ∧ (∀ p, ¬ last p →
          deref 2 (store w') p
          = set_refcount (refcount (deref 2 (store w) p) - held p)
                         (deref 2 (store w) p)
          ∧ (In p (free_subs (pool w')) ↔ In p (free_subs (pool w))))
  ∧ next_sub (pool w') = next_sub (pool w)
  ∧ leaves_returned (pool w') = S (leaves_returned (pool w))
  ∧ trees_returned (pool w') = trees_returned (pool w)
  ∧ slots w' = slots w.
Proof.
  apply (leaf_releaseTo_counts_references 2 (Sample.leaf_at 1) Sample.world).
  intros p Hp. vm_compute in Hp.
  repeat (destruct Hp as [<-|Hp]; [vm_compute; split; [congruence|reflexivity]|]).
  destruct Hp.
Defined.

(** ** The loops of [evalLeaf] *)

Lemma take_S_insert {A : Type} (L : list A) (n : nat) (x : A) :
  n < length L → take (S n) (<[n:=x]> L) = take n L ++ [x].
Proof.
  intros Hn. rewrite (take_S_r _ n x) by (apply list_lookup_insert_eq, Hn).
  rewrite take_insert_ge by lia. reflexivity.
Qed.

Section BorrowFacts.

Context `{P : Primitives}.
Variable N : nat.
Variable Neighbors : Type.
Variable check : Neighbors → nat → option (SimplexLeaf * nat).

Lemma get_sub_frame (w : World) :
  store (snd (get_sub w)) = store w
  ∧ slots (snd (get_sub w)) = slots w
  ∧ leaves_returned (pool (snd (get_sub w))) = leaves_returned (pool w)
  ∧ trees_returned (pool (snd (get_sub w))) = trees_returned (pool w).
Proof. unfold get_sub. destruct (free_subs (pool w)); repeat split. Qed.

(** One round of the borrow loop, with the record it puts in slot [i]. *)
Lemma borrow_step_eq (nb : Neighbors) (l : SimplexLeaf) (sv : list bool)
    (w : World) (i : nat) :
  i < length (sub l) →
  borrow_step N check nb (l, sv, w) i
  = let s := match check nb i with
             | Some (nl, ni) => nth ni (sub nl) nullptr
             | None => fst (get_sub w)
             end in
    let w1 := match check nb i with Some _ => w | None => snd (get_sub w) end in
    (set_sub i s l,
     match check nb i with Some _ => <[i:=true]> sv | None => sv end,
     with_store
       (modify N (λ r, set_refcount (u32 (refcount r + 1)) r) s (store w1)) w1).
Proof.
  intros Hi. unfold borrow_step.
  destruct (check nb i) as [[nl ni]|]; [|destruct (get_sub w) as [p w']];
    cbn [set_sub sub fst snd]; rewrite nth_insert;
    rewrite decide_True by (split; [reflexivity|exact Hi]); reflexivity.
Qed.

Lemma fold_borrow_shape (nb : Neighbors) (l0 : SimplexLeaf) (s0 : list bool)
    (w : World) (n : nat) :
  n ≤ length (sub l0) → length s0 = length (sub l0) →
  let r := fold_left (borrow_step N check nb) (seq 0 n) (l0, s0, w) in
  let l := fst (fst r) in
  let sv := snd (fst r) in
  length (sub l) = length (sub l0) ∧ length sv = length s0
  ∧ level l = level l0 ∧ tape l = tape l0
  ∧ (∀ i, n ≤ i → sub l !! i = sub l0 !! i ∧ sv !! i = s0 !! i)
  ∧ (∀ i, i < n →
       nth i sv false
       = (match check nb i with Some _ => true | None => nth i s0 false end)
       ∧ ∀ nl ni, check nb i = Some (nl, ni) →
                  nth i (sub l) nullptr = nth ni (sub nl) nullptr)
  ∧ slots (snd r) = slots w
  ∧ leaves_returned (pool (snd r)) = leaves_returned (pool w)
  ∧ trees_returned (pool (snd r)) = trees_returned (pool w).
Proof.
  intros Hn Hlen. induction n as [|n IH].
  - cbn. repeat split; reflexivity || lia.
  - cbv zeta in *. rewrite seq_S, fold_left_app. change (0 + n) with n.
    destruct IH as (Hl & Hs & Hlv & Htp & Hhi & Hlo & Hsl & Hlr & Htr); [lia|].
    destruct (fold_left _ (seq 0 n) (l0, s0, w)) as [[l sv] wn].
    cbn [fst snd] in *. cbn [fold_left].
    rewrite borrow_step_eq by lia. cbn zeta. cbn [fst snd set_sub sub level tape].
    assert (Hsv' : ∀ i, i ≠ n →
              match check nb n with Some _ => <[n:=true]> sv | None => sv end !! i
              = sv !! i).
    { intros i Hi. destruct (check nb n); [|reflexivity].
      apply list_lookup_insert_ne. congruence. }
    split; [rewrite length_insert; exact Hl|].
    split; [destruct (check nb n); rewrite ?length_insert; exact Hs|].
    split; [exact Hlv|]. split; [exact Htp|].
    split; [|split].
    + intros i Hi. rewrite list_lookup_insert_ne by lia.
      rewrite Hsv' by lia. apply Hhi. lia.
    + intros i Hi. destruct (decide (i = n)) as [->|Hne].
      * split.
        -- destruct (check nb n) as [[nl ni]|].
           ++ apply nth_lookup_Some, list_lookup_insert_eq. lia.
           ++ rewrite !nth_lookup. destruct (Hhi n (le_n n)) as [_ ->].
              reflexivity.
        -- intros nl ni Hc. rewrite Hc. rewrite nth_insert.
           rewrite decide_True by (split; [reflexivity|lia]). reflexivity.
      * destruct (Hlo i ltac:(lia)) as [Ha Hb]. split.
        -- rewrite nth_lookup, Hsv', <- nth_lookup by exact Hne. exact Ha.
        -- intros nl ni Hc. rewrite nth_insert.
           rewrite decide_False by (intros [He _]; congruence).
           apply Hb, Hc.
    + destruct (get_sub_frame wn) as (_ & Hgs & Hgl & Hgt).
      destruct (check nb n); cbn [with_store slots pool];
        rewrite ?Hgs, ?Hgl, ?Hgt; repeat split; assumption.
Qed.

Lemma fold_borrow_refcount (nb : Neighbors) (l0 : SimplexLeaf)
    (s0 : list bool) (w : World) (n : nat) :
  n ≤ length (sub l0) → length s0 = length (sub l0) →
  let r := fold_left (borrow_step N check nb) (seq 0 n) (l0, s0, w) in
  let held p := Z.of_nat (count_occ Nat.eq_dec (take n (sub (fst (fst r)))) p) in
  (∀ p, In p (take n (sub (fst (fst r)))) →
     (0 ≤ refcount (deref N (store w) p)
      ∧ refcount (deref N (store w) p) + held p < 2 ^ 32)%Z) →
  ∀ p, deref N (store (snd r)) p
       = set_refcount (refcount (deref N (store w) p) + held p)
                      (deref N (store w) p).
Proof.
  intros Hn Hlen. induction n as [|n IH].
  - cbn. intros _ p. rewrite Z.add_0_r. symmetry. apply set_refcount_id.
  - cbv zeta in *. 
    pose proof (fold_borrow_shape nb l0 s0 w n ltac:(lia) Hlen) as Hshape.
    cbv zeta in Hshape. destruct Hshape as (Hl & _).
    rewrite seq_S, fold_left_app. change (0 + n) with n.
    destruct (fold_left _ (seq 0 n) (l0, s0, w)) as [[l sv] wn].
    cbn [fst snd] in *. cbn [fold_left].
    rewrite borrow_step_eq by lia. cbn zeta. cbn [fst snd set_sub sub].
    set (s := match check nb n with
              | Some (nl, ni) => nth ni (sub nl) nullptr
              | None => fst (get_sub wn)
              end).
    set (w1 := match check nb n with Some _ => wn | None => snd (get_sub wn) end).
    assert (Hst : store w1 = store wn).
    { subst w1. destruct (check nb n); [reflexivity|]. apply get_sub_frame. }
    clearbody s w1. rewrite take_S_insert by lia.
    intros H p. cbn [with_store store]. rewrite Hst.
    assert (IH' : ∀ p, deref N (store wn) p
              = set_refcount
                  (refcount (deref N (store w) p)
                   + Z.of_nat (count_occ Nat.eq_dec (take n (sub l)) p))
                  (deref N (store w) p)).
    { apply IH; [lia|]. intros q Hq.
      specialize (H q ltac:(apply in_or_app; left; exact Hq)).
      rewrite count_occ_app in H. unfold ptr in *. lia. }
    rewrite count_occ_app. cbn [count_occ].
    rewrite deref_modify. destruct (decide (s = p)) as [->|Hne].
    + destruct (Nat.eq_dec p p) as [_|]; [|congruence].
      specialize (H p ltac:(apply in_or_app; right; left; reflexivity)).
      rewrite count_occ_app in H. cbn [count_occ] in H.
      destruct (Nat.eq_dec p p) as [_|] in H; [|congruence].
      rewrite IH'. unfold set_refcount.
      cbn [inside index vert qef refcount].
      unfold ptr in *. rewrite u32_small by lia. f_equal. lia.
    + destruct (Nat.eq_dec s p) as [|_]; [congruence|].
      rewrite IH'. unfold ptr in *. f_equal. lia.
Qed.

End BorrowFacts.

Section PackFacts.

Context `{P : Primitives}.
Variable N : nat.

Lemma fold_pack_step (region : Region) (solved : list bool) (ci0 : list nat)
    (w : World) (n : nat) :
  n ≤ length ci0 →
  let r := fold_left (pack_step N region solved) (seq 0 n) (0, ci0, w) in
  let U :=
    List.filter (λ i, negb (nth (CornerIndex.neighbor N i) solved false))
                (seq 0 n) in
  fst (fst r) = length U
  ∧ take (length U) (snd (fst r)) = U
  ∧ length (snd (fst r)) = length ci0
  ∧ store (snd r) = store w ∧ pool (snd r) = pool w
  ∧ (∀ k, k < length U →
          slots (snd r) k = region_corner3f region (nth k U 0))
  ∧ (∀ k, length U ≤ k → slots (snd r) k = slots w k).
Proof.
  intros Hn. induction n as [|n IH].
  - cbn. repeat split; intros; lia || reflexivity.
  - cbv zeta in *. rewrite seq_S, fold_left_app, List.filter_app.
    change (0 + n) with n. cbn [List.filter].
    destruct IH as (Hc & Ht & Hl & Hst & Hp & Hlo & Hhi); [lia|].
    set (U := List.filter _ (seq 0 n)) in *.
    assert (HU : length U ≤ n).
    { subst U. etransitivity; [apply List.filter_length_le|].
      rewrite length_seq. reflexivity. }
    destruct (fold_left _ (seq 0 n) (0, ci0, w)) as [[c ci] wn].
    cbn [fst snd] in *. subst c. cbn [fold_left pack_step].
    destruct (negb (nth (CornerIndex.neighbor N n) solved false)).
    + cbn [fst snd array_set store pool slots].
      rewrite length_app. cbn [length]. rewrite Nat.add_1_r.
      split; [reflexivity|]. split; [|split; [|split; [|split; [|split]]]].
      * rewrite take_S_insert by lia. rewrite Ht. reflexivity.
      * rewrite length_insert. exact Hl.
      * exact Hst.
      * exact Hp.
      * intros k Hk. destruct (decide (k = length U)) as [->|Hne].
        -- rewrite fn_lookup_insert. rewrite app_nth2 by lia.
           rewrite Nat.sub_diag. reflexivity.
        -- rewrite fn_lookup_insert_ne by congruence.
           rewrite app_nth1 by lia. apply Hlo. lia.
      * intros k Hk. rewrite fn_lookup_insert_ne by lia. apply Hhi. lia.
    + rewrite app_nil_r. cbn [fst snd]. repeat split; assumption.
Qed.

Lemma fold_push_normal_frame (region : Region) (c : nat) (value : float)
    (s : ptr) (fs : list Vec3f) (st : Store) :
  let st' := fold_left (push_normal N region c value s) fs st in
  (∀ p, set_qef qef_zero (deref N st' p) = set_qef qef_zero (deref N st p))
  ∧ (∀ p, p ≠ s → deref N st' p = deref N st p).
Proof.
  revert st. induction fs as [|f fs IH]; intros st; cbn [fold_left].
  - split; reflexivity.
  - destruct (IH (push_normal N region c value s st f)) as [Ha Hb].
    cbv zeta. split.
    + intros p. rewrite Ha. unfold push_normal. rewrite deref_modify.
      case_decide; [subst|]; reflexivity.
    + intros p Hp. rewrite Hb by exact Hp. unfold push_normal.
      apply deref_modify_ne. congruence.
Qed.

Lemma sample_step_frame (tp : Tape) (region : Region) (l : SimplexLeaf)
    (ci : list nat) (w : World) (i : nat) :
  let w' := sample_step N tp region l ci w i in
  pool w' = pool w ∧ slots w' = slots w
  ∧ (∀ p, set_qef qef_zero (deref N (store w') p)
          = set_qef qef_zero (deref N (store w) p))
  ∧ (∀ p, p ≠ nth (CornerIndex.neighbor N (nth i ci 0)) (sub l) nullptr →
          deref N (store w') p = deref N (store w) p).
Proof.
  unfold sample_step. cbv zeta.
  destruct (array_ambiguous tp (slots w i)); cbn [with_store store pool slots].
  - split; [reflexivity|]. split; [reflexivity|].
    apply fold_push_normal_frame.
  - split; [reflexivity|]. split; [reflexivity|].
    apply (fold_push_normal_frame region (nth i ci 0)
             (snd (array_derivs tp (slots w i)))
             (nth (CornerIndex.neighbor N (nth i ci 0)) (sub l) nullptr)
             [fst (array_derivs tp (slots w i))] (store w)).
Qed.

Lemma fold_sample_step_frame (tp : Tape) (region : Region) (l : SimplexLeaf)
    (ci : list nat) (L : list nat) (w : World) :
  let w' := fold_left (sample_step N tp region l ci) L w in
  pool w' = pool w ∧ slots w' = slots w
  ∧ (∀ p, set_qef qef_zero (deref N (store w') p)
          = set_qef qef_zero (deref N (store w) p))
  ∧ (∀ p, (∀ i, In i L →
             p ≠ nth (CornerIndex.neighbor N (nth i ci 0)) (sub l) nullptr) →
          deref N (store w') p = deref N (store w) p).
Proof.
  revert w. induction L as [|i L IH]; intros w; cbn [fold_left].
  - repeat split.
  - destruct (IH (sample_step N tp region l ci w i)) as (Hp & Hs & Hq & Hf).
    destruct (sample_step_frame tp region l ci w i) as (Hp1 & Hs1 & Hq1 & Hf1).
    cbv zeta. split; [congruence|]. split; [congruence|]. split.
    + intros p. rewrite Hq. apply Hq1.
    + intros p Hne. rewrite Hf by (intros j Hj; apply Hne; right; exact Hj).
      apply Hf1, Hne. left. reflexivity.
Qed.

Lemma fold_vertex_sign_other (tp : Tape) (region : Region) (l : SimplexLeaf)
    (solved : list bool) (L : list nat) (w : World) (q : ptr) :
  (∀ k, In k L → nth k solved false = false → nth k (sub l) nullptr ≠ q) →
  deref N (store (fold_left (vertex_sign_step N tp region l solved) L w)) q
  = deref N (store w) q.
Proof.
  revert w. induction L as [|i L IH]; intros w H; cbn [fold_left]; [reflexivity|].
  rewrite IH by (intros k Hk; apply H; right; exact Hk).
  unfold vertex_sign_step. destruct (nth i solved false) eqn:E; [reflexivity|].
  cbn [with_store array_set store]. apply deref_modify_ne.
  apply H; [left; reflexivity|exact E].
Qed.

End PackFacts.

Lemma nth_replicate_default {A : Type} (n i : nat) (x : A) :
  nth i (replicate n x) x = x.
Proof.
  rewrite nth_lookup. destruct (replicate n x !! i) eqn:E; [|reflexivity].
  apply lookup_replicate in E as [-> _]. reflexivity.
Qed.

Section SolveFacts.

Context `{P : Primitives}.
Variable N : nat.
Variable Neighbors : Type.
Variable check : Neighbors → nat → option (SimplexLeaf * nat).

Lemma evalLeaf_solve_parts (nb : Neighbors) (region : Region) (tp : Tape)
    (w : World) :
  let l0 := set_level 0 (set_tape (Some tp) (leaf_reset N)) in
  let b := fold_left (borrow_step N check nb) (seq 0 (ipow 3 N))
                     (l0, replicate (ipow 3 N) false, w) in
  let l := fst (fst b) in
  let sv := snd (fst b) in
  let k := fold_left (pack_step N region sv) (seq 0 (ipow 2 N))
                     (0, replicate (ipow 2 N) 0, snd b) in
  let w3 := fold_left (sample_step N tp region l (snd (fst k)))
                      (seq 0 (fst (fst k))) (snd k) in
  let st4 := fst (Unroller N (ipow 3 N) l sv region (store w3)) in
  evalLeaf_solve N check nb region tp w
  = (l, sv, saveVertexSigns N l tp region sv (with_store st4 w3)).
Proof.
  cbv zeta. unfold evalLeaf_solve.
  destruct (fold_left (borrow_step N check nb) _ _) as [[l sv] w1].
  cbn [fst snd].
  destruct (fold_left (pack_step N region sv) _ _) as [[c ci] w2].
  reflexivity.
Qed.

Lemma evalLeaf_solve_shape (nb : Neighbors) (region : Region) (tp : Tape)
    (w : World) :
  let r := evalLeaf_solve N check nb region tp w in
  let l := fst (fst r) in
  let solved := snd (fst r) in
  length (sub l) = ipow 3 N ∧ length solved = ipow 3 N
  ∧ level l = 0%Z ∧ tape l = Some tp
  ∧ ∀ i, i < ipow 3 N →
      nth i solved false
      = (match check nb i with Some _ => true | None => false end)
      ∧ ∀ nl ni, check nb i = Some (nl, ni) →
                 nth i (sub l) nullptr = nth ni (sub nl) nullptr.
Proof.
  cbv zeta. rewrite evalLeaf_solve_parts. cbn [fst snd].
  pose proof (fold_borrow_shape N Neighbors check nb
                (set_level 0 (set_tape (Some tp) (leaf_reset N)))
                (replicate (ipow 3 N) false) w (ipow 3 N)) as H.
  cbn [set_level set_tape leaf_reset sub level tape] in H.
  rewrite !length_replicate in H. cbv zeta in H.
  destruct (H (le_n _) eq_refl) as (Hl & Hs & Hlv & Htp & _ & Hlo & _).
  repeat split; try assumption.
  - destruct (Hlo i H0) as [Ha _]. rewrite Ha.
    rewrite nth_replicate_default. reflexivity.
  - apply Hlo, H0.
Qed.

Lemma evalLeaf_solve_heap (nb : Neighbors) (region : Region) (tp : Tape)
    (w : World) :
  let r := evalLeaf_solve N check nb region tp w in
  let l := fst (fst r) in
  let solved := snd (fst r) in
  let held p := Z.of_nat (count_occ Nat.eq_dec (sub l) p) in
  (∀ p, In p (sub l) →
     (0 ≤ refcount (deref N (store w) p)
      ∧ refcount (deref N (store w) p) + held p < 2 ^ 32)%Z) →
  ∀ p,
    refcount (deref N (store (snd r)) p)
    = (refcount (deref N (store w) p) + held p)%Z
    ∧ ((∀ j, j < ipow 3 N → nth j solved false = false →
             nth j (sub l) nullptr ≠ p) →
       deref N (store (snd r)) p
       = set_refcount (refcount (deref N (store w) p) + held p)
                      (deref N (store w) p)).
Proof.
  cbv zeta. pose proof (evalLeaf_solve_shape nb region tp w) as Hshape.
  cbv zeta in Hshape. destruct Hshape as (Hlen & _).
  revert Hlen. rewrite evalLeaf_solve_parts. cbn [fst snd].
  set (l0 := set_level 0 (set_tape (Some tp) (leaf_reset N))).
  pose proof (fold_borrow_refcount N Neighbors check nb l0
                (replicate (ipow 3 N) false) w (ipow 3 N)) as Hb.
  cbv zeta in Hb.
  set (b := fold_left (borrow_step N check nb) (seq 0 (ipow 3 N))
                      (l0, replicate (ipow 3 N) false, w)) in *.
  set (l := fst (fst b)) in *. set (sv := snd (fst b)) in *.
  pose proof (fold_pack_step N region sv (replicate (ipow 2 N) 0) (snd b)
                (ipow 2 N)) as Hk.
  cbv zeta in Hk. rewrite length_replicate in Hk.
  destruct (Hk (le_n _)) as (Hc & Ht & _ & Hst2 & _). clear Hk.
  set (k := fold_left (pack_step N region sv) (seq 0 (ipow 2 N))
                      (0, replicate (ipow 2 N) 0, snd b)) in *.
  set (U := List.filter _ (seq 0 (ipow 2 N))) in *.
  pose proof (fold_sample_step_frame N tp region l (snd (fst k))
                (seq 0 (fst (fst k))) (snd k)) as Hsm.
  cbv zeta in Hsm. destruct Hsm as (_ & _ & Hq & Hqf).
  set (w3 := fold_left (sample_step N tp region l (snd (fst k)))
                       (seq 0 (fst (fst k))) (snd k)) in *.
  pose proof (Unroller_only_vert N (ipow 3 N) l sv region (store w3)) as Hv.
  destruct (Unroller_spec N (ipow 3 N) l sv region (store w3))
    as (_ & Hvf & _).
  set (st4 := fst (Unroller N (ipow 3 N) l sv region (store w3))) in *.
  destruct (fold_vertex_sign_step_frame N tp region l sv (seq 0 (ipow 3 N))
              (with_store st4 w3)) as (Hi & _).
  pose proof (fold_vertex_sign_other N tp region l sv (seq 0 (ipow 3 N))
                (with_store st4 w3)) as Hif.
  fold (saveVertexSigns N l tp region sv (with_store st4 w3)) in Hi, Hif.
  set (w5 := saveVertexSigns N l tp region sv (with_store st4 w3)) in *.
  cbn [with_store store] in Hi, Hif.
  intros Hlen Hbound.
  assert (Hl0 : length (sub l0) = ipow 3 N)
    by (subst l0; cbn; apply length_replicate).
  rewrite Hl0, length_replicate in Hb.
  rewrite (take_ge (sub l)) in Hb by lia.
  specialize (Hb (le_n _) eq_refl Hbound).
  intros p. split.
  - transitivity (refcount (set_inside false (deref N (store w5) p)));
      [reflexivity|]. rewrite Hi.
    transitivity (refcount (set_vert [] (deref N st4 p))); [reflexivity|].
    rewrite Hv.
    transitivity (refcount (set_qef qef_zero (deref N (store w3) p)));
      [reflexivity|]. rewrite Hq, Hst2, Hb. reflexivity.
  - intros Hp. rewrite Hif by (intros j Hj; apply Hp; apply in_seq in Hj; lia).
    rewrite Hvf by exact Hp. rewrite Hqf; [rewrite Hst2; apply Hb|].
    intros i Hin. apply in_seq in Hin. rewrite Hc in Hin.
    assert (Hnth : nth i (snd (fst k)) 0 = nth i U 0).
    { transitivity (nth i (take (length U) (snd (fst k))) 0);
        [|rewrite Ht; reflexivity].
      rewrite !nth_lookup, lookup_take_lt by lia. reflexivity. }
    rewrite Hnth.
    assert (HinU : In (nth i U 0) U) by (apply nth_In; lia).
    subst U. apply List.filter_In in HinU as [_ Hun].
    apply negb_true_iff in Hun. apply not_eq_sym, Hp; [|exact Hun].
    apply fromPosAndFloating_lt.
Qed.

End SolveFacts.

Section EvalLeafFacts.

Context `{P : Primitives}.
Variable N : nat.
Variable Neighbors : Type.
Variable check : Neighbors → nat → option (SimplexLeaf * nat).

Lemma evalLeaf_cases (t : SimplexTree) (nb : Neighbors) (region : Region)
    (tp : Tape) (w : World) :
  let s := evalLeaf_solve N check nb region tp w in
  let l := fst (fst s) in
  let f := inside_flags N (store (snd s)) l in
  evalLeaf N check t nb region tp w
  = if fst f || snd f
    then (done (set_leaf None
                  (set_type (if fst f then FILLED else EMPTY)
                            (set_leaf (Some l) t))),
          leaf_releaseTo N l (snd s))
    else (done (set_type AMBIGUOUS (set_leaf (Some l) t)), snd s).
Proof.
  cbv zeta. unfold evalLeaf.
  destruct (evalLeaf_solve N check nb region tp w) as [[l sv] w5].
  cbn [fst snd]. destruct (inside_flags N (store w5) l) as [[] []]; reflexivity.
Qed.

End EvalLeafFacts.

(** X6: the first loop of [evalLeaf] fills all [3^N] slots of the new leaf,
    whose level is 0 and whose tape is the caller's.  A subspace is flagged
    as already solved exactly when [check] finds a neighbor that owns it,
    and the slot then holds the very record of that neighbor, so the two
    leaves share it. *)
Theorem evalLeaf_borrows_from_neighbors `{P : Primitives} (N : nat)
    (Neighbors : Type)
    (neighbors_check : Neighbors → nat → option (SimplexLeaf * nat))
    (neighbors : Neighbors) (region : Region) (tp : Tape) (w : World) :
  let r := evalLeaf_solve N neighbors_check neighbors region tp w in
  let l := fst (fst r) in
  let already_solved := snd (fst r) in
  length (sub l) = ipow 3 N ∧ length already_solved = ipow 3 N
  ∧ level l = 0%Z ∧ tape l = Some tp
  ∧ ∀ i, i < ipow 3 N →
      (nth i already_solved false = true
       ↔ ∃ nl ni, neighbors_check neighbors i = Some (nl, ni))
      ∧ ∀ nl ni, neighbors_check neighbors i = Some (nl, ni) →
                 nth i (sub l) nullptr = nth ni (sub nl) nullptr.
Proof.
  cbv zeta.
  destruct (evalLeaf_solve_shape N Neighbors neighbors_check neighbors region
              tp w) as (Hl & Hs & Hlv & Htp & Hi).
  repeat split; try assumption.
  - destruct (Hi i H) as [Ha _]. rewrite Ha.
    destruct (neighbors_check neighbors i) as [[nl ni]|]; [|discriminate].
    intros _. exists nl, ni. reflexivity.
  - destruct (Hi i H) as [Ha _]. rewrite Ha. intros (nl & ni & ->).
    reflexivity.
  - apply Hi, H.
Qed.

(** X7: the loop of [evalLeaf] that packs the corners for the array
    evaluator takes exactly the corners whose subspace is not already
    solved, in increasing order: [count] is their number, the first [count]
    entries of [corner_indices] list them and evaluator slot [k] holds the
    position of the [k]-th of them.  The heap and the pools are not
    touched, nor are the evaluator slots from [count] on. *)
Theorem evalLeaf_packs_unsolved_corners `{P : Primitives} (N : nat)
    (region : Region) (already_solved : list bool) (w : World) :
  let r := fold_left (pack_step N region already_solved) (seq 0 (ipow 2 N))
                     (0, replicate (ipow 2 N) 0, w) in
  let count := fst (fst r) in
  let corner_indices := snd (fst r) in
  let unsolved :=
    List.filter (λ i, negb (nth (CornerIndex.neighbor N i) already_solved false))
                (seq 0 (ipow 2 N)) in
  count = length unsolved ∧ count ≤ ipow 2 N
  ∧ take count corner_indices = unsolved
  ∧ store (snd r) = store w ∧ pool (snd r) = pool w
  ∧ (∀ k, k < count →
          slots (snd r) k = region_corner3f region (nth k unsolved 0))
  ∧ (∀ k, count ≤ k → slots (snd r) k = slots w k).
Proof.
  cbv zeta.
  pose proof (fold_pack_step N region already_solved (replicate (ipow 2 N) 0)
                w (ipow 2 N)) as H.
  cbv zeta in H. rewrite length_replicate in H.
  destruct (H (le_n _)) as (Hc & Ht & _ & Hst & Hp & Hlo & Hhi).
  rewrite Hc. repeat split; try assumption.
  etransitivity; [apply List.filter_length_le|]. rewrite length_seq.
  reflexivity.
Qed.

(** X8: up to the classification, [evalLeaf] adds to the reference count of
    every record one reference per slot of the new leaf that holds it, and
    apart from that count it changes nothing in any record that is not in
    a slot flagged as not yet solved: what was borrowed from a neighbor
    keeps its vertex, QEF, sign and index. *)
Theorem evalLeaf_counts_references `{P : Primitives} (N : nat)
    (Neighbors : Type)
    (neighbors_check : Neighbors → nat → option (SimplexLeaf * nat))
    (neighbors : Neighbors) (region : Region) (tp : Tape) (w : World) :
  let r := evalLeaf_solve N neighbors_check neighbors region tp w in
  let l := fst (fst r) in
  let already_solved := snd (fst r) in
  let held p := Z.of_nat (count_occ Nat.eq_dec (sub l) p) in
  (∀ p, In p (sub l) →
     (0 ≤ refcount (deref N (store w) p)
      ∧ refcount (deref N (store w) p) + held p < 2 ^ 32)%Z) →
  (∀ p, refcount (deref N (store (snd r)) p)
        = (refcount (deref N (store w) p) + held p)%Z)
  ∧ (∀ p, (∀ j, j < ipow 3 N → nth j already_solved false = false →
                nth j (sub l) nullptr ≠ p) →
          deref N (store (snd r)) p
          = set_refcount (refcount (deref N (store w) p) + held p)
                         (deref N (store w) p)).
Proof.
  cbv zeta. intros H.
  split; intros p;
    apply (evalLeaf_solve_heap N Neighbors neighbors_check neighbors region tp
             w H p).
Qed.

Lemma evalLeaf_counts_references_witness :
  let r := evalLeaf_solve 2 (SimplexNeighbors.check 2)
             SampleNeighbors.of_child_1 5%Z tt Sample.world in
  let l := fst (fst r) in
  let already_solved := snd (fst r) in
  let held p := Z.of_nat (count_occ Nat.eq_dec (sub l) p) in
  (∀ p, refcount (deref 2 (store (snd r)) p)
        = (refcount (deref 2 (store Sample.world) p) + held p)%Z)
  ∧ (∀ p, (∀ j, j < ipow 3 2 → nth j already_solved false = false →
                nth j (sub l) nullptr ≠ p) →
          deref 2 (store (snd r)) p
          = set_refcount (refcount (deref 2 (store Sample.world) p) + held p)
                         (deref 2 (store Sample.world) p)).
Proof.
  cbv zeta.
  apply (evalLeaf_counts_references 2 SimplexNeighbors.t
           (SimplexNeighbors.check 2) SampleNeighbors.of_child_1 5%Z tt
           Sample.world).
  assert (Hsub : sub (fst (fst (evalLeaf_solve 2 (SimplexNeighbors.check 2)
                                  SampleNeighbors.of_child_1 5%Z tt
                                  Sample.world)))
                 = [3; 19; 20; 6; 21; 22; 9; 23; 24])
    by (vm_compute; reflexivity).
  rewrite Hsub. intros p Hp. cbn [In] in Hp.
  repeat (destruct Hp as [<-|Hp]; [vm_compute; split; [congruence|reflexivity]|]).
  destruct Hp.
Defined.

(** X9: [evalLeaf] keeps the reference counts exact.  When the node keeps
    its leaf, every record has gained one reference per slot of the leaf
    that holds it.  When the leaf is discarded (the node is FILLED or EMPTY),
    every count is back at its value before the call, the records that the
    call took from the pool are reset and back in the pool, and no record
    that had a holder before the call has entered the pool. *)
Theorem evalLeaf_balances_reference_counts `{P : Primitives} (N : nat)
    (Neighbors : Type)
    (neighbors_check : Neighbors → nat → option (SimplexLeaf * nat))
    (t : SimplexTree) (neighbors : Neighbors) (region : Region) (tp : Tape)
    (w : World) :
  let solved := evalLeaf_solve N neighbors_check neighbors region tp w in
  let l := fst (fst solved) in
  let held p := Z.of_nat (count_occ Nat.eq_dec (sub l) p) in
  (∀ p, In p (sub l) →
     (0 ≤ refcount (deref N (store w) p)
      ∧ refcount (deref N (store w) p) + held p < 2 ^ 32)%Z) →
  let r := evalLeaf N neighbors_check t neighbors region tp w in
  (leaf (fst r) = Some l ∨ leaf (fst r) = None)
  ∧ (leaf (fst r) = Some l ↔ type (fst r) = AMBIGUOUS)
  ∧ (leaf (fst r) = Some l →
       ∀ p, refcount (deref N (store (snd r)) p)
            = (refcount (deref N (store w) p) + held p)%Z)
  ∧ (leaf (fst r) = None →
       ∀ p,
         refcount (deref N (store (snd r)) p) = refcount (deref N (store w) p)
         ∧ (In p (sub l) → refcount (deref N (store w) p) = 0%Z →
              deref N (store (snd r)) p = subspace_reset N
              ∧ In p (free_subs (pool (snd r))))
         ∧ (refcount (deref N (store w) p) ≠ 0%Z →
              (In p (free_subs (pool (snd r)))
               ↔ In p (free_subs (pool (snd solved)))))).
Proof.
  cbv zeta. intros H.
  pose proof (evalLeaf_solve_heap N Neighbors neighbors_check neighbors region
                tp w H) as Hheap.
  cbv zeta in Hheap.
  rewrite evalLeaf_cases. cbv zeta.
  set (s := evalLeaf_solve N neighbors_check neighbors region tp w) in *.
  set (l := fst (fst s)) in *.
  destruct (fst (inside_flags N (store (snd s)) l)
            || snd (inside_flags N (store (snd s)) l)) eqn:E.
  - cbn [fst snd done set_leaf set_type leaf type].
    split; [right; reflexivity|].
    split.
    { split; [discriminate|].
      destruct (fst (inside_flags N (store (snd s)) l)); discriminate. }
    split; [discriminate|]. intros _ p.
    assert (Hrel : ∀ q, In q (sub l) →
              (Z.of_nat (count_occ Nat.eq_dec (sub l) q)
               ≤ refcount (deref N (store (snd s)) q) < 2 ^ 32)%Z).
    { intros q Hq. destruct (Hheap q) as [-> _]. specialize (H q Hq).
      unfold ptr in *. lia. }
    destruct (fold_release_sub N (sub l) (snd s) Hrel)
      as (Ha & Hb & Hc & _).
    unfold leaf_releaseTo.
    cbn [put_leaf store pool free_subs].
    destruct (Hheap p) as [Hrc _].
    split; [|split].
    + rewrite Ha, Hrc. unfold ptr in *. lia.
    + intros Hin Hz. apply Hb. split; [exact Hin|].
      rewrite Hrc, Hz. unfold ptr in *. lia.
    + intros Hnz. apply Hc. intros [_ Hlast]. rewrite Hrc in Hlast.
      unfold ptr in *. lia.
  - cbn [fst snd done set_leaf set_type leaf type].
    split; [left; reflexivity|]. split; [split; reflexivity|].
    split; [|discriminate]. intros _ p. apply Hheap.
Qed.

Lemma evalLeaf_balances_reference_counts_witness :
  let solved := evalLeaf_solve 2 (SimplexNeighbors.check 2)
                  SampleNeighbors.of_child_1 5%Z tt Sample.world in
  let l := fst (fst solved) in
  let held p := Z.of_nat (count_occ Nat.eq_dec (sub l) p) in
  let r := evalLeaf 2 (SimplexNeighbors.check 2) (Sample.plain AMBIGUOUS)
             SampleNeighbors.of_child_1 5%Z tt Sample.world in
  (leaf (fst r) = Some l ∨ leaf (fst r) = None)
  ∧ (leaf (fst r) = Some l ↔ type (fst r) = AMBIGUOUS)
  ∧ (leaf (fst r) = Some l →
       ∀ p, refcount (deref 2 (store (snd r)) p)
            = (refcount (deref 2 (store Sample.world) p) + held p)%Z)
  ∧ (leaf (fst r) = None →
       ∀ p,
         refcount (deref 2 (store (snd r)) p)
         = refcount (deref 2 (store Sample.world) p)
         ∧ (In p (sub l) → refcount (deref 2 (store Sample.world) p) = 0%Z →
              deref 2 (store (snd r)) p = subspace_reset 2
              ∧ In p (free_subs (pool (snd r))))
         ∧ (refcount (deref 2 (store Sample.world) p) ≠ 0%Z →
              (In p (free_subs (pool (snd r)))
               ↔ In p (free_subs (pool (snd solved)))))).
Proof.
  cbv zeta.
  apply (evalLeaf_balances_reference_counts 2 SimplexNeighbors.t
           (SimplexNeighbors.check 2) (Sample.plain AMBIGUOUS)
           SampleNeighbors.of_child_1 5%Z tt Sample.world).
  assert (Hsub : sub (fst (fst (evalLeaf_solve 2 (SimplexNeighbors.check 2)
                                  SampleNeighbors.of_child_1 5%Z tt
                                  Sample.world)))
                 = [3; 19; 20; 6; 21; 22; 9; 23; 24])
    by (vm_compute; reflexivity).
  rewrite Hsub. intros p Hp. cbn [In] in Hp.
  repeat (destruct Hp as [<-|Hp]; [vm_compute; split; [congruence|reflexivity]|]).
  destruct Hp.
Defined.

(** X10: whatever the evaluators return, [evalLeaf] leaves the node with a
    type other than UNKNOWN, signals [done] exactly once and does not touch
    the fan-in counter.  The two flags of its last loop are never both set,
    as the source asserts.  [level()] of the resulting node is 0;
    [leafLevel()] is 0 when the node is AMBIGUOUS and [LEAF_LEVEL_INVALID]
    otherwise. *)
Theorem evalLeaf_settles_node `{P : Primitives} (N : nat) (Neighbors : Type)
    (neighbors_check : Neighbors → nat → option (SimplexLeaf * nat))
    (t : SimplexTree) (neighbors : Neighbors) (region : Region) (tp : Tape)
    (w : World) (invalid : Z) :
  let solved := evalLeaf_solve N neighbors_check neighbors region tp w in
  let flags := inside_flags N (store (snd solved)) (fst (fst solved)) in
  let t' := fst (evalLeaf N neighbors_check t neighbors region tp w) in
  type t' ≠ UNKNOWN
  ∧ done_signals t' = S (done_signals t)
  ∧ pending t' = pending t
  ∧ ¬ (fst flags = true ∧ snd flags = true)
  ∧ tree_level t' = 0%Z
  ∧ leafLevel invalid t'
    = (if Interval_eqb (type t') AMBIGUOUS then 0%Z else invalid).
Proof.
  cbv zeta. rewrite evalLeaf_cases. cbv zeta.
  destruct (evalLeaf_solve_shape N Neighbors neighbors_check neighbors region
              tp w) as (_ & _ & Hlv & _).
  set (s := evalLeaf_solve N neighbors_check neighbors region tp w) in *.
  assert (Hflags : ¬ (fst (inside_flags N (store (snd s)) (fst (fst s))) = true
                      ∧ snd (inside_flags N (store (snd s)) (fst (fst s)))
                        = true)).
  { intros [Ha Hb].
    destruct (inside_flags_spec N (store (snd s)) (fst (fst s))) as [Hi Ho].
    assert (H0 : 0 < ipow 3 N).
    { unfold ipow. pose proof (Nat.pow_nonzero 3 N). lia. }
    destruct Hi as [Hi _]. destruct Ho as [Ho _].
    specialize (Hi Ha 0 H0). specialize (Ho Hb 0 H0). congruence. }
  destruct (fst (inside_flags N (store (snd s)) (fst (fst s)))) eqn:Ef;
    destruct (snd (inside_flags N (store (snd s)) (fst (fst s)))) eqn:Eo;
    cbn [orb fst snd done set_leaf set_type type leaf done_signals pending
         tree_level leafLevel Interval_eqb];
    rewrite ?Hlv; repeat split; try discriminate; try exact Hflags.
Qed.

(** ** The paths of [collectChildren] *)

Section CollectPaths.

Context `{P : Primitives}.
Variable N : nat.

Lemma collectChildren_waits (t : SimplexTree) (tp : Tape) (max_err : double)
    (region : Region) (w : World) :
  pending t ≠ 0%Z →
  collectChildren N t tp max_err region w
  = (false, set_pending (pending t - 1) t, w).
Proof.
  intros Hp. unfold collectChildren.
  apply nz_true in Hp. rewrite Hp. reflexivity.
Qed.

Lemma collectChildren_collects (t : SimplexTree) (tp : Tape)
    (max_err : double) (region : Region) (w : World) :
  pending t = 0%Z →
  fst (fst (collectChildren N t tp max_err region w)) = true
  ∧ pending (snd (fst (collectChildren N t tp max_err region w))) = (-1)%Z.
Proof.
  intros Hp. unfold collectChildren. rewrite Hp.
  cbn [nz Z.eqb negb set_pending children].
  destruct (existsb isBranch _); [split; reflexivity|].
  destruct (_ || _); [split; reflexivity|].
  destruct (fold_left grab_step _ _) as [l w1].
  destruct (Unroller _ _ _ _ _ _) as [st3 err].
  rewrite andb_false_r. split; reflexivity.
Qed.

Lemma set_pending_twice (a b : Z) (t : SimplexTree) :
  set_pending a (set_pending b t) = set_pending a t.
Proof. reflexivity. Qed.

Lemma iter_collectChildren_waits (t : SimplexTree) (tp : Tape)
    (max_err : double) (region : Region) (w : World) (k j : nat) :
  pending t = Z.of_nat k → j ≤ k →
  Nat.iter j (λ u, snd (fst (collectChildren N u tp max_err region w))) t
  = set_pending (Z.of_nat k - Z.of_nat j) t.
Proof.
  intros Hp. induction j as [|j IH]; intros Hj.
  - change (Nat.iter 0 _ t) with t. rewrite Nat2Z.inj_0, Z.sub_0_r, <- Hp.
    destruct t. reflexivity.
  - rewrite Nat.iter_succ, IH by lia.
    rewrite collectChildren_waits by (cbn [set_pending pending]; lia).
    cbn [fst snd set_pending pending]. rewrite set_pending_twice.
    f_equal. lia.
Qed.

Lemma fold_tree_releaseTo_count (cs : list SimplexTree) (w : World) :
  let w' := fold_left (λ w c, tree_releaseTo N c w) cs w in
  trees_returned (pool w') = trees_returned (pool w) + length cs
  ∧ (Forall (λ c, leaf c = None) cs →
       store w' = store w ∧ slots w' = slots w
       ∧ free_subs (pool w') = free_subs (pool w)
       ∧ next_sub (pool w') = next_sub (pool w)
       ∧ leaves_returned (pool w') = leaves_returned (pool w)).
Proof.
  revert w. induction cs as [|c cs IH]; intros w; cbn [fold_left length].
  - cbv zeta. split; [lia|]. intros _. repeat split.
  - destruct (IH (tree_releaseTo N c w)) as [Hc Hn]. cbv zeta. split.
    + rewrite Hc. unfold tree_releaseTo.
      destruct (leaf c) as [l|]; cbn [put_tree pool trees_returned]; [|lia].
      unfold leaf_releaseTo. cbn [put_leaf pool trees_returned].
      assert (Hf : ∀ L w0,
                trees_returned (pool (fold_left (release_sub N) L w0))
                = trees_returned (pool w0)).
      { clear. induction L as [|s L IHL]; intros w0; [reflexivity|].
        cbn [fold_left]. rewrite IHL. unfold release_sub.
        destruct (_ =? 0)%Z; reflexivity. }
      rewrite Hf. lia.
    + intros Hall. apply Forall_cons in Hall as [Hl Hall].
      destruct (Hn Hall) as (H1 & H2 & H3 & H4 & H5).
      unfold tree_releaseTo in *. rewrite Hl in *.
      repeat split; assumption.
Qed.

End CollectPaths.

(** X11: [collectChildren] is a fan-in on [pending].  On a node whose
    counter holds [k], each of the first [k] calls returns false and does
    nothing but take one from the counter; the call after them finds the
    counter at zero and is the one that returns true. *)
Theorem collectChildren_fan_in `{P : Primitives} (N : nat) (t : SimplexTree)
    (tp : Tape) (max_err : double) (region : Region) (w : World) (k : nat) :
  pending t = Z.of_nat k →
  let call u := collectChildren N u tp max_err region w in
  let after j := Nat.iter j (λ u, snd (fst (call u))) t in
  (∀ j, j < k →
        call (after j)
        = (false, set_pending (Z.of_nat k - Z.of_nat j - 1) t, w))
  ∧ after k = set_pending 0 t
  ∧ fst (fst (call (after k))) = true
  ∧ (∀ u, fst (fst (call u)) = true ↔ pending u = 0%Z).
Proof.
  intros Hp. cbv zeta. split; [|split; [|split]].
  - intros j Hj. rewrite (iter_collectChildren_waits N t tp max_err region w k j)
      by (exact Hp || lia).
    rewrite collectChildren_waits by (cbn [set_pending pending]; lia).
    cbn [set_pending pending]. reflexivity.
  - rewrite (iter_collectChildren_waits N t tp max_err region w k k)
      by (exact Hp || lia).
    rewrite Z.sub_diag. reflexivity.
  - rewrite (iter_collectChildren_waits N t tp max_err region w k k)
      by (exact Hp || lia).
    apply collectChildren_collects. cbn [set_pending pending]. lia.
  - intros u. split.
    + intros H. destruct (decide (pending u = 0%Z)) as [|Hne]; [assumption|].
      rewrite collectChildren_waits in H by exact Hne. discriminate.
    + intros H. apply collectChildren_collects, H.
Qed.

Lemma collectChildren_fan_in_witness :
  let call (u : SimplexTree (P := Sample.prims)) :=
    collectChildren 2 u tt 1000%Z 0%Z Sample.world in
  let after j := Nat.iter j (λ u, snd (fst (call u))) (Sample.branch 3) in
  (∀ j, j < 3 →
        call (after j)
        = (false, set_pending (Z.of_nat 3 - Z.of_nat j - 1) (Sample.branch 3),
           Sample.world))
  ∧ after 3 = set_pending 0 (Sample.branch 3)
  ∧ fst (fst (call (after 3))) = true
  ∧ (∀ u, fst (fst (call u)) = true ↔ pending u = 0%Z).
Proof.
  apply (collectChildren_fan_in 2 (Sample.branch 3) tt 1000%Z 0%Z Sample.world 3).
  reflexivity.
Defined.

(** X12: when the counter is at zero and the children, none of them a
    branch, are all EMPTY or all FILLED, [collectChildren] gives the node
    that common type, leaves it without children and hands every child
    node to the tree pool.  When no child holds a leaf, as is the case for
    children that [evalLeaf] or [evalInterval] left EMPTY or FILLED, the heap
    and the subspace and leaf pools are not touched. *)
Theorem collectChildren_uniform_takes_type `{P : Primitives} (N : nat)
    (t : SimplexTree) (tp : Tape) (max_err : double) (region : Region)
    (w : World) (ty : Interval) :
  pending t = 0%Z → children t ≠ [] →
  Forall (λ c, isBranch c = false) (children t) →
  Forall (λ c, type c = ty) (children t) →
  ty = EMPTY ∨ ty = FILLED →
  let r := collectChildren N t tp max_err region w in
  let t' := snd (fst r) in
  fst (fst r) = true ∧ type t' = ty ∧ children t' = []
  ∧ done_signals t' = S (done_signals t)
  ∧ trees_returned (pool (snd r))
    = trees_returned (pool w) + length (children t)
  ∧ (Forall (λ c, leaf c = None) (children t) →
       store (snd r) = store w ∧ slots (snd r) = slots w
       ∧ free_subs (pool (snd r)) = free_subs (pool w)
       ∧ next_sub (pool (snd r)) = next_sub (pool w)
       ∧ leaves_returned (pool (snd r)) = leaves_returned (pool w)).
Proof.
  intros Hp Hne Hnb Hty Hcase. cbv zeta. unfold collectChildren. rewrite Hp.
  cbn [nz Z.eqb negb set_pending children].
  rewrite (existsb_isBranch _ Hnb).
  assert (Hsel :
    (if forallb (λ c, Interval_eqb (type c) EMPTY) (children t) then EMPTY
     else if forallb (λ c, Interval_eqb (type c) FILLED) (children t)
          then FILLED else AMBIGUOUS) = ty).
  { destruct Hcase as [->| ->].
    - apply forallb_type in Hty. rewrite Hty. reflexivity.
    - rewrite forallb_type_false.
      + apply forallb_type in Hty. rewrite Hty. reflexivity.
      + intros He. destruct (children t) as [|c cs]; [congruence|].
        apply Forall_cons in He as [He _]. apply Forall_cons in Hty as [Hf _].
        congruence. }
  rewrite Hsel. cbn [set_type type].
  destruct (fold_tree_releaseTo_count N (children t) w) as [Hc Hn].
  destruct Hcase as [->| ->]; cbn [Interval_eqb orb releaseChildren fst snd
    done set_children set_type type children done_signals];
    repeat split; try exact Hc; try (apply Hn; assumption).
Qed.

Lemma collectChildren_uniform_takes_type_witness :
  let t := {| type := AMBIGUOUS; leaf := None;
              children := [Sample.plain FILLED; Sample.plain FILLED;
                           Sample.plain FILLED; Sample.plain FILLED];
              pending := 0; done_signals := 0 |} in
  let r := collectChildren 2 t tt 1000%Z 0%Z Sample.world in
  let t' := snd (fst r) in
  fst (fst r) = true ∧ type t' = FILLED ∧ children t' = []
  ∧ done_signals t' = S (done_signals t)
  ∧ trees_returned (pool (snd r))
    = trees_returned (pool Sample.world) + length (children t)
  ∧ (Forall (λ c, leaf c = None) (children t) →
       store (snd r) = store Sample.world ∧ slots (snd r) = slots Sample.world
       ∧ free_subs (pool (snd r)) = free_subs (pool Sample.world)
       ∧ next_sub (pool (snd r)) = next_sub (pool Sample.world)
       ∧ leaves_returned (pool (snd r)) = leaves_returned (pool Sample.world)).
Proof.
  cbv zeta.
  apply (collectChildren_uniform_takes_type 2
           {| type := AMBIGUOUS; leaf := None;
              children := [Sample.plain FILLED; Sample.plain FILLED;
                           Sample.plain FILLED; Sample.plain FILLED];
              pending := 0; done_signals := 0 |}
           tt 1000%Z 0%Z Sample.world FILLED).
  - reflexivity.
  - discriminate.
  - repeat constructor.
  - repeat constructor.
  - right. reflexivity.
Defined.

(** ** The tentative leaf of [collectChildren] *)

Section GrabFacts.

Context `{P : Primitives}.
Variable N : nat.

Lemma fold_grab_step (l0 : SimplexLeaf) (w : World) (n : nat) :
  n ≤ length (sub l0) →
  let r := fold_left grab_step (seq 0 n) (l0, w) in
  let F := free_subs (pool w) in
  let nx := next_sub (pool w) in
  sub (fst r) = (take n F ++ seq nx (n - length F)) ++ drop n (sub l0)
  ∧ level (fst r) = level l0 ∧ tape (fst r) = tape l0
  ∧ store (snd r) = store w ∧ slots (snd r) = slots w
  ∧ free_subs (pool (snd r)) = drop n F
  ∧ next_sub (pool (snd r)) = nx + (n - length F)
  ∧ leaves_returned (pool (snd r)) = leaves_returned (pool w)
  ∧ trees_returned (pool (snd r)) = trees_returned (pool w).
Proof.
  intros Hn. induction n as [|n IH].
  - cbn. rewrite drop_0, Nat.add_0_r. repeat split.
  - cbv zeta in *. rewrite seq_S, fold_left_app. change (0 + n) with n.
    destruct IH as (Hs & Hlv & Htp & Hst & Hsl & Hf & Hnx & Hlr & Htr); [lia|].
    destruct (fold_left grab_step (seq 0 n) (l0, w)) as [l wn].
    cbn [fst snd] in *. cbn [fold_left grab_step].
    set (F := free_subs (pool w)) in *. set (nx := next_sub (pool w)) in *.
    assert (Hpre : length (take n F ++ seq nx (n - length F)) = n).
    { rewrite length_app, length_take, length_seq. lia. }
    assert (Hins : ∀ p, <[n:=p]> (sub l)
              = ((take n F ++ seq nx (n - length F)) ++ [p])
                ++ drop (S n) (sub l0)).
    { intros p. rewrite Hs. rewrite insert_app_r_alt by lia.
      rewrite Hpre, Nat.sub_diag.
      destruct (drop n (sub l0)) as [|x rest] eqn:Ed.
      - apply (f_equal length) in Ed. rewrite length_drop in Ed.
        cbn in Ed. lia.
      - assert (Hrest : rest = drop (S n) (sub l0)).
        { replace (S n) with (n + 1) by lia.
          rewrite <- drop_drop, Ed. reflexivity. }
        cbn [insert list_insert]. rewrite Hrest, <- !app_assoc. reflexivity. }
    unfold get_sub. rewrite Hf.
    destruct (drop n F) as [|p rest] eqn:Ed.
    + assert (HF : length F ≤ n).
      { apply (f_equal length) in Ed. rewrite length_drop in Ed. cbn in Ed. lia. }
      cbn [fst snd set_sub sub level tape store pool slots free_subs next_sub
           leaves_returned trees_returned].
      rewrite Hins, Hnx.
      rewrite (take_ge F (S n)), (take_ge F n) by lia.
      replace (S n - length F) with (S (n - length F)) by lia.
      rewrite seq_S, app_assoc, (drop_ge F (S n)) by lia.
      repeat split; try assumption; try lia.
    + assert (HF : n < length F).
      { apply (f_equal length) in Ed. rewrite length_drop in Ed. cbn in Ed. lia. }
      cbn [fst snd set_sub sub level tape store pool slots free_subs next_sub
           leaves_returned trees_returned].
      rewrite Hins, Hnx.
      assert (Hp : F !! n = Some p).
      { rewrite <- (Nat.add_0_r n), <- lookup_drop, Ed. reflexivity. }
      rewrite (take_S_r F n p Hp).
      replace (S n - length F) with 0 by lia.
      replace (n - length F) with 0 by lia. cbn [seq]. rewrite !app_nil_r.
      assert (Hrest : rest = drop (S n) F).
      { replace (S n) with (n + 1) by lia. rewrite <- drop_drop, Ed.
        reflexivity. }
      rewrite Hrest. repeat split; try assumption; try lia.
Qed.

Lemma fold_left_deref_frame {B : Type} (f : Store → B → Store) (L : list B)
    (st : Store) (p : ptr) :
  (∀ s b, In b L → deref N (f s b) p = deref N s p) →
  deref N (fold_left f L st) p = deref N st p.
Proof.
  revert st. induction L as [|b L IH]; intros st H; [reflexivity|].
  cbn [fold_left]. rewrite IH by (intros s c Hc; apply H; right; exact Hc).
  apply H. left. reflexivity.
Qed.

Lemma aggregate_frame (cs : list SimplexTree) (l : SimplexLeaf) (st : Store)
    (p : ptr) :
  (∀ i, i < ipow 3 N → nth i (sub l) nullptr ≠ p) →
  deref N (aggregate N cs l st) p = deref N st p.
Proof.
  intros Hp. unfold aggregate. apply fold_left_deref_frame.
  intros s i _. unfold aggregate_child.
  destruct (cs !! i) as [c|]; [|reflexivity].
  destruct (negb _); [reflexivity|].
  destruct (leaf c) as [cl|]; [|reflexivity].
  apply fold_left_deref_frame. intros s' j _. unfold aggregate_step.
  destruct (negb _); [reflexivity|].
  apply deref_modify_ne, Hp, contribution_target_lt.
Qed.

Lemma fold_left_deref_only {B : Type} (g : SimplexLeafSubspace → SimplexLeafSubspace)
    (f : Store → B → Store) (L : list B) (st : Store) (p : ptr) :
  (∀ s b, g (deref N (f s b) p) = g (deref N s p)) →
  g (deref N (fold_left f L st) p) = g (deref N st p).
Proof.
  revert st. induction L as [|b L IH]; intros st H; [reflexivity|].
  cbn [fold_left]. rewrite IH by exact H. apply H.
Qed.

Lemma aggregate_only_qef (cs : list SimplexTree) (l : SimplexLeaf)
    (st : Store) (p : ptr) :
  set_qef qef_zero (deref N (aggregate N cs l st) p)
  = set_qef qef_zero (deref N st p).
Proof.
  unfold aggregate. apply fold_left_deref_only.
  intros s i. unfold aggregate_child.
  destruct (cs !! i) as [c|]; [|reflexivity].
  destruct (negb _); [reflexivity|].
  destruct (leaf c) as [cl|]; [|reflexivity].
  apply fold_left_deref_only. intros s' j. unfold aggregate_step.
  destruct (negb _); [reflexivity|].
  rewrite deref_modify. case_decide; [subst|]; reflexivity.
Qed.

Lemma collectChildren_mixed_eq (t : SimplexTree) (tp : Tape)
    (max_err : double) (region : Region) (w : World) :
  pending t = 0%Z →
  Forall (λ c, isBranch c = false) (children t) →
  ¬ Forall (λ c, type c = EMPTY) (children t) →
  ¬ Forall (λ c, type c = FILLED) (children t) →
  let g := fold_left grab_step (seq 0 (ipow 3 N)) (leaf_reset N, w) in
  let st2 := aggregate N (children t) (fst g) (store (snd g)) in
  let u := Unroller N (ipow 3 N) (fst g) (replicate (ipow 3 N) false)
                    region st2 in
  collectChildren N t tp max_err region w
  = (true, done (set_leaf None (set_type AMBIGUOUS (set_pending (-1) t))),
     put_leaf (with_store (fst u) (snd g))).
Proof.
  intros Hp Hnb Hne Hnf. cbv zeta. unfold collectChildren. rewrite Hp.
  cbn [nz Z.eqb negb set_pending children].
  rewrite (existsb_isBranch _ Hnb).
  rewrite (forallb_type_false _ _ Hne), (forallb_type_false _ _ Hnf).
  cbn [set_type type Interval_eqb]. cbn [orb].
  destruct (fold_left grab_step (seq 0 (ipow 3 N)) (leaf_reset N, w))
    as [l w1].
  cbn [fst snd].
  destruct (Unroller N (ipow 3 N) l (replicate (ipow 3 N) false) region
              (aggregate N (children t) l (store w1))) as [st3 err].
  rewrite andb_false_r. reflexivity.
Qed.

End GrabFacts.

(** X13: on the path of [collectChildren] that builds a tentative leaf (the
    counter is at zero, no child is a branch, the children are neither all
    EMPTY nor all FILLED) the call takes [3^N] subspace records from the
    pool, reused ones first, and writes only to those: every other record
    of the heap, the children's among them, is left as it is, and in the
    records taken only QEF and vertex change.  The records taken are not
    handed back: the pool's free list loses them and gains nothing. *)
Theorem collectChildren_writes_only_grabbed `{P : Primitives} (N : nat)
    (t : SimplexTree) (tp : Tape) (max_err : double) (region : Region)
    (w : World) :
  pending t = 0%Z →
  Forall (λ c, isBranch c = false) (children t) →
  ¬ Forall (λ c, type c = EMPTY) (children t) →
  ¬ Forall (λ c, type c = FILLED) (children t) →
  let r := collectChildren N t tp max_err region w in
  let F := free_subs (pool w) in
  let grabbed := take (ipow 3 N) F ++ seq (next_sub (pool w)) (ipow 3 N - length F) in
  length grabbed = ipow 3 N
  ∧ (∀ p, ¬ In p grabbed → deref N (store (snd r)) p = deref N (store w) p)
  ∧ (∀ p, set_qef qef_zero (set_vert [] (deref N (store (snd r)) p))
          = set_qef qef_zero (set_vert [] (deref N (store w) p)))
  ∧ free_subs (pool (snd r)) = drop (ipow 3 N) F
  ∧ next_sub (pool (snd r)) = next_sub (pool w) + (ipow 3 N - length F)
  ∧ trees_returned (pool (snd r)) = trees_returned (pool w)
  ∧ slots (snd r) = slots w.
Proof.
  intros Hp Hnb Hne Hnf. cbv zeta.
  rewrite (collectChildren_mixed_eq N t tp max_err region w Hp Hnb Hne Hnf).
  cbv zeta. cbn [fst snd put_leaf with_store store pool slots free_subs
                 next_sub trees_returned].
  pose proof (fold_grab_step (leaf_reset N) w (ipow 3 N)) as Hg.
  cbn [leaf_reset sub level tape] in Hg. rewrite length_replicate in Hg.
  cbv zeta in Hg.
  destruct (Hg (le_n _)) as (Hs & _ & _ & Hst & Hsl & Hf & Hnx & _ & Htr).
  clear Hg.
  rewrite drop_ge, app_nil_r in Hs by (rewrite length_replicate; lia).
  set (g := fold_left grab_step (seq 0 (ipow 3 N)) (leaf_reset N, w)) in *.
  set (grabbed := take (ipow 3 N) (free_subs (pool w))
                  ++ seq (next_sub (pool w))
                         (ipow 3 N - length (free_subs (pool w)))) in *.
  assert (Hlen : length grabbed = ipow 3 N).
  { subst grabbed. rewrite length_app, length_take, length_seq. lia. }
  assert (Hin : ∀ p, ¬ In p grabbed →
                ∀ i, i < ipow 3 N → nth i (sub (fst g)) nullptr ≠ p).
  { intros p Hp' i Hi He. apply Hp'. rewrite <- He, Hs.
    apply nth_In. lia. }
  split; [exact Hlen|]. split; [|split].
  - intros p Hp'.
    destruct (Unroller_spec N (ipow 3 N) (fst g) (replicate (ipow 3 N) false)
                region (aggregate N (children t) (fst g) (store (snd g))))
      as (_ & Hu & _).
    rewrite Hu by (intros s Hs' _; apply Hin; assumption).
    rewrite aggregate_frame by (apply Hin; assumption).
    rewrite Hst. reflexivity.
  - intros p.
    pose proof (Unroller_only_vert N (ipow 3 N) (fst g)
                  (replicate (ipow 3 N) false) region
                  (aggregate N (children t) (fst g) (store (snd g))) p) as Hv.
    pose proof (aggregate_only_qef N (children t) (fst g) (store (snd g)) p)
      as Hq.
    transitivity (set_qef qef_zero
                    (set_vert []
                       (deref N (aggregate N (children t) (fst g)
                                           (store (snd g))) p))).
    + apply (f_equal (set_qef qef_zero)) in Hv. exact Hv.
    + apply (f_equal (set_vert [])) in Hq. rewrite <- Hst. exact Hq.
  - repeat split; assumption.
Qed.

Lemma collectChildren_writes_only_grabbed_witness :
  let t := Sample.branch 0 in
  let w := Sample.world in
  let r := collectChildren 2 t tt 1000%Z 0%Z w in
  let F := free_subs (pool w) in
  let grabbed := take (ipow 3 2) F ++ seq (next_sub (pool w)) (ipow 3 2 - length F) in
  length grabbed = ipow 3 2
  ∧ (∀ p, ¬ In p grabbed → deref 2 (store (snd r)) p = deref 2 (store w) p)
  ∧ (∀ p, set_qef qef_zero (set_vert [] (deref 2 (store (snd r)) p))
          = set_qef qef_zero (set_vert [] (deref 2 (store w) p)))
  ∧ free_subs (pool (snd r)) = drop (ipow 3 2) F
  ∧ next_sub (pool (snd r)) = next_sub (pool w) + (ipow 3 2 - length F)
  ∧ trees_returned (pool (snd r)) = trees_returned (pool w)
  ∧ slots (snd r) = slots w.
Proof.
  cbv zeta.
  apply (collectChildren_writes_only_grabbed 2 (Sample.branch 0) tt 1000%Z 0%Z
           Sample.world).
  - reflexivity.
  - repeat constructor.
  - intros H. apply Forall_cons in H as [H _]. discriminate H.
  - intros H. apply Forall_cons in H as [H _]. discriminate H.
Defined.

(** ** What [assignIndices] reaches and writes *)

Section ReachedFacts.

Context `{P : Primitives}.
Variable Neighbors : Type.
Variable push : Neighbors → nat → list SimplexTree → Neighbors.

Lemma children_loop_In_inv (mk : nat → Neighbors) (rest : list SimplexTree)
    (i : nat) (pre : list (Neighbors * SimplexLeaf))
    (x : Neighbors * SimplexLeaf) :
  In x (children_loop
          (λ i c acc, visit push (λ nb l acc, acc ++ [(nb, l)]) c (mk i) acc)
          rest i pre) →
  In x pre ∨ ∃ c nb, In c rest ∧ In x (visited push c nb).
Proof.
  revert i pre. induction rest as [|c rest IH]; intros i pre H.
  - left. exact H.
  - cbn [children_loop] in H. apply IH in H as [H|(c' & nb & Hc & Hx)].
    + rewrite visit_prefix in H. apply in_app_or in H as [H|H].
      * left. exact H.
      * right. exists c, (mk i). split; [left; reflexivity|exact H].
    + right. exists c', nb. split; [right; exact Hc|exact Hx].
Qed.

(** Every leaf that the traversal reaches sits at a node without children
    below the root. *)
Lemma visited_descendant (t : SimplexTree) :
  ∀ nb x, In x (visited push t nb) →
          ∃ u, descendant t u ∧ children u = [] ∧ leaf u = Some (snd x).
Proof.
  induction t as [ty lf cs p d IH] using SimplexTree_nested_ind.
  intros nb x Hx. unfold visited in Hx. destruct cs as [|c cs].
  - cbn in Hx. destruct lf as [l|]; [|destruct Hx].
    destruct Hx as [<-|[]]. eexists. split; [apply descendant_self|].
    split; reflexivity.
  - cbn [visit] in Hx.
    apply children_loop_In_inv in Hx as [[]|(c' & nb' & Hc & Hx)].
    rewrite Forall_forall in IH.
    destruct (IH c' ltac:(apply list_elem_of_In; exact Hc) nb' x Hx)
      as (u & Hd & Hu & Hl).
    exists u. split; [|split; assumption].
    eapply descendant_child; [|exact Hd]. exact Hc.
Qed.

End ReachedFacts.

Section AssignFrame.

Context `{P : Primitives}.
Variable N : nat.
Variable Neighbors : Type.
Variable getIndex : Neighbors → Store → nat → Z.
Variable push : Neighbors → nat → list SimplexTree → Neighbors.

Lemma assignIndices_fold (empty : Neighbors) (t : SimplexTree) (st : Store) :
  assignIndices N getIndex push empty t st
  = fold_left
      (λ a x, fold_left (assign_slot N getIndex (fst x) (snd x))
                        (seq 0 (ipow 3 N)) a)
      (visited push t empty) (1%Z, st).
Proof.
  unfold assignIndices. rewrite assignIndices_walk_visit.
  apply (visit_fold Neighbors push
           (λ nb l acc,
              fold_left (assign_slot N getIndex nb l) (seq 0 (ipow 3 N)) acc)).
Qed.

Lemma assign_slots_frame (nb : Neighbors) (l : SimplexLeaf) (L : list nat)
    (c : Z) (st : Store) (p : ptr) :
  (∀ i, In i L → nth i (sub l) nullptr ≠ p) →
  deref N (snd (fold_left (assign_slot N getIndex nb l) L (c, st))) p
  = deref N st p.
Proof.
  revert c st. induction L as [|i L IH]; intros c st H; [reflexivity|].
  cbn [fold_left].
  destruct (assign_slot N getIndex nb l (c, st) i) as [c1 st1] eqn:E.
  rewrite IH by (intros j Hj; apply H; right; exact Hj).
  unfold assign_slot in E.
  destruct (nz (getIndex nb st i)); inversion E; subst;
    apply deref_modify_ne, H; left; reflexivity.
Qed.

Lemma assign_leaves_frame (V : list (Neighbors * SimplexLeaf)) (c : Z)
    (st : Store) (p : ptr) :
  (∀ x i, In x V → i < ipow 3 N → nth i (sub (snd x)) nullptr ≠ p) →
  deref N
    (snd (fold_left
            (λ a x, fold_left (assign_slot N getIndex (fst x) (snd x))
                              (seq 0 (ipow 3 N)) a)
            V (c, st))) p
  = deref N st p.
Proof.
  revert c st. induction V as [|x V IH]; intros c st H; [reflexivity|].
  cbn [fold_left].
  destruct (fold_left (assign_slot N getIndex (fst x) (snd x))
              (seq 0 (ipow 3 N)) (c, st)) as [c1 st1] eqn:E.
  rewrite IH by (intros y i Hy Hi; apply H; [right; exact Hy|exact Hi]).
  pose proof (assign_slots_frame (fst x) (snd x) (seq 0 (ipow 3 N)) c st p) as Hf.
  rewrite E in Hf. apply Hf. intros i Hi. apply H; [left; reflexivity|].
  apply in_seq in Hi. lia.
Qed.

End AssignFrame.

(** X14: [assignIndices] writes nothing but index fields, and those only
    in the subspace records of leaves held by nodes without children of the
    tree: vertices, signs, QEFs and reference counts stay as they are, and a
    record that no such leaf holds is not touched. *)
Theorem assignIndices_writes_only_indices `{P : Primitives} (N : nat)
    (Neighbors : Type) (getIndex : Neighbors → Store → nat → Z)
    (push : Neighbors → nat → list SimplexTree → Neighbors)
    (empty : Neighbors) (t : SimplexTree) (st : Store) :
  let r := assignIndices N getIndex push empty t st in
  (∀ p, set_index 0 (deref N (snd r) p) = set_index 0 (deref N st p))
  ∧ (∀ p, (∀ u l i, descendant t u → children u = [] → leaf u = Some l →
                    i < ipow 3 N → nth i (sub l) nullptr ≠ p) →
          deref N (snd r) p = deref N st p).
Proof.
  cbv zeta. rewrite assignIndices_fold. split.
  - intros p. apply assign_leaves_only_index.
  - intros p Hp. apply assign_leaves_frame. intros x i Hx Hi.
    destruct (visited_descendant Neighbors push t empty x Hx)
      as (u & Hd & Hu & Hl).
    exact (Hp u (snd x) i Hd Hu Hl Hi).
Qed.

(** X15: on a tree in which no node without children holds a leaf, such as
    the single EMPTY node that [SimplexTree::empty()] builds,
    [assignIndices] leaves the heap as it is and its counter at 1. *)
Theorem assignIndices_without_leaves `{P : Primitives} (N : nat)
    (Neighbors : Type) (getIndex : Neighbors → Store → nat → Z)
    (push : Neighbors → nat → list SimplexTree → Neighbors)
    (empty : Neighbors) (t : SimplexTree) (st : Store) :
  (∀ u, descendant t u → children u = [] → leaf u = None) →
  assignIndices N getIndex push empty t st = (1%Z, st)
  ∧ visited push t empty = [].
Proof.
  intros H.
  assert (Hv : visited push t empty = []).
  { destruct (visited push t empty) as [|x V] eqn:E; [reflexivity|].
    destruct (visited_descendant Neighbors push t empty x) as (u & Hd & Hu & Hl).
    - rewrite E. left. reflexivity.
    - rewrite (H u Hd Hu) in Hl. discriminate. }
  split; [|exact Hv]. rewrite assignIndices_fold, Hv. reflexivity.
Qed.

Lemma assignIndices_without_leaves_witness :
  assignIndices 2 (SimplexNeighbors.getIndex 2) (SimplexNeighbors.push 2)
                (SimplexNeighbors.empty 2) (tree_empty SampleBuild.unbuilt)
                SampleBuild.heap
  = (1%Z, SampleBuild.heap)
  ∧ visited (SimplexNeighbors.push 2) (tree_empty SampleBuild.unbuilt)
            (SimplexNeighbors.empty 2) = [].
Proof.
  apply (assignIndices_without_leaves 2 SimplexNeighbors.t
           (SimplexNeighbors.getIndex 2) (SimplexNeighbors.push 2)
           (SimplexNeighbors.empty 2) (tree_empty SampleBuild.unbuilt)
           SampleBuild.heap).
  intros u Hd _. inversion Hd as [|? c ? Hin]; subst; [reflexivity|].
  destruct Hin.
Defined.

Section NumberFacts.

Context `{P : Primitives}.
Variable N : nat.
Variable Neighbors : Type.
Variable getIndex : Neighbors → Store → nat → Z.

(** Handing out the counter values to the records of [W], in order. *)
Lemma number_records (W : list ptr) (c : Z) (st : Store) :
  NoDup W → (0 ≤ c)%Z → (c + Z.of_nat (length W) < 2 ^ 64)%Z →
  let r :=
    fold_left (λ a p, (u64 (fst a + 1), modify N (set_index (fst a)) p (snd a)))
              W (c, st) in
  fst r = (c + Z.of_nat (length W))%Z
  ∧ (∀ j p, W !! j = Some p →
            index (deref N (snd r) p) = (c + Z.of_nat j)%Z)
  ∧ (∀ p, ¬ In p W → deref N (snd r) p = deref N st p).
Proof.
  revert c st. induction W as [|q W IH]; intros c st Hnd Hc Hb.
  - cbn. split; [lia|]. split; [intros j p H; discriminate|reflexivity].
  - apply NoDup_cons in Hnd as [Hq Hnd]. cbn [length] in Hb.
    cbn [fold_left fst snd]. rewrite u64_small by lia.
    destruct (IH (c + 1)%Z (modify N (set_index c) q st) Hnd ltac:(lia)
                 ltac:(lia)) as (Hf & Hi & Hfr).
    cbv zeta. split; [rewrite Hf; cbn [length]; lia|]. split.
    + intros [|j] p Hp.
      * cbn in Hp. inversion Hp; subst p.
        rewrite Hfr by (rewrite <- list_elem_of_In; exact Hq).
        rewrite deref_modify_eq. cbn. lia.
      * cbn in Hp. rewrite (Hi j p Hp). lia.
    + intros p Hp. rewrite Hfr by (intros H; apply Hp; right; exact H).
      apply deref_modify_ne. intros ->. apply Hp. left. reflexivity.
Qed.

Lemma assign_slots_quiet (nb : Neighbors) (l : SimplexLeaf) (L : list nat)
    (a : Z * Store) :
  (∀ s i, In i L → getIndex nb s i = 0%Z) →
  fold_left (assign_slot N getIndex nb l) L a
  = fold_left (λ a p, (u64 (fst a + 1), modify N (set_index (fst a)) p (snd a)))
              (map (λ i, nth i (sub l) nullptr) L) a.
Proof.
  revert a. induction L as [|i L IH]; intros [c st] H; [reflexivity|].
  cbn [fold_left map].
  rewrite assign_slot_quiet by (apply H; left; reflexivity).
  apply IH. intros s j Hj. apply H. right. exact Hj.
Qed.

End NumberFacts.

(** X16: on a tree in which no neighbor reports an index for a subspace of
    a visited leaf and the visited leaves share no subspace record (a tree
    that is a single leaf, for one), [assignIndices] numbers the subspaces
    consecutively from 1 in the order it visits them: the [j]-th record
    written, counting from 0, ends with index [j + 1], so that no two
    records share an index, and the counter ends one past the last index. *)
Theorem assignIndices_numbers_in_order `{P : Primitives} (N : nat)
    (Neighbors : Type) (getIndex : Neighbors → Store → nat → Z)
    (push : Neighbors → nat → list SimplexTree → Neighbors)
    (empty : Neighbors) (t : SimplexTree) (st : Store) :
  let written :=
    flat_map (λ x, map (λ i, nth i (sub (snd x)) nullptr) (seq 0 (ipow 3 N)))
             (visited push t empty) in
  (∀ x s i, In x (visited push t empty) → i < ipow 3 N →
            getIndex (fst x) s i = 0%Z) →
  NoDup written →
  (Z.of_nat (length written) < 2 ^ 64 - 1)%Z →
  let r := assignIndices N getIndex push empty t st in
  fst r = (1 + Z.of_nat (length written))%Z
  ∧ (∀ j p, written !! j = Some p →
            index (deref N (snd r) p) = (1 + Z.of_nat j)%Z)
  ∧ (∀ j k p q, written !! j = Some p → written !! k = Some q → j ≠ k →
                index (deref N (snd r) p) ≠ index (deref N (snd r) q)).
Proof.
  cbv zeta. intros Hq Hnd Hb. rewrite assignIndices_fold.
  rewrite (fold_left_flat_map_ext _
             (λ a p, (u64 (fst a + 1), modify N (set_index (fst a)) p (snd a)))
             (λ x, map (λ i, nth i (sub (snd x)) nullptr) (seq 0 (ipow 3 N)))).
  - destruct (number_records N _ 1%Z st Hnd ltac:(lia) ltac:(lia))
      as (Hf & Hi & _).
    split; [exact Hf|]. split; [exact Hi|].
    intros j k p q Hp Hq' Hne. rewrite (Hi j p Hp), (Hi k q Hq'). lia.
  - intros a x Hx. apply assign_slots_quiet. intros s i Hi.
    apply Hq; [exact Hx|]. apply in_seq in Hi. lia.
Qed.

Lemma assignIndices_numbers_in_order_witness :
  let t := Sample.ambiguous_leaf 1 in
  let written :=
    flat_map (λ x, map (λ i, nth i (sub (snd x)) nullptr) (seq 0 (ipow 3 2)))
             (visited (SimplexNeighbors.push 2) t (SimplexNeighbors.empty 2)) in
  let r := SampleIndices.assign t (Sample.heap 9) in
  fst r = (1 + Z.of_nat (length written))%Z
  ∧ (∀ j p, written !! j = Some p →
            index (deref 2 (snd r) p) = (1 + Z.of_nat j)%Z)
  ∧ (∀ j k p q, written !! j = Some p → written !! k = Some q → j ≠ k →
                index (deref 2 (snd r) p) ≠ index (deref 2 (snd r) q)).
Proof.
  cbv zeta.
  apply (assignIndices_numbers_in_order 2 SimplexNeighbors.t
           (SimplexNeighbors.getIndex 2) (SimplexNeighbors.push 2)
           (SimplexNeighbors.empty 2) (Sample.ambiguous_leaf 1) (Sample.heap 9)).
  - intros x s i Hin Hi.
    assert (Hv : visited (SimplexNeighbors.push 2) (Sample.ambiguous_leaf 1)
                   (SimplexNeighbors.empty 2)
                 = [(SimplexNeighbors.empty 2, Sample.leaf_at 1)])
      by reflexivity.
    rewrite Hv in Hin. destruct Hin as [<-|[]]. cbn [fst].
    do 9 (destruct i as [|i]; [reflexivity|]).
    exfalso. unfold ipow in Hi. simpl in Hi. lia.
  - vm_compute. apply (NoDup_seq 1 9).
  - vm_compute. reflexivity.
Defined.

(** ** The records that [evalLeaf] takes from the pool *)

Lemma NoDup_map_inj {A B : Type} (f : A → B) (L : list A) (x y : A) :
  NoDup (map f L) → In x L → In y L → f x = f y → x = y.
Proof.
  induction L as [|a L IH]; intros Hnd Hx Hy He; [destruct Hx|].
  cbn [map] in Hnd. apply NoDup_cons in Hnd as [Ha Hnd].
  destruct Hx as [->|Hx], Hy as [->|Hy]; try reflexivity.
  - exfalso. apply Ha. rewrite He. apply list_elem_of_In, in_map, Hy.
  - exfalso. apply Ha. rewrite <- He. apply list_elem_of_In, in_map, Hx.
  - apply IH; assumption.
Qed.

Lemma In_take {A : Type} (x : A) (n : nat) (l : list A) :
  In x (take n l) → In x l.
Proof.
  revert n. induction l as [|a l IH]; intros [|n]; cbn; try tauto.
  intros [->|H]; [left; reflexivity|right; exact (IH n H)].
Qed.

Section FreshFacts.

Context `{P : Primitives}.
Variable N : nat.
Variable Neighbors : Type.
Variable check : Neighbors → nat → option (SimplexLeaf * nat).

(** The pool as a supply: the free list, then the addresses not yet used. *)
Lemma get_sub_supply (w : World) (F : list ptr) (nx c K : nat) :
  free_subs (pool w) = drop c F →
  next_sub (pool w) = nx + (c - length F) →
  c < length F + K →
  (F ++ seq nx K) !! c = Some (fst (get_sub w))
  ∧ free_subs (pool (snd (get_sub w))) = drop (S c) F
  ∧ next_sub (pool (snd (get_sub w))) = nx + (S c - length F).
Proof.
  intros Hf Hn Hc. unfold get_sub. rewrite Hf.
  destruct (drop c F) as [|p rest] eqn:Ed.
  - assert (HF : length F ≤ c).
    { apply (f_equal length) in Ed. rewrite length_drop in Ed. cbn in Ed. lia. }
    cbn [fst snd pool free_subs next_sub].
    rewrite lookup_app_r by lia. rewrite lookup_seq_lt by lia.
    rewrite Hn, (drop_ge F (S c)) by lia.
    repeat split. lia.
  - assert (HF : c < length F).
    { apply (f_equal length) in Ed. rewrite length_drop in Ed. cbn in Ed. lia. }
    cbn [fst snd pool free_subs next_sub].
    assert (Hp : F !! c = Some p).
    { rewrite <- (Nat.add_0_r c), <- lookup_drop, Ed. reflexivity. }
    rewrite lookup_app_l by lia. rewrite Hn.
    split; [exact Hp|]. split; [|lia].
    replace (S c) with (c + 1) by lia. rewrite <- drop_drop, Ed. reflexivity.
Qed.

Lemma fold_borrow_fresh (nb : Neighbors) (l0 : SimplexLeaf) (s0 : list bool)
    (w : World) (K n : nat) :
  length (sub l0) = K → n ≤ K →
  let r := fold_left (borrow_step N check nb) (seq 0 n) (l0, s0, w) in
  let F := free_subs (pool w) in
  let nx := next_sub (pool w) in
  let unsolved :=
    List.filter (λ i, match check nb i with Some _ => false | None => true end)
                (seq 0 n) in
  let fresh := map (λ i, nth i (sub (fst (fst r))) nullptr) unsolved in
  fresh = take (length unsolved) (F ++ seq nx K)
  ∧ length (sub (fst (fst r))) = K
  ∧ free_subs (pool (snd r)) = drop (length unsolved) F
  ∧ next_sub (pool (snd r)) = nx + (length unsolved - length F).
Proof.
  intros HK Hn. induction n as [|n IH].
  - cbn. rewrite drop_0, Nat.add_0_r. repeat split. exact HK.
  - cbv zeta in *. rewrite seq_S, fold_left_app, List.filter_app.
    change (0 + n) with n.
    destruct IH as (Hfresh & Hlen & Hf & Hnx); [lia|].
    set (U := List.filter _ (seq 0 n)) in *.
    assert (HU : length U ≤ n).
    { subst U. etransitivity; [apply List.filter_length_le|].
      rewrite length_seq. reflexivity. }
    destruct (fold_left _ (seq 0 n) (l0, s0, w)) as [[l sv] wn].
    cbn [fst snd] in *. cbn [fold_left].
    rewrite borrow_step_eq by lia. cbn zeta. cbn [fst snd set_sub sub].
    assert (Hmap : map (λ i, nth i (<[n:=
                match check nb n with
                | Some (nl, ni) => nth ni (sub nl) nullptr
                | None => fst (get_sub wn)
                end]> (sub l)) nullptr) U
              = map (λ i, nth i (sub l) nullptr) U).
    { apply map_ext_in. intros i Hi. subst U.
      apply List.filter_In in Hi as [Hi _]. apply in_seq in Hi.
      rewrite nth_insert. rewrite decide_False by lia. reflexivity. }
    rewrite map_app, Hmap, length_app, length_insert. cbn [List.filter].
    destruct (check nb n) as [[nl ni]|] eqn:Ec.
    + cbn [map length with_store pool]. rewrite app_nil_r, Nat.add_0_r.
      repeat split; assumption.
    + destruct (get_sub_supply wn (free_subs (pool w)) (next_sub (pool w))
                  (length U) K Hf Hnx ltac:(lia)) as (Hg & Hf' & Hnx').
      cbn [map length with_store pool]. rewrite Nat.add_1_r.
      rewrite nth_insert, decide_True by (split; [reflexivity|lia]).
      rewrite (take_S_r _ _ _ Hg), Hfresh.
      repeat split; assumption.
Qed.

End FreshFacts.

(** X17: the subspaces that [evalLeaf] does not borrow receive, in slot
    order, the next records of the pool: the free list first, then
    addresses not yet used.  With a well-formed pool (no address twice in
    the free list, every free address below the next unused one) these
    records are pairwise distinct; when in addition the records borrowed
    from neighbors are in use (below the next unused address, not in the
    free list), a subspace that is not already solved shares its record
    with no other subspace of the leaf. *)
Theorem evalLeaf_takes_fresh_records `{P : Primitives} (N : nat)
    (Neighbors : Type)
    (neighbors_check : Neighbors → nat → option (SimplexLeaf * nat))
    (neighbors : Neighbors) (region : Region) (tp : Tape) (w : World) :
  let r := evalLeaf_solve N neighbors_check neighbors region tp w in
  let l := fst (fst r) in
  let already_solved := snd (fst r) in
  let F := free_subs (pool w) in
  let nx := next_sub (pool w) in
  let unsolved :=
    List.filter (λ i, negb (nth i already_solved false)) (seq 0 (ipow 3 N)) in
  let fresh := map (λ i, nth i (sub l) nullptr) unsolved in
  fresh = take (length unsolved) (F ++ seq nx (ipow 3 N))
  ∧ (NoDup F → (∀ p, In p F → p < nx) →
     NoDup fresh
     ∧ ((∀ i nl ni, i < ipow 3 N →
           neighbors_check neighbors i = Some (nl, ni) →
           nth ni (sub nl) nullptr < nx ∧ ¬ In (nth ni (sub nl) nullptr) F) →
        ∀ i j, i < ipow 3 N → j < ipow 3 N →
               nth j already_solved false = false → i ≠ j →
               nth i (sub l) nullptr ≠ nth j (sub l) nullptr)).
Proof.
  cbv zeta.
  destruct (evalLeaf_solve_shape N Neighbors neighbors_check neighbors region
              tp w) as (_ & _ & _ & _ & Hflag).
  revert Hflag. rewrite evalLeaf_solve_parts. cbn [fst snd]. intros Hflag.
  set (l0 := set_level 0 (set_tape (Some tp) (leaf_reset N))) in *.
  pose proof (fold_borrow_fresh N Neighbors neighbors_check neighbors l0
                (replicate (ipow 3 N) false) w (ipow 3 N) (ipow 3 N)) as Hb.
  cbv zeta in Hb.
  destruct Hb as (Hfresh & _); [subst l0; cbn; apply length_replicate|lia|].
  set (b := fold_left (borrow_step N neighbors_check neighbors)
                      (seq 0 (ipow 3 N)) (l0, replicate (ipow 3 N) false, w)) in *.
  assert (Hfilter :
    List.filter (λ i, negb (nth i (snd (fst b)) false)) (seq 0 (ipow 3 N))
    = List.filter
        (λ i, match neighbors_check neighbors i with
              | Some _ => false | None => true end)
        (seq 0 (ipow 3 N))).
  { apply List.filter_ext_in. intros i Hi. apply in_seq in Hi.
    destruct (Hflag i ltac:(lia)) as [-> _].
    destruct (neighbors_check neighbors i); reflexivity. }
  rewrite Hfilter. split; [exact Hfresh|].
  intros HndF Hlt.
  set (U := List.filter _ (seq 0 (ipow 3 N))) in *.
  assert (HG : NoDup (free_subs (pool w) ++ seq (next_sub (pool w)) (ipow 3 N))).
  { apply NoDup_app. split; [exact HndF|]. split; [|apply NoDup_seq].
    intros p Hp Hs. apply list_elem_of_In in Hp, Hs.
    apply Hlt in Hp. apply in_seq in Hs. lia. }
  assert (Hnd : NoDup (map (λ i, nth i (sub (fst (fst b))) nullptr) U)).
  { rewrite Hfresh. exact (sublist_NoDup _ _ HG (sublist_take _ _)). }
  split; [exact Hnd|].
  intros Hborrowed i j Hi Hj Hun Hne He.
  assert (HjU : In j U).
  { subst U. apply List.filter_In. split; [apply in_seq; lia|].
    destruct (Hflag j Hj) as [Hfj _]. rewrite Hfj in Hun.
    destruct (neighbors_check neighbors j); [discriminate|reflexivity]. }
  destruct (neighbors_check neighbors i) as [[nl ni]|] eqn:Ec.
  - destruct (Hflag i Hi) as [_ Hsub]. rewrite (Hsub nl ni Ec) in He.
    destruct (Hborrowed i nl ni Hi Ec) as [Hbl HbF].
    assert (Hin : In (nth j (sub (fst (fst b))) nullptr)
                     (map (λ i, nth i (sub (fst (fst b))) nullptr) U)).
    { apply in_map with (f := λ i, nth i (sub (fst (fst b))) nullptr). exact HjU. }
    rewrite Hfresh, <- He in Hin.
    apply In_take, in_app_or in Hin as [Hin|Hin]; [exact (HbF Hin)|].
    apply in_seq in Hin. lia.
  - assert (HiU : In i U).
    { subst U. apply List.filter_In. split; [apply in_seq; lia|].
      rewrite Ec. reflexivity. }
    apply Hne.
    exact (NoDup_map_inj (λ i, nth i (sub (fst (fst b))) nullptr) U i j Hnd
             HiU HjU He).
Qed.

(** ** What [evalLeaf] puts into a corner's QEF *)

Section SampleFacts.

Context `{P : Primitives}.
Variable N : nat.

Lemma fold_push_normal_qef (region : Region) (c : nat) (value : float)
    (s : ptr) (fs : list Vec3f) (st : Store) :
  qef (deref N (fold_left (push_normal N region c value s) fs st) s)
  = fold_left
      (λ q f, qef_insert q (region_corner region c)
                (if negb (all_finite (head_cast N f)) then replicate N dzero
                 else head_cast N f)
                value)
      fs (qef (deref N st s)).
Proof.
  revert st. induction fs as [|f fs IH]; intros st; [reflexivity|].
  cbn [fold_left]. rewrite IH. unfold push_normal.
  rewrite deref_modify_eq. reflexivity.
Qed.

Lemma sample_step_qef (tp : Tape) (region : Region) (l : SimplexLeaf)
    (ci : list nat) (w : World) (i : nat) :
  let c := nth i ci 0 in
  let s := nth (CornerIndex.neighbor N c) (sub l) nullptr in
  let ds := array_derivs tp (slots w i) in
  let ins q f :=
    qef_insert q (region_corner region c)
      (if negb (all_finite (head_cast N f)) then replicate N dzero
       else head_cast N f)
      (snd ds) in
  qef (deref N (store (sample_step N tp region l ci w i)) s)
  = if array_ambiguous tp (slots w i)
    then fold_left ins (feature_features tp (region_corner3f region c))
                   (qef (deref N (store w) s))
    else ins (qef (deref N (store w) s)) (fst ds).
Proof.
  cbv zeta. unfold sample_step. cbv zeta.
  destruct (array_ambiguous tp (slots w i)); cbn [with_store store].
  - apply fold_push_normal_qef.
  - apply (fold_push_normal_qef region (nth i ci 0)
             (snd (array_derivs tp (slots w i)))
             (nth (CornerIndex.neighbor N (nth i ci 0)) (sub l) nullptr)
             [fst (array_derivs tp (slots w i))] (store w)).
Qed.

Lemma fold_sample_step_at (tp : Tape) (region : Region) (l : SimplexLeaf)
    (ci : list nat) (w : World) (count i : nat) :
  i < count →
  let c := nth i ci 0 in
  let s := nth (CornerIndex.neighbor N c) (sub l) nullptr in
  (∀ j, j < count → j ≠ i →
        nth (CornerIndex.neighbor N (nth j ci 0)) (sub l) nullptr ≠ s) →
  let w' := fold_left (sample_step N tp region l ci) (seq 0 count) w in
  let ds := array_derivs tp (slots w i) in
  let ins q f :=
    qef_insert q (region_corner region c)
      (if negb (all_finite (head_cast N f)) then replicate N dzero
       else head_cast N f)
      (snd ds) in
  qef (deref N (store w') s)
  = if array_ambiguous tp (slots w i)
    then fold_left ins (feature_features tp (region_corner3f region c))
                   (qef (deref N (store w) s))
    else ins (qef (deref N (store w) s)) (fst ds).
Proof.
  intros Hi. cbv zeta. intros Hsep.
  replace count with (i + S (count - S i)) by lia.
  rewrite seq_app, fold_left_app. cbn [Nat.add seq fold_left].
  destruct (fold_sample_step_frame N tp region l ci (seq 0 i) w)
    as (_ & Hsl & _ & Hpre).
  set (w1 := fold_left (sample_step N tp region l ci) (seq 0 i) w) in *.
  destruct (fold_sample_step_frame N tp region l ci (seq (S i) (count - S i))
              (sample_step N tp region l ci w1 i)) as (_ & _ & _ & Hpost).
  rewrite Hpost.
  - rewrite sample_step_qef. rewrite Hsl, Hpre; [reflexivity|].
    intros j Hj. apply in_seq in Hj. apply not_eq_sym, Hsep; lia.
  - intros j Hj. apply in_seq in Hj. apply not_eq_sym, Hsep; lia.
Qed.

End SampleFacts.

(** X18: what [evalLeaf] samples at a corner.  For the [i]-th packed
    corner [c], whose record no other packed corner shares, the QEF of the
    corner's subspace receives samples at the position [region.corner(c)]
    with the value that the array evaluator returned at the corner: one
    sample with the evaluator's gradient when the corner is not ambiguous,
    and one per feature otherwise.  A gradient with a component that is
    not finite is replaced by zero.  The corner is one whose subspace was
    not already solved, and nothing but the QEF of its record changes. *)
Theorem evalLeaf_samples_corner `{P : Primitives} (N : nat) (region : Region)
    (tp : Tape) (l : SimplexLeaf) (already_solved : list bool) (w : World)
    (i : nat) :
  let k := fold_left (pack_step N region already_solved) (seq 0 (ipow 2 N))
                     (0, replicate (ipow 2 N) 0, w) in
  let count := fst (fst k) in
  let corner_indices := snd (fst k) in
  let w' := fold_left (sample_step N tp region l corner_indices)
                      (seq 0 count) (snd k) in
  let c := nth i corner_indices 0 in
  let s := nth (CornerIndex.neighbor N c) (sub l) nullptr in
  let ds := array_derivs tp (region_corner3f region c) in
  let ins q f :=
    qef_insert q (region_corner region c)
      (if negb (all_finite (head_cast N f)) then replicate N dzero
       else head_cast N f)
      (snd ds) in
  i < count →
  (∀ j, j < count → j ≠ i →
        nth (CornerIndex.neighbor N (nth j corner_indices 0)) (sub l) nullptr
        ≠ s) →
  c < ipow 2 N
  ∧ nth (CornerIndex.neighbor N c) already_solved false = false
  ∧ qef (deref N (store w') s)
    = (if array_ambiguous tp (region_corner3f region c)
       then fold_left ins (feature_features tp (region_corner3f region c))
                      (qef (deref N (store w) s))
       else ins (qef (deref N (store w) s)) (fst ds))
  ∧ set_qef qef_zero (deref N (store w') s)
    = set_qef qef_zero (deref N (store w) s).
Proof.
  cbv zeta. intros Hi Hsep.
  pose proof (fold_pack_step N region already_solved (replicate (ipow 2 N) 0)
                w (ipow 2 N)) as Hk.
  cbv zeta in Hk. rewrite length_replicate in Hk.
  destruct (Hk (le_n _)) as (Hc & Ht & _ & Hst & _ & Hlo & _). clear Hk.
  set (k := fold_left (pack_step N region already_solved) (seq 0 (ipow 2 N))
                      (0, replicate (ipow 2 N) 0, w)) in *.
  set (U := List.filter _ (seq 0 (ipow 2 N))) in *.
  rewrite Hc in Hi.
  assert (Hnth : nth i (snd (fst k)) 0 = nth i U 0).
  { transitivity (nth i (take (length U) (snd (fst k))) 0);
      [|rewrite Ht; reflexivity].
    rewrite !nth_lookup, lookup_take_lt by lia. reflexivity. }
  assert (HinU : In (nth i U 0) U) by (apply nth_In; lia).
  assert (HU := HinU). subst U. apply List.filter_In in HU as [Hrange Hun].
  apply in_seq in Hrange. apply negb_true_iff in Hun.
  rewrite <- Hnth in Hrange, Hun.
  split; [lia|]. split; [exact Hun|].
  pose proof (fold_sample_step_at N tp region l (snd (fst k)) (snd k)
                (fst (fst k)) i ltac:(rewrite Hc; exact Hi)) as Hq.
  cbv zeta in Hq. specialize (Hq Hsep).
  rewrite (Hlo i Hi), <- Hnth, Hst in Hq. split; [exact Hq|].
  destruct (fold_sample_step_frame N tp region l (snd (fst k))
              (seq 0 (fst (fst k))) (snd k)) as (_ & _ & Hframe & _).
  rewrite Hframe, Hst. reflexivity.
Qed.

Lemma evalLeaf_samples_corner_witness :
  let region := Sample.region in
  let l := Sample.leaf_at 1 in
  let w := Sample.world in
  let k := fold_left (pack_step 2 region (replicate 9 false)) (seq 0 (ipow 2 2))
                     (0, replicate (ipow 2 2) 0, w) in
  let count := fst (fst k) in
  let corner_indices := snd (fst k) in
  let w' := fold_left (sample_step (P := Sample.prims) 2 tt region l corner_indices)
                      (seq 0 count) (snd k) in
  let c := nth 1 corner_indices 0 in
  let s := nth (CornerIndex.neighbor 2 c) (sub l) nullptr in
  let ds := array_derivs (Primitives := Sample.prims) tt (region_corner3f region c) in
  let ins q f :=
    qef_insert q (region_corner region c)
      (if negb (all_finite (head_cast 2 f)) then replicate 2 dzero
       else head_cast 2 f)
      (snd ds) in
  c < ipow 2 2
  ∧ nth (CornerIndex.neighbor 2 c) (replicate 9 false) false = false
  ∧ qef (deref 2 (store w') s)
    = (if array_ambiguous (Primitives := Sample.prims) tt (region_corner3f region c)
       then fold_left ins (feature_features (Primitives := Sample.prims) tt (region_corner3f region c))
                      (qef (deref 2 (store w) s))
       else ins (qef (deref 2 (store w) s)) (fst ds))
  ∧ set_qef qef_zero (deref 2 (store w') s)
    = set_qef qef_zero (deref 2 (store w) s).
Proof.
  cbv zeta.
  assert (Hk : fst (fold_left (pack_step 2 Sample.region (replicate 9 false))
                      (seq 0 (ipow 2 2))
                      (0, replicate (ipow 2 2) 0, Sample.world))
               = (4, [0; 1; 2; 3]))
    by (vm_compute; reflexivity).
  apply (evalLeaf_samples_corner 2 Sample.region tt (Sample.leaf_at 1)
           (replicate 9 false) Sample.world 1).
  - rewrite Hk. cbn [fst]. lia.
  - rewrite Hk. cbn [fst snd]. intros j Hj Hne.
    destruct j as [|[|[|[|j]]]]; try lia; vm_compute; discriminate.
Defined.

(** ** Parent subspaces that receive nothing *)

Section HighFacts.

Context `{P : Primitives}.
Variable N : nat.

Lemma aggregate_frame_targets (cs : list SimplexTree) (l : SimplexLeaf)
    (st : Store) (p : ptr) :
  (∀ i j, i < ipow 2 N → j < ipow 3 N →
          nth (contribution_target N i j) (sub l) nullptr ≠ p) →
  deref N (aggregate N cs l st) p = deref N st p.
Proof.
  intros Hp. unfold aggregate. apply fold_left_deref_frame.
  intros s i Hi. apply in_seq in Hi. unfold aggregate_child.
  destruct (cs !! i) as [c|]; [|reflexivity].
  destruct (negb _); [reflexivity|].
  destruct (leaf c) as [cl|]; [|reflexivity].
  apply fold_left_deref_frame. intros s' j Hj. apply in_seq in Hj.
  unfold aggregate_step.
  destruct (negb _); [reflexivity|].
  apply deref_modify_ne, Hp; lia.
Qed.

End HighFacts.

(** X19: the aggregation loop of [collectChildren] adds nothing to a
    parent subspace that has an axis fixed HIGH.  With the [3^N] records of
    the parent leaf pairwise distinct, the record of such a subspace is
    left exactly as it was, whatever the children hold. *)
Theorem aggregate_skips_high_subspaces `{P : Primitives} (N : nat)
    (cs : list SimplexTree) (l : SimplexLeaf) (st : Store) (t d : nat) :
  N ≤ 8 → NoDup (sub l) → length (sub l) = ipow 3 N →
  t < ipow 3 N → d < N → NeighborIndex.axis_high t d = true →
  deref N (aggregate N cs l st) (nth t (sub l) nullptr)
  = deref N st (nth t (sub l) nullptr)
  ∧ ∀ i j, i < ipow 2 N → contribution_target N i j ≠ t.
Proof.
  intros HN Hnd Hlen Ht Hd Hhigh.
  assert (Hne : ∀ i j, i < ipow 2 N → contribution_target N i j ≠ t).
  { intros i j Hi He.
    pose proof (contribution_target_digit N i j d HN Hi Hd) as Hdig.
    rewrite He in Hdig. unfold NeighborIndex.axis_high in Hhigh.
    apply Nat.eqb_eq in Hhigh. rewrite Hhigh in Hdig.
    destruct (NeighborIndex.digit j d =? 0); discriminate. }
  split; [|exact Hne].
  apply aggregate_frame_targets. intros i j Hi Hj He.
  apply (Hne i j Hi).
  apply (proj1 (List.NoDup_nth (sub l) nullptr) (proj1 (NoDup_ListNoDup _) Hnd));
    [rewrite Hlen; apply contribution_target_lt|rewrite Hlen; exact Ht|exact He].
Qed.

Lemma aggregate_skips_high_subspaces_witness :
  deref 2 (aggregate 2 Sample.kids Sample.parent_leaf (Sample.heap 18))
          (nth 2 (sub Sample.parent_leaf) nullptr)
  = deref 2 (Sample.heap 18) (nth 2 (sub Sample.parent_leaf) nullptr)
  ∧ ∀ i j, i < ipow 2 2 → contribution_target 2 i j ≠ 2.
Proof.
  apply (aggregate_skips_high_subspaces 2 Sample.kids Sample.parent_leaf
           (Sample.heap 18) 2 0).
  - lia.
  - apply (NoDup_seq 19 9).
  - reflexivity.
  - vm_compute. lia.
  - lia.
  - reflexivity.
Defined.

(** * Heap effects of release, aggregation and numbering *)

(** ** Index assignment on a tree that is not yet indexed *)

Lemma fold_left_map_in {A B C : Type} (f : A → B → A) (g : C → B) (L : list C)
    (a : A) :
  fold_left f (map g L) a = fold_left (λ a c, f a (g c)) L a.
Proof. revert a. induction L as [|c L IH]; intros a; [reflexivity|]. apply IH. Qed.

Lemma set_index_same `{P : Primitives} (x : SimplexLeafSubspace) :
  set_index (index x) x = x.
Proof. destruct x. reflexivity. Qed.

Section DenseFacts.

Context `{P : Primitives}.
Variable N : nat.
Variable Neighbors : Type.
Variable getIndex : Neighbors → Store → nat → Z.

Lemma length_slot_visits (V : list (Neighbors * SimplexLeaf)) :
  length (slot_visits N V) = ipow 3 N * length V.
Proof.
  unfold slot_visits. induction V as [|x V IH]; cbn [flat_map length]; [lia|].
  rewrite length_app, length_map, length_seq, IH. lia.
Qed.

(** The double loop over the leaves is one loop over the visits. *)
Lemma assign_leaves_visits (V : list (Neighbors * SimplexLeaf))
    (a : Z * Store) :
  fold_left
    (λ a x, fold_left (assign_slot N getIndex (fst x) (snd x))
                      (seq 0 (ipow 3 N)) a)
    V a
  = fold_left
      (λ a y, assign_slot N getIndex (fst (fst y)) (snd (fst y)) a (snd y))
      (slot_visits N V) a.
Proof.
  unfold slot_visits. apply fold_left_flat_map_ext. intros b x _.
  rewrite fold_left_map_in. reflexivity.
Qed.

Lemma dense_prefix (Y : list (Neighbors * SimplexLeaf * nat)) (st : Store) :
  (Z.of_nat (length Y) < 2 ^ 64 - 1)%Z →
  (∀ p, In p (map visit_record Y) → index (deref N st p) = 0%Z) →
  (∀ k y, Y !! k = Some y → ∀ s,
     getIndex (fst (fst y)) s (snd y) = 0%Z
     ∨ getIndex (fst (fst y)) s (snd y) = index (deref N s (visit_record y))) →
  (∀ k y, Y !! k = Some y →
     In (visit_record y) (map visit_record (take k Y)) →
     ∀ s, index (deref N s (visit_record y)) ≠ 0%Z →
          getIndex (fst (fst y)) s (snd y) ≠ 0%Z) →
  ∀ k, k ≤ length Y →
    let a :=
      fold_left
        (λ a y, assign_slot N getIndex (fst (fst y)) (snd (fst y)) a (snd y))
        (take k Y) (1%Z, st) in
    ∃ D, NoDup D ∧ length D ≤ k
         ∧ (∀ q, In q D ↔ In q (map visit_record (take k Y)))
         ∧ fst a = (1 + Z.of_nat (length D))%Z
         ∧ (∀ j q, D !! j = Some q →
                   index (deref N (snd a) q) = (1 + Z.of_nat j)%Z)
         ∧ (∀ q, In q (map visit_record Y) →
                 ¬ In q (map visit_record (take k Y)) →
                 index (deref N (snd a) q) = 0%Z).
Proof.
  intros Hb H0 H1 H2. induction k as [|k IH]; intros Hk.
  - cbn. exists []. split; [constructor|]. split; [reflexivity|].
    split; [tauto|]. split; [reflexivity|]. split.
    + intros j q Hj. discriminate.
    + intros q Hq _. apply H0, Hq.
  - destruct IH as (D & Hnd & Hlen & Hmem & Hc & Hidx & Hzero); [lia|].
    destruct (lookup_lt_is_Some_2 Y k ltac:(lia)) as [y Hy].
    cbv zeta in *. rewrite (take_S_r Y k y Hy), fold_left_app, map_app.
    destruct (fold_left _ (take k Y) (1%Z, st)) as [c s] eqn:E.
    cbn [fst snd] in Hc, Hidx, Hzero. cbn [fold_left map].
    unfold assign_slot. fold (visit_record y).
    set (p := visit_record y) in *.
    destruct (in_dec Nat.eq_dec p (map visit_record (take k Y))) as [Hseen|Hnew].
    + (* a record met before: its own index is reported and written back *)
      assert (HpD : In p D) by (apply Hmem, Hseen).
      apply list_elem_of_In, list_elem_of_lookup in HpD as [j Hj].
      pose proof (Hidx j p Hj) as Hpj.
      assert (Hnz : index (deref N s p) ≠ 0%Z) by lia.
      pose proof (H2 k y Hy Hseen s Hnz) as Hrep.
      destruct (H1 k y Hy s) as [Hz|Hown]; [contradiction|].
      rewrite (proj2 (nz_true _) Hrep). cbn [fst snd].
      assert (Hsame : ∀ q, deref N (modify N (set_index
                         (getIndex (fst (fst y)) s (snd y))) p s) q
                           = deref N s q).
      { intros q. rewrite deref_modify. case_decide; [subst q|reflexivity].
        rewrite Hown. apply set_index_same. }
      exists D. split; [exact Hnd|]. split; [lia|]. split.
      { intros q. rewrite Hmem, in_app_iff. cbn [In]. split; [tauto|].
        intros [Hq|[<-|[]]]; assumption. }
      split; [exact Hc|]. split.
      * intros j' q Hq. rewrite Hsame. apply Hidx, Hq.
      * intros q Hq Hnot. rewrite Hsame. apply Hzero; [exact Hq|].
        intros Hin. apply Hnot, in_or_app. left. exact Hin.
    + (* a record met for the first time: it takes the counter value *)
      assert (HpY : In p (map visit_record Y)).
      { apply in_map. apply list_elem_of_In, list_elem_of_lookup. eauto. }
      pose proof (Hzero p HpY Hnew) as Hpz.
      assert (Hg : getIndex (fst (fst y)) s (snd y) = 0%Z).
      { destruct (H1 k y Hy s) as [Hz|Hown]; [exact Hz|]. rewrite Hown.
        exact Hpz. }
      rewrite Hg. cbn [nz Z.eqb negb fst snd].
      assert (HpD : ¬ In p D) by (rewrite Hmem; exact Hnew).
      rewrite u64_small by lia.
      exists (D ++ [p]). split.
      { apply NoDup_app. split; [exact Hnd|]. split; [|apply NoDup_singleton].
        intros q Hq Hq'. apply list_elem_of_singleton in Hq'. subst q.
        apply HpD, list_elem_of_In, Hq. }
      rewrite length_app. cbn [length]. split; [lia|]. split.
      { intros q. rewrite !in_app_iff, Hmem. reflexivity. }
      split; [lia|]. split.
      * intros j q Hq. apply lookup_app_Some in Hq as [Hq|[Hge Hq]].
        -- rewrite deref_modify_ne.
           ++ apply Hidx, Hq.
           ++ intros ->. apply HpD, list_elem_of_In.
              apply (list_elem_of_lookup_2 _ _ _ Hq).
        -- destruct (j - length D) as [|?] eqn:Ej; [|discriminate].
           cbn in Hq. inversion Hq; subst q.
           rewrite deref_modify_eq. cbn [set_index index]. lia.
      * intros q Hq Hnot. rewrite deref_modify_ne.
        -- apply Hzero; [exact Hq|]. intros Hin. apply Hnot, in_or_app.
           left. exact Hin.
        -- intros ->. apply Hnot, in_or_app. right. left. reflexivity.
Qed.

End DenseFacts.

Section ModelReports.

Context `{P : Primitives}.
Variable N : nat.

Lemma getIndex_keeps (f : nat → Z) (L : list nat) (acc : Z) :
  acc ≠ 0%Z →
  fold_left (λ acc n, if nz acc then acc else f n) L acc ≠ 0%Z.
Proof.
  revert acc. induction L as [|n L IH]; intros acc Ha; [exact Ha|].
  cbn [fold_left]. apply IH. rewrite (proj2 (nz_true _) Ha). exact Ha.
Qed.

Lemma getIndex_fold (nb : SimplexNeighbors.t) (st : Store) (i : nat) :
  SimplexNeighbors.getIndex N nb st i
  = fold_left
      (λ acc n,
         if nz acc then acc
         else match SimplexNeighbors.sharing_leaf N nb i n with
              | Some l =>
                  index (deref N st
                           (nth (SimplexNeighbors.mirror N i n) (sub l) nullptr))
              | None => 0%Z
              end)
      (seq 0 (ipow 3 N)) 0%Z.
Proof. reflexivity. Qed.

Lemma shares_only_getIndex (nb : SimplexNeighbors.t) (i : nat) (p : ptr)
    (st : Store) :
  shares_only N nb i p = true →
  SimplexNeighbors.getIndex N nb st i = 0%Z
  ∨ SimplexNeighbors.getIndex N nb st i = index (deref N st p).
Proof.
  unfold shares_only. rewrite getIndex_fold.
  generalize (seq 0 (ipow 3 N)) as L.
  assert (H : ∀ L acc,
    acc = 0%Z ∨ acc = index (deref N st p) →
    forallb
      (λ n, match SimplexNeighbors.sharing_leaf N nb i n with
            | Some l => nth (SimplexNeighbors.mirror N i n) (sub l) nullptr =? p
            | None => true
            end) L = true →
    let r :=
      fold_left
        (λ acc n,
           if nz acc then acc
           else match SimplexNeighbors.sharing_leaf N nb i n with
                | Some l =>
                    index (deref N st
                             (nth (SimplexNeighbors.mirror N i n) (sub l)
                                  nullptr))
                | None => 0%Z
                end) L acc in
    r = 0%Z ∨ r = index (deref N st p)).
  { induction L as [|n L IH]; intros acc Ha Hall; [exact Ha|].
    cbn [forallb] in Hall. apply andb_true_iff in Hall as [Hn Hall].
    cbn [fold_left]. apply IH; [|exact Hall].
    destruct (nz acc); [exact Ha|].
    destruct (SimplexNeighbors.sharing_leaf N nb i n) as [l|]; [|left; reflexivity].
    apply Nat.eqb_eq in Hn. rewrite Hn. right. reflexivity. }
  intros L Hall. apply (H L 0%Z); [left; reflexivity|exact Hall].
Qed.

Lemma shares_record_getIndex (nb : SimplexNeighbors.t) (i : nat) (p : ptr)
    (st : Store) :
  shares_record N nb i p = true →
  index (deref N st p) ≠ 0%Z →
  SimplexNeighbors.getIndex N nb st i ≠ 0%Z.
Proof.
  unfold shares_record. rewrite getIndex_fold. intros Hex Hnz.
  assert (H : ∀ L acc,
    existsb
      (λ n, match SimplexNeighbors.sharing_leaf N nb i n with
            | Some l => nth (SimplexNeighbors.mirror N i n) (sub l) nullptr =? p
            | None => false
            end) L = true →
    fold_left
      (λ acc n,
         if nz acc then acc
         else match SimplexNeighbors.sharing_leaf N nb i n with
              | Some l =>
                  index (deref N st
                           (nth (SimplexNeighbors.mirror N i n) (sub l) nullptr))
              | None => 0%Z
              end) L acc ≠ 0%Z).
  { induction L as [|n L IH]; intros acc HL; [discriminate|].
    cbn [existsb] in HL. cbn [fold_left].
    apply orb_true_iff in HL as [Hn|HL]; [|apply IH, HL].
    apply (getIndex_keeps
             (λ n, match SimplexNeighbors.sharing_leaf N nb i n with
                   | Some l =>
                       index (deref N st
                                (nth (SimplexNeighbors.mirror N i n) (sub l)
                                     nullptr))
                   | None => 0%Z
                   end)).
    destruct (nz acc) eqn:Ea; [apply nz_true, Ea|].
    destruct (SimplexNeighbors.sharing_leaf N nb i n) as [l|]; [|discriminate].
    apply Nat.eqb_eq in Hn. rewrite Hn. exact Hnz. }
  apply H, Hex.
Qed.

Lemma sharing_consistent_reports
    (Y : list (SimplexNeighbors.t * SimplexLeaf * nat)) :
  sharing_consistent N Y = true →
  ∀ k y, Y !! k = Some y → ∀ s,
    SimplexNeighbors.getIndex N (fst (fst y)) s (snd y) = 0%Z
    ∨ SimplexNeighbors.getIndex N (fst (fst y)) s (snd y)
      = index (deref N s (visit_record y)).
Proof.
  unfold sharing_consistent. intros H k y Hy s.
  apply shares_only_getIndex.
  rewrite forallb_forall in H. apply H.
  apply list_elem_of_In, (list_elem_of_lookup_2 _ _ _ Hy).
Qed.

Lemma sharing_complete_reports
    (Y : list (SimplexNeighbors.t * SimplexLeaf * nat)) :
  sharing_complete N Y = true →
  ∀ k y, Y !! k = Some y →
    In (visit_record y) (map visit_record (take k Y)) →
    ∀ s, index (deref N s (visit_record y)) ≠ 0%Z →
         SimplexNeighbors.getIndex N (fst (fst y)) s (snd y) ≠ 0%Z.
Proof.
  unfold sharing_complete. intros H k y Hy Hin s Hnz.
  rewrite forallb_forall in H.
  pose proof (lookup_lt_Some _ _ _ Hy) as Hlt.
  specialize (H k ltac:(apply in_seq; lia)).
  rewrite Hy in H.
  assert (Hex : existsb (Nat.eqb (visit_record y))
                        (map visit_record (take k Y)) = true).
  { apply existsb_exists. exists (visit_record y).
    split; [exact Hin|apply Nat.eqb_refl]. }
  rewrite Hex in H.
  apply (shares_record_getIndex _ _ (visit_record y)); assumption.
Qed.

End ModelReports.




(** ** How often one child subspace is added *)

Lemma filter_flat_map {A B : Type} (sel : B → bool) (f : A → list B)
    (L : list A) :
  List.filter sel (flat_map f L) = flat_map (λ x, List.filter sel (f x)) L.
Proof.
  induction L as [|x L IH]; [reflexivity|].
  cbn [flat_map]. rewrite List.filter_app, IH. reflexivity.
Qed.

Lemma flat_map_single {B : Type} (g : nat → list B) (n i : nat) :
  i < n → (∀ k, k ≠ i → g k = []) → flat_map g (seq 0 n) = g i.
Proof.
  intros Hi Hg.
  assert (Hnil : ∀ L, ¬ In i L → flat_map g L = []).
  { induction L as [|k L IH]; intros Hk; [reflexivity|].
    cbn [flat_map]. rewrite Hg, IH; [reflexivity| |].
    - intros H. apply Hk. right. exact H.
    - intros ->. apply Hk. left. reflexivity. }
  replace n with (i + S (n - S i)) by lia.
  rewrite seq_app, flat_map_app. cbn [Nat.add seq flat_map].
  rewrite !Hnil, app_nil_r; [reflexivity| |].
  - intros H. apply in_seq in H. lia.
  - intros H. apply in_seq in H. lia.
Qed.

Lemma filter_filter_comm {A : Type} (f g : A → bool) (L : list A) :
  List.filter f (List.filter g L) = List.filter g (List.filter f L).
Proof.
  induction L as [|x L IH]; [reflexivity|].
  cbn [List.filter]. destruct (f x) eqn:Ef, (g x) eqn:Eg; cbn [List.filter];
    rewrite ?Ef, ?Eg, IH; reflexivity.
Qed.

Section CountFacts.

Context `{P : Primitives}.
Variable N : nat.

(** The additions that come from subspace [j] of child [i]. *)
Lemma contributions_of (cs : list SimplexTree) (i j : nat) (c : SimplexTree)
    (cl : SimplexLeaf) :
  i < ipow 2 N → j < ipow 3 N →
  cs !! i = Some c → type c = AMBIGUOUS → leaf c = Some cl →
  List.filter (λ x, (snd (fst x) =? i) && (snd x =? j)) (contributions N cs)
  = if contribution_valid N i j then [(contribution_target N i j, i, j)]
    else [].
Proof.
  intros Hi Hj Hc Hty Hl. unfold contributions. rewrite filter_flat_map.
  rewrite (flat_map_single _ (ipow 2 N) i Hi).
  - rewrite Hc, Hty, Hl. cbn [Interval_eqb negb].
    rewrite filter_flat_map.
    rewrite (flat_map_single _ (ipow 3 N) j Hj).
    + destruct (contribution_valid N i j); cbn [negb List.filter fst snd];
        [|reflexivity].
      rewrite !Nat.eqb_refl. reflexivity.
    + intros k Hk. destruct (negb (contribution_valid N i k)); [reflexivity|].
      cbn [List.filter fst snd].
      rewrite (proj2 (Nat.eqb_neq k j) Hk), andb_false_r. reflexivity.
  - intros k Hk.
    destruct (cs !! k) as [c'|]; [|reflexivity].
    destruct (negb (Interval_eqb (type c') AMBIGUOUS)); [reflexivity|].
    destruct (leaf c') as [cl'|]; [|reflexivity].
    rewrite filter_flat_map.
    induction (seq 0 (ipow 3 N)) as [|j' L IH]; [reflexivity|].
    cbn [flat_map]. rewrite IH.
    destruct (negb (contribution_valid N k j')); [reflexivity|].
    cbn [List.filter fst snd].
    rewrite (proj2 (Nat.eqb_neq k i) Hk). reflexivity.
Qed.

Lemma aggregate_sums (cs : list SimplexTree) (l : SimplexLeaf) (st : Store)
    (t : nat) :
  NoDup (sub l) → length (sub l) = ipow 3 N →
  (∀ i c cl j, cs !! i = Some c → leaf c = Some cl → j < ipow 3 N →
     nth j (sub cl) nullptr ∉ sub l) →
  t < ipow 3 N →
  qef (deref N (aggregate N cs l st) (nth t (sub l) nullptr))
  = fold_left qef_add
      (map (contribution_qef N cs st) (contributions_to t (contributions N cs)))
      (qef (deref N st (nth t (sub l) nullptr))).
Proof.
  intros Hnd Hlen Hsep Ht. rewrite aggregate_contributions.
  apply fold_add_contribution; [exact Hnd| |lia].
  intros target i j Hin. apply in_contributions in Hin.
  destruct Hin as (_ & Hj & (c & cl & Hc & Hty & Hl) & _ & ->).
  split; [rewrite Hlen; apply contribution_target_lt|].
  exists cl. split; [rewrite Hc; exact Hl|]. eapply Hsep; eassumption.
Qed.

End CountFacts.

(** C5: in the aggregation of [collectChildren], the QEF of subspace [j] of
    child corner [i] (an AMBIGUOUS child, which is what holds subspaces) is
    added to a parent subspace if and only if, on every axis that is fixed in
    [j], either [j] is on the HIGH side or the child corner is on the HIGH
    side.  With the parent's records distinct from each other and from the
    children's, every parent QEF in the heap ends as its starting value plus
    the QEFs added to it, in loop order; the QEF of subspace [j] of child
    [i], as it stands in the heap, is one of the terms of exactly one parent
    QEF, once, when the condition holds, and a term of none when it does
    not. *)
Theorem contribution_counted_iff `{P : Primitives} (N : nat)
    (cs : list SimplexTree) (l : SimplexLeaf) (st : Store)
    (i j : nat) (c : SimplexTree) (cl : SimplexLeaf) :
  NoDup (sub l) → length (sub l) = ipow 3 N →
  (∀ i c cl j, cs !! i = Some c → leaf c = Some cl → j < ipow 3 N →
     nth j (sub cl) nullptr ∉ sub l) →
  i < ipow 2 N → j < ipow 3 N →
  cs !! i = Some c → type c = AMBIGUOUS → leaf c = Some cl →
  let counted :=
    ∀ d, d < N → NeighborIndex.axis_floating j d = false →
         NeighborIndex.axis_high j d = true ∨ CornerIndex.axis_high i d = true in
  let target := contribution_target N i j in
  let added_to t := contributions_to t (contributions N cs) in
  let from_ij := List.filter (λ x, (snd (fst x) =? i) && (snd x =? j)) in
  (∀ t, t < ipow 3 N →
        qef (deref N (aggregate N cs l st) (nth t (sub l) nullptr))
        = fold_left qef_add (map (contribution_qef N cs st) (added_to t))
                    (qef (deref N st (nth t (sub l) nullptr))))
  ∧ (counted →
       target < ipow 3 N
       ∧ from_ij (added_to target) = [(target, i, j)]
       ∧ contribution_qef N cs st (target, i, j)
         = qef (deref N st (nth j (sub cl) nullptr))
       ∧ ∀ t, t ≠ target → from_ij (added_to t) = [])
  ∧ (¬ counted → ∀ t, from_ij (added_to t) = [])
  ∧ ((∃ t, In (t, i, j) (contributions N cs)) ↔ counted)
  ∧ aggregate N cs l st
    = fold_left (add_contribution N cs l) (contributions N cs) st.
Proof.
  intros Hnd Hlen Hsep Hi Hj Hc Hty Hl. cbv zeta.
  pose proof (contributions_of N cs i j c cl Hi Hj Hc Hty Hl) as Hof.
  assert (Hto : ∀ t,
    List.filter (λ x, (snd (fst x) =? i) && (snd x =? j))
                (contributions_to t (contributions N cs))
    = List.filter (λ x, fst (fst x) =? t)
        (if contribution_valid N i j then [(contribution_target N i j, i, j)]
         else [])).
  { intros t. unfold contributions_to. rewrite filter_filter_comm, Hof.
    reflexivity. }
  split; [intros t Ht; apply aggregate_sums; assumption|].
  split; [|split; [|split]].
  - intros Hv. apply contribution_valid_iff in Hv.
    split; [apply contribution_target_lt|]. split; [|split].
    + rewrite Hto, Hv. cbn [List.filter fst]. rewrite Nat.eqb_refl. reflexivity.
    + unfold contribution_qef. cbn [fst snd]. rewrite Hc. cbn. rewrite Hl.
      reflexivity.
    + intros t Hne. rewrite Hto, Hv. cbn [List.filter fst].
      rewrite (proj2 (Nat.eqb_neq _ _) (not_eq_sym Hne)). reflexivity.
  - intros Hnv t. rewrite Hto.
    destruct (contribution_valid N i j) eqn:Hv; [|reflexivity].
    exfalso. apply Hnv, contribution_valid_iff, Hv.
  - rewrite <- contribution_valid_iff. split.
    + intros (t & Hin). apply in_contributions in Hin. tauto.
    + intros Hv. exists (contribution_target N i j).
      apply in_contributions. repeat split; eauto.
  - apply aggregate_contributions.
Qed.

Lemma contribution_counted_iff_witness :
  let cs := Sample.kids in
  let l := Sample.parent_leaf in
  let st := Sample.heap 18 in
  let counted :=
    ∀ d, d < 2 → NeighborIndex.axis_floating 3 d = false →
         NeighborIndex.axis_high 3 d = true ∨ CornerIndex.axis_high 1 d = true in
  let target := contribution_target 2 1 3 in
  let added_to t := contributions_to t (contributions 2 cs) in
  let from_ij := List.filter (λ x : nat * nat * nat, (snd (fst x) =? 1) && (snd x =? 3)) in
  (∀ t, t < ipow 3 2 →
        qef (deref 2 (aggregate 2 cs l st) (nth t (sub l) nullptr))
        = fold_left qef_add (map (contribution_qef 2 cs st) (added_to t))
                    (qef (deref 2 st (nth t (sub l) nullptr))))
  ∧ (counted →
       target < ipow 3 2
       ∧ from_ij (added_to target) = [(target, 1, 3)]
       ∧ contribution_qef 2 cs st (target, 1, 3)
         = qef (deref 2 st (nth 3 (sub (Sample.leaf_at 10)) nullptr))
       ∧ ∀ t, t ≠ target → from_ij (added_to t) = [])
  ∧ (¬ counted → ∀ t, from_ij (added_to t) = [])
  ∧ ((∃ t, In (t, 1, 3) (contributions 2 cs)) ↔ counted)
  ∧ aggregate 2 cs l st
    = fold_left (add_contribution 2 cs l) (contributions 2 cs) st.
Proof.
  cbv zeta.
  apply (contribution_counted_iff 2 Sample.kids Sample.parent_leaf
           (Sample.heap 18) 1 3 (Sample.ambiguous_leaf 10) (Sample.leaf_at 10)).
  - apply (NoDup_seq 19 9).
  - reflexivity.
  - exact sample_kids_separate.
  - vm_compute. lia.
  - vm_compute. lia.
  - reflexivity.
  - reflexivity.
  - reflexivity.
Defined.

(** ** Releasing a leaf that turned out FILLED or EMPTY *)

Section ReleaseCounters.

Context `{P : Primitives}.
Variable N : nat.

Lemma fold_release_sub_counters (L : list ptr) (w : World) :
  leaves_returned (pool (fold_left (release_sub N) L w))
  = leaves_returned (pool w)
  ∧ trees_returned (pool (fold_left (release_sub N) L w))
    = trees_returned (pool w).
Proof.
  revert w. induction L as [|s L IH]; intros w; [split; reflexivity|].
  cbn [fold_left]. destruct (IH (release_sub N w s)) as [-> ->].
  unfold release_sub. destruct (_ =? 0)%Z; split; reflexivity.
Qed.

Lemma fold_tree_releaseTo_leaves (cs : list SimplexTree) (w : World) :
  leaves_returned (pool (fold_left (λ w c, tree_releaseTo N c w) cs w))
  = leaves_returned (pool w)
    + length (List.filter
                (λ c, match leaf c with Some _ => true | None => false end) cs).
Proof.
  revert w. induction cs as [|c cs IH]; intros w; cbn [fold_left List.filter];
    [cbn; lia|].
  rewrite IH. unfold tree_releaseTo.
  destruct (leaf c) as [l|]; cbn [put_tree pool leaves_returned length]; [|lia].
  unfold leaf_releaseTo. cbn [put_leaf pool leaves_returned].
  destruct (fold_release_sub_counters (sub l) w) as [-> _]. lia.
Qed.

End ReleaseCounters.

Section SolveCounters.

Context `{P : Primitives}.
Variable N : nat.
Variable Neighbors : Type.
Variable check : Neighbors → nat → option (SimplexLeaf * nat).

Lemma evalLeaf_solve_counters (nb : Neighbors) (region : Region) (tp : Tape)
    (w : World) :
  leaves_returned (pool (snd (evalLeaf_solve N check nb region tp w)))
  = leaves_returned (pool w)
  ∧ trees_returned (pool (snd (evalLeaf_solve N check nb region tp w)))
    = trees_returned (pool w).
Proof.
  rewrite evalLeaf_solve_parts. cbn [fst snd].
  set (l0 := set_level 0 (set_tape (Some tp) (leaf_reset N))).
  pose proof (fold_borrow_shape N Neighbors check nb l0
                (replicate (ipow 3 N) false) w (ipow 3 N)) as Hb.
  cbv zeta in Hb.
  destruct Hb as (_ & _ & _ & _ & _ & _ & _ & Hlr & Htr);
    [subst l0; cbn; rewrite length_replicate; lia
    |subst l0; cbn; rewrite !length_replicate; reflexivity|].
  set (b := fold_left (borrow_step N check nb) (seq 0 (ipow 3 N))
                      (l0, replicate (ipow 3 N) false, w)) in *.
  pose proof (fold_pack_step N region (snd (fst b)) (replicate (ipow 2 N) 0)
                (snd b) (ipow 2 N)) as Hk.
  cbv zeta in Hk. rewrite length_replicate in Hk.
  destruct (Hk (le_n _)) as (_ & _ & _ & _ & Hp2 & _). clear Hk.
  set (k := fold_left (pack_step N region (snd (fst b))) (seq 0 (ipow 2 N))
                      (0, replicate (ipow 2 N) 0, snd b)) in *.
  destruct (fold_sample_step_frame N tp region (fst (fst b)) (snd (fst k))
              (seq 0 (fst (fst k))) (snd k)) as (Hp3 & _).
  set (w3 := fold_left _ (seq 0 (fst (fst k))) (snd k)) in *.
  destruct (fold_vertex_sign_step_frame N tp region (fst (fst b))
              (snd (fst b)) (seq 0 (ipow 3 N))
              (with_store
                 (fst (Unroller N (ipow 3 N) (fst (fst b)) (snd (fst b)) region
                         (store w3))) w3)) as (_ & Hp5 & _).
  unfold saveVertexSigns. rewrite Hp5. cbn [with_store pool].
  rewrite Hp3, Hp2. split; assumption.
Qed.

End SolveCounters.

Section Classification.

Context `{P : Primitives}.
Variable N : nat.
Variable Neighbors : Type.
Variable check : Neighbors → nat → option (SimplexLeaf * nat).

Lemma evalLeaf_classifies (t : SimplexTree) (nb : Neighbors) (region : Region)
    (tp : Tape) (w : World) :
  let solved := evalLeaf_solve N check nb region tp w in
  let l := fst (fst solved) in
  let st := store (snd solved) in
  let r := evalLeaf N check t nb region tp w in
  let all_inside :=
    ∀ i, i < ipow 3 N → inside (deref N st (nth i (sub l) nullptr)) = true in
  let all_outside :=
    ∀ i, i < ipow 3 N → inside (deref N st (nth i (sub l) nullptr)) = false in
  (type (fst r) = FILLED ↔ all_inside)
  ∧ (type (fst r) = EMPTY ↔ all_outside)
  ∧ (type (fst r) = AMBIGUOUS ↔ ¬ all_inside ∧ ¬ all_outside)
  ∧ (type (fst r) = AMBIGUOUS → leaf (fst r) = Some l ∧ snd r = snd solved)
  ∧ (type (fst r) = FILLED ∨ type (fst r) = EMPTY →
       leaf (fst r) = None ∧ snd r = leaf_releaseTo N l (snd solved))
  ∧ children (fst r) = children t.
Proof.
  intros solved l st r all_inside all_outside.
  assert (Hex : ¬ (all_inside ∧ all_outside)).
  { intros [Hi Ho].
    assert (H0 : 0 < ipow 3 N)
      by (unfold ipow; pose proof (Nat.pow_nonzero 3 N); lia).
    specialize (Hi 0 H0). specialize (Ho 0 H0). congruence. }
  destruct (inside_flags_spec N st l) as [Hin Hout].
  fold all_inside in Hin. fold all_outside in Hout.
  assert (Hr : r = if fst (inside_flags N st l) || snd (inside_flags N st l)
                   then (done (set_leaf None
                                 (set_type
                                    (if fst (inside_flags N st l)
                                     then FILLED else EMPTY)
                                    (set_leaf (Some l) t))),
                         leaf_releaseTo N l (snd solved))
                   else (done (set_type AMBIGUOUS (set_leaf (Some l) t)),
                         snd solved)).
  { subst r l st solved. apply evalLeaf_cases. }
  rewrite Hr. clear Hr.
  destruct (inside_flags N st l) as [ai ao]. cbn [fst snd] in Hin, Hout |- *.
  destruct ai; [|destruct ao].
  - (* every vertex inside *)
    assert (Hall : all_inside) by (apply Hin; reflexivity).
    assert (Hno : ¬ all_outside) by (intros Ho; apply Hex; split; assumption).
    clear Hin Hout Hex. cbn. intuition (auto; discriminate).
  - (* every vertex outside *)
    assert (Hall : all_outside) by (apply Hout; reflexivity).
    assert (Hni : ¬ all_inside) by (intros Hi; apply Hin in Hi; discriminate).
    clear Hin Hout Hex. cbn. intuition (auto; discriminate).
  - (* mixed *)
    assert (Hni : ¬ all_inside) by (intros Hi; apply Hin in Hi; discriminate).
    assert (Hno : ¬ all_outside) by (intros Ho; apply Hout in Ho; discriminate).
    clear Hin Hout Hex. cbn. intuition (auto; discriminate).
Qed.

Lemma evalLeaf_release_effect (nb : Neighbors) (region : Region) (tp : Tape)
    (w : World) :
  let solved := evalLeaf_solve N check nb region tp w in
  let l := fst (fst solved) in
  let held p := Z.of_nat (count_occ Nat.eq_dec (sub l) p) in
  (∀ p, In p (sub l) →
     (0 ≤ refcount (deref N (store w) p)
      ∧ refcount (deref N (store w) p) + held p < 2 ^ 32)%Z) →
  let w' := leaf_releaseTo N l (snd solved) in
  leaves_returned (pool w') = S (leaves_returned (pool w))
  ∧ trees_returned (pool w') = trees_returned (pool w)
  ∧ (∀ p, refcount (deref N (store w') p) = refcount (deref N (store w) p))
  ∧ (∀ p, In p (sub l) → refcount (deref N (store w) p) = 0%Z →
          deref N (store w') p = subspace_reset N
          ∧ In p (free_subs (pool w')))
  ∧ (∀ p, refcount (deref N (store w) p) ≠ 0%Z →
          (In p (free_subs (pool w')) ↔ In p (free_subs (pool (snd solved))))).
Proof.
  cbv zeta. intros Hrc.
  pose proof (evalLeaf_solve_heap N Neighbors check nb region tp w Hrc)
    as Hheap.
  cbv zeta in Hheap.
  destruct (evalLeaf_solve_counters N Neighbors check nb region tp w)
    as [Hlr Htr].
  set (s := evalLeaf_solve N check nb region tp w) in *.
  set (l := fst (fst s)) in *.
  assert (Hrel : ∀ q, In q (sub l) →
            (Z.of_nat (count_occ Nat.eq_dec (sub l) q)
             ≤ refcount (deref N (store (snd s)) q) < 2 ^ 32)%Z).
  { intros q Hq. destruct (Hheap q) as [Hq' _]. rewrite Hq'.
    specialize (Hrc q Hq). unfold ptr in *. lia. }
  pose proof (fold_release_sub N (sub l) (snd s) Hrel) as Hf.
  cbv zeta in Hf. destruct Hf as (Ha & Hb & Hc & _ & Hl & Ht & _).
  unfold leaf_releaseTo, put_leaf.
  cbn [store pool free_subs leaves_returned trees_returned].
  split; [rewrite Hl, Hlr; reflexivity|].
  split; [rewrite Ht, Htr; reflexivity|]. split; [|split].
  - intros p. destruct (Hheap p) as [Hp _]. rewrite Ha, Hp.
    unfold ptr in *. lia.
  - intros p Hp Hz. apply Hb. split; [exact Hp|].
    destruct (Hheap p) as [Hq _]. rewrite Hq, Hz. unfold ptr in *. lia.
  - intros p Hnz. apply Hc. intros [_ Hlast].
    destruct (Hheap p) as [Hq _]. rewrite Hq in Hlast.
    unfold ptr in *. lia.
Qed.

End Classification.

Section UniformChildren.

Context `{P : Primitives}.
Variable N : nat.

Lemma collectChildren_uniform_releases (b : SimplexTree) (tp : Tape)
    (max_err : double) (region : Region) (w : World) (ty : Interval) :
  pending b = 0%Z → children b ≠ [] →
  Forall (λ k, isBranch k = false) (children b) →
  Forall (λ k, type k = ty) (children b) →
  ty = EMPTY ∨ ty = FILLED →
  collectChildren N b tp max_err region w
  = (true, done (set_children [] (set_type ty (set_pending (-1) b))),
     fold_left (λ w c, tree_releaseTo N c w) (children b) w).
Proof.
  intros Hpb Hne Hnb Hty Hcase.
  unfold collectChildren. rewrite Hpb.
  cbn [nz Z.eqb negb set_pending children].
  rewrite (existsb_isBranch _ Hnb).
  assert (Hsel :
    (if forallb (λ k, Interval_eqb (type k) EMPTY) (children b) then EMPTY
     else if forallb (λ k, Interval_eqb (type k) FILLED) (children b)
          then FILLED else AMBIGUOUS) = ty).
  { destruct Hcase as [->| ->].
    - apply forallb_type in Hty. rewrite Hty. reflexivity.
    - rewrite forallb_type_false.
      + apply forallb_type in Hty. rewrite Hty. reflexivity.
      + intros He. destruct (children b) as [|k ks]; [congruence|].
        apply Forall_cons in He as [He _].
        apply Forall_cons in Hty as [Hf _]. congruence. }
  rewrite Hsel. cbn [set_type type].
  destruct Hcase as [->| ->]; reflexivity.
Qed.

End UniformChildren.

(** C4: [evalLeaf] leaves the node FILLED iff every one of the [3^N]
    subspace vertices is inside, EMPTY iff every one is outside, and
    AMBIGUOUS otherwise.  An AMBIGUOUS node keeps its leaf.  A node that
    [evalLeaf] leaves FILLED or EMPTY holds no leaf, and the leaf is
    released: the leaf pool has one leaf more, every subspace record has
    the reference count it had before the call, the records that the call
    took fresh from the pool are reset and back on the free list, and no
    record that was in use before goes on or off the free list.  A node
    that [collectChildren] turns FILLED or EMPTY (it enters without a leaf,
    as the source asserts, with the last signal pending and with children
    that are leaves, all of that type) ends of that type, without children
    and without a leaf; every child has gone back to the tree pool, each
    with the leaf it held, and where no child held a leaf the heap and the
    free list are as before.  Neither [evalInterval] nor any path of
    [collectChildren] gives a leaf to a node that entered without one. *)
Theorem filled_or_empty_holds_no_leaf `{P : Primitives} (N : nat)
    (Neighbors : Type)
    (neighbors_check : Neighbors → nat → option (SimplexLeaf * nat))
    (t : SimplexTree) (neighbors : Neighbors) (region : Region) (tp : Tape)
    (w : World)
    (b : SimplexTree) (max_err : double) (wb : World) (ty : Interval) :
  let solved := evalLeaf_solve N neighbors_check neighbors region tp w in
  let l := fst (fst solved) in
  let st := store (snd solved) in
  let held p := Z.of_nat (count_occ Nat.eq_dec (sub l) p) in
  (∀ p, In p (sub l) →
     (0 ≤ refcount (deref N (store w) p)
      ∧ refcount (deref N (store w) p) + held p < 2 ^ 32)%Z) →
  leaf b = None → pending b = 0%Z → children b ≠ [] →
  Forall (λ k, isBranch k = false) (children b) →
  Forall (λ k, type k = ty) (children b) →
  ty = EMPTY ∨ ty = FILLED →
  let r := evalLeaf N neighbors_check t neighbors region tp w in
  let all_inside :=
    ∀ i, i < ipow 3 N → inside (deref N st (nth i (sub l) nullptr)) = true in
  let all_outside :=
    ∀ i, i < ipow 3 N → inside (deref N st (nth i (sub l) nullptr)) = false in
  let rc := collectChildren N b tp max_err region wb in
  let c := snd (fst rc) in
  let has_leaf (k : SimplexTree) :=
    match leaf k with Some _ => true | None => false end in
  (type (fst r) = FILLED ↔ all_inside)
  ∧ (type (fst r) = EMPTY ↔ all_outside)
  ∧ (type (fst r) = AMBIGUOUS ↔ ¬ all_inside ∧ ¬ all_outside)
  ∧ (type (fst r) = AMBIGUOUS → leaf (fst r) = Some l ∧ snd r = snd solved)
  ∧ (type (fst r) = FILLED ∨ type (fst r) = EMPTY →
       leaf (fst r) = None
       ∧ snd r = leaf_releaseTo N l (snd solved)
       ∧ leaves_returned (pool (snd r)) = S (leaves_returned (pool w))
       ∧ (∀ p, refcount (deref N (store (snd r)) p)
               = refcount (deref N (store w) p))
       ∧ (∀ p, In p (sub l) → refcount (deref N (store w) p) = 0%Z →
               deref N (store (snd r)) p = subspace_reset N
               ∧ In p (free_subs (pool (snd r))))
       ∧ (∀ p, refcount (deref N (store w) p) ≠ 0%Z →
               (In p (free_subs (pool (snd r)))
                ↔ In p (free_subs (pool (snd solved))))))
  ∧ children (fst r) = children t
  ∧ (type c = ty ∧ children c = [] ∧ isBranch c = false ∧ leaf c = None
     ∧ trees_returned (pool (snd rc))
       = trees_returned (pool wb) + length (children b)
     ∧ leaves_returned (pool (snd rc))
       = leaves_returned (pool wb)
         + length (List.filter has_leaf (children b))
     ∧ (Forall (λ k, leaf k = None) (children b) →
        store (snd rc) = store wb
        ∧ free_subs (pool (snd rc)) = free_subs (pool wb)))
  ∧ (∀ b' e' r' w', leaf b' = None →
       leaf (snd (fst (collectChildren N b' tp e' r' w'))) = None)
  ∧ (∀ t' r', leaf (fst (evalInterval t' r' tp)) = leaf t').
Proof.
  cbv zeta. intros Hrc Hlb Hpb Hne Hnb Hty Hcase.
  pose proof (evalLeaf_classifies N Neighbors neighbors_check t neighbors
                region tp w) as Hcl.
  cbv zeta in Hcl. destruct Hcl as (H1 & H2 & H3 & H4 & H5 & H6).
  pose proof (evalLeaf_release_effect N Neighbors neighbors_check neighbors
                region tp w Hrc) as Hre.
  cbv zeta in Hre. destruct Hre as (R1 & _ & R3 & R4 & R5).
  split; [exact H1|]. split; [exact H2|]. split; [exact H3|].
  split; [exact H4|]. split.
  { intros Hfe. destruct (H5 Hfe) as [Hleaf Hw].
    split; [exact Hleaf|]. split; [exact Hw|]. rewrite Hw.
    split; [exact R1|]. split; [exact R3|]. split; [exact R4|exact R5]. }
  split; [exact H6|]. split.
  { rewrite (collectChildren_uniform_releases N b tp max_err region wb ty
               Hpb Hne Hnb Hty Hcase).
    cbn [fst snd done set_children set_type set_pending type children leaf
         isBranch].
    pose proof (fold_tree_releaseTo_count N (children b) wb) as Hcount.
    cbv zeta in Hcount. destruct Hcount as [Htr Hquiet].
    split; [reflexivity|]. split; [reflexivity|]. split; [reflexivity|].
    split; [exact Hlb|]. split; [exact Htr|].
    split; [apply fold_tree_releaseTo_leaves|].
    intros Hno. destruct (Hquiet Hno) as (Hs & _ & Hf & _).
    split; assumption. }
  split.
  { intros b' e' r' w' Hb'. apply collectChildren_leaf_None, Hb'. }
  intros t' r'. unfold evalInterval.
  destruct (negb (isSafe r' tp)); [reflexivity|].
  destruct (_ || _); reflexivity.
Qed.

Lemma filled_or_empty_holds_no_leaf_witness :
  let t := Sample.plain AMBIGUOUS in
  let w := Sample.world in
  let b := {| type := AMBIGUOUS; leaf := None;
              children := [Sample.plain FILLED; Sample.plain FILLED;
                           Sample.plain FILLED; Sample.plain FILLED];
              pending := 0; done_signals := 0 |} in
  let solved :=
    evalLeaf_solve 2 (SimplexNeighbors.check 2) SampleNeighbors.of_child_1
                   5%Z tt w in
  let l := fst (fst solved) in
  let st := store (snd solved) in
  let r := evalLeaf 2 (SimplexNeighbors.check 2) t
                    SampleNeighbors.of_child_1 5%Z tt w in
  let all_inside :=
    ∀ i, i < ipow 3 2 → inside (deref 2 st (nth i (sub l) nullptr)) = true in
  let all_outside :=
    ∀ i, i < ipow 3 2 → inside (deref 2 st (nth i (sub l) nullptr)) = false in
  let rc := collectChildren 2 b tt 1000%Z 5%Z w in
  let c := snd (fst rc) in
  let has_leaf (k : SimplexTree) :=
    match leaf k with Some _ => true | None => false end in
  (type (fst r) = FILLED ↔ all_inside)
  ∧ (type (fst r) = EMPTY ↔ all_outside)
  ∧ (type (fst r) = AMBIGUOUS ↔ ¬ all_inside ∧ ¬ all_outside)
  ∧ (type (fst r) = AMBIGUOUS → leaf (fst r) = Some l ∧ snd r = snd solved)
  ∧ (type (fst r) = FILLED ∨ type (fst r) = EMPTY →
       leaf (fst r) = None
       ∧ snd r = leaf_releaseTo 2 l (snd solved)
       ∧ leaves_returned (pool (snd r)) = S (leaves_returned (pool w))
       ∧ (∀ p, refcount (deref 2 (store (snd r)) p)
               = refcount (deref 2 (store w) p))
       ∧ (∀ p, In p (sub l) → refcount (deref 2 (store w) p) = 0%Z →
               deref 2 (store (snd r)) p = subspace_reset 2
               ∧ In p (free_subs (pool (snd r))))
       ∧ (∀ p, refcount (deref 2 (store w) p) ≠ 0%Z →
               (In p (free_subs (pool (snd r)))
                ↔ In p (free_subs (pool (snd solved))))))
  ∧ children (fst r) = children t
  ∧ (type c = FILLED ∧ children c = [] ∧ isBranch c = false ∧ leaf c = None
     ∧ trees_returned (pool (snd rc))
       = trees_returned (pool w) + length (children b)
     ∧ leaves_returned (pool (snd rc))
       = leaves_returned (pool w)
         + length (List.filter has_leaf (children b))
     ∧ (Forall (λ k, leaf k = None) (children b) →
        store (snd rc) = store w
        ∧ free_subs (pool (snd rc)) = free_subs (pool w)))
  ∧ (∀ (b' : SimplexTree (P := Sample.prims)) e' r' w', leaf b' = None →
       leaf (snd (fst (collectChildren 2 b' tt e' r' w'))) = None)
  ∧ (∀ (t' : SimplexTree (P := Sample.prims)) r',
       leaf (fst (evalInterval t' r' tt)) = leaf t').
Proof.
  cbv zeta.
  apply (filled_or_empty_holds_no_leaf 2 SimplexNeighbors.t
           (SimplexNeighbors.check 2) (Sample.plain AMBIGUOUS)
           SampleNeighbors.of_child_1 5%Z tt Sample.world
           {| type := AMBIGUOUS; leaf := None;
              children := [Sample.plain FILLED; Sample.plain FILLED;
                           Sample.plain FILLED; Sample.plain FILLED];
              pending := 0; done_signals := 0 |}
           1000%Z Sample.world FILLED).
  - assert (Hsub : sub (fst (fst (evalLeaf_solve 2 (SimplexNeighbors.check 2)
                                    SampleNeighbors.of_child_1 5%Z tt
                                    Sample.world)))
                   = [3; 19; 20; 6; 21; 22; 9; 23; 24])
      by (vm_compute; reflexivity).
    rewrite Hsub. intros p Hp. cbn [In] in Hp.
    repeat (destruct Hp as [<-|Hp];
            [vm_compute; split; [congruence|reflexivity]|]).
    destruct Hp.
  - reflexivity.
  - reflexivity.
  - discriminate.
  - repeat constructor.
  - repeat constructor.
  - right. reflexivity.
Defined.
